(** * CycleGAN training step (models/cycle_gan_model.py)

    A shallow embedding of [CycleGANModel]: construction, [set_input],
    [forward], the discriminator and generator losses and
    [optimize_parameters], followed by the properties of the training step.

    Conventions of the embedding.
    - Floating-point scalars are exact reals extended with one value
      [NonFinite] that stands for the IEEE infinities and NaN; rounding and
      overflow are not modelled.  Every equality or bound between loss
      values below is therefore one of exact real arithmetic: the float32
      value computed by torch can differ from it by rounding, and by
      overflow on very large entries.  A division by zero produces
      [NonFinite], and [NonFinite] is absorbing for every operation.  The
      one IEEE operation that gives a finite result from a non-finite
      operand, dividing a finite number by an infinity, can only happen in
      [backward_G] when an input tensor already holds a non-finite entry.
    - A tensor is a shape together with an index function, so it is always
      rectangular; images are four-dimensional (batch, channel, height,
      width).  Binary operations follow the torch broadcasting rule.
    - [self] is a store of optional attributes: reading an attribute that
      was never assigned raises [AttributeError], as in Python.
    - Networks, criteria, image pools, optimizers and their constructors,
      [BaseModel.__init__] and [torchsummary.summary] are collaborators
      supplied from outside the class: they are fields of an environment
      record and may raise.  [summary] receives the channel count its
      network was built for and the input size it is called with.
    - The methods run in a state-and-exception monad whose exceptions keep the
      state reached so far, since assignments to [self] made before a raise
      stay visible.  Calls to collaborators that carry autograd or optimizer
      effects are logged in [trace], oldest first.
    - The training methods are those of a model built with [isTrain]: the
      discriminators, pools, criteria and optimizers exist. *)

From Stdlib Require Import List Bool Arith Lia String QArith Reals Lra Qreals.
Import ListNotations.

Set Implicit Arguments.

(* ================================================================== *)
(** ** Scalars *)

Inductive xreal : Type :=
| Fin (r : R)
| NonFinite.

Definition xlift2 (f : R -> R -> R) (a b : xreal) : xreal :=
  match a, b with
  | Fin x, Fin y => Fin (f x y)
  | _, _ => NonFinite
  end.

Definition xadd : xreal -> xreal -> xreal := xlift2 Rplus.
Definition xsub : xreal -> xreal -> xreal := xlift2 Rminus.
Definition xmul : xreal -> xreal -> xreal := xlift2 Rmult.

(** [x / 0] is an infinity or NaN. *)
Definition xdiv (a b : xreal) : xreal :=
  match a, b with
  | Fin x, Fin y => if Req_dec_T y 0 then NonFinite else Fin (x / y)
  | _, _ => NonFinite
  end.

(** The square root of a negative number is NaN. *)
Definition xsqrt (a : xreal) : xreal :=
  match a with
  | Fin x => if Rlt_dec x 0 then NonFinite else Fin (sqrt x)
  | NonFinite => NonFinite
  end.

Definition xsum (l : list xreal) : xreal := fold_right xadd (Fin 0) l.

(** Sum of [f i] for [i < n]. *)
Definition xsum_n (n : nat) (f : nat -> xreal) : xreal :=
  xsum (map f (seq 0 n)).

Declare Scope xreal_scope.
Delimit Scope xreal_scope with X.
Infix "+" := xadd : xreal_scope.
Infix "-" := xsub : xreal_scope.
Infix "*" := xmul : xreal_scope.
Infix "/" := xdiv : xreal_scope.

(* ================================================================== *)
(** ** Tensors *)

(** A four-dimensional tensor (batch, channel, height, width).  [grad_fn]
    tells whether the tensor is attached to an autograd graph; [detach]
    clears it and shares the data. *)
Record tensor : Type := mkTensor {
  dim0 : nat;
  dim1 : nat;
  dim2 : nat;
  dim3 : nat;
  item : nat -> nat -> nat -> nat -> xreal;
  grad_fn : bool
}.

(** The result of a reduction over the channel axis (batch, height, width). *)
Record tensor3 : Type := mkTensor3 {
  d3_0 : nat;
  d3_1 : nat;
  d3_2 : nat;
  item3 : nat -> nat -> nat -> xreal
}.

(** A one-dimensional tensor: one entry per sample of the batch. *)
Record tensor1 : Type := mkTensor1 {
  len : nat;
  item1 : nat -> xreal
}.

Definition detach (t : tensor) : tensor :=
  mkTensor (dim0 t) (dim1 t) (dim2 t) (dim3 t) (item t) false.

(** [torch.norm(t, dim=1)]: Euclidean norm over the channel axis. *)
Definition norm_dim1 (t : tensor) : tensor3 :=
  mkTensor3 (dim0 t) (dim2 t) (dim3 t)
    (fun b h w =>
       xsqrt (xsum_n (dim1 t) (fun c => (item t b c h w * item t b c h w)%X))).

(** [t.mean(dim=(1,2))] on a three-dimensional tensor. *)
Definition mean_dims12 (t : tensor3) : tensor1 :=
  mkTensor1 (d3_0 t)
    (fun b =>
       (xsum_n (d3_1 t) (fun h => xsum_n (d3_2 t) (fun w => item3 t b h w))
        / Fin (INR (d3_1 t * d3_2 t)))%X).

(** [t.mean()] on a three-dimensional tensor: the mean of all entries. *)
Definition mean_all (t : tensor3) : xreal :=
  (xsum_n (d3_0 t) (fun b =>
     xsum_n (d3_1 t) (fun h => xsum_n (d3_2 t) (fun w => item3 t b h w)))
   / Fin (INR (d3_0 t * d3_1 t * d3_2 t)))%X.

(** Broadcasting of one pair of sizes: equal, or one of them is 1. *)
Definition bdim (a b : nat) : option nat :=
  if a =? b then Some a
  else if a =? 1 then Some b
  else if b =? 1 then Some a
  else None.

(** The index read in an operand of size [n] along a broadcast axis. *)
Definition bidx (n i : nat) : nat := if n =? 1 then 0 else i.

(** [a / n] for a four-dimensional [a] and a one-dimensional [n].  Shapes
    are aligned from the trailing axis, so [n] is laid along the last
    (width) axis of [a]; [None] is the RuntimeError torch raises when the
    sizes do not broadcast. *)
Definition div_bcast (a : tensor) (n : tensor1) : option tensor :=
  match bdim (dim3 a) (len n) with
  | Some w =>
      Some (mkTensor (dim0 a) (dim1 a) (dim2 a) w
              (fun b c h j =>
                 (item a b c h (bidx (dim3 a) j) / item1 n (bidx (len n) j))%X)
              (grad_fn a))
  | None => None
  end.

(** [a - b] for two four-dimensional tensors, broadcasting every axis. *)
Definition sub_bcast (a b : tensor) : option tensor :=
  match bdim (dim0 a) (dim0 b), bdim (dim1 a) (dim1 b),
        bdim (dim2 a) (dim2 b), bdim (dim3 a) (dim3 b) with
  | Some n0, Some n1, Some n2, Some n3 =>
      Some (mkTensor n0 n1 n2 n3
              (fun i c h w =>
                 (item a (bidx (dim0 a) i) (bidx (dim1 a) c)
                         (bidx (dim2 a) h) (bidx (dim3 a) w)
                  - item b (bidx (dim0 b) i) (bidx (dim1 b) c)
                           (bidx (dim2 b) h) (bidx (dim3 b) w))%X)
              (grad_fn a || grad_fn b))
  | _, _, _, _ => None
  end.

(** A tensor given by nested lists of reals (missing entries read 0). *)
Definition of_lists (b c h w : nat) (l : list (list (list (list R))))
  : tensor :=
  mkTensor b c h w
    (fun i j k m => Fin (nth m (nth k (nth j (nth i l []) []) []) 0%R))
    false.

(** [(torch.norm(t, dim=1)).mean(dim=(1,2))], lines 214-217. *)
Definition sample_norms (t : tensor) : tensor1 := mean_dims12 (norm_dim1 t).

(** [(torch.norm(a - b, dim=1)).mean()], lines 233-234; [None] when the
    subtraction does not broadcast. *)
Definition direction_gap (a b : tensor) : option xreal :=
  match sub_bcast a b with
  | Some d => Some (mean_all (norm_dim1 d))
  | None => None
  end.

(** The difference-consistency term of one domain before weighting: both
    maps are normalized by their per-sample norms (lines 220-223) and
    compared (lines 233-234). *)
Definition normalized_gap (gen ref : tensor) : option xreal :=
  match div_bcast gen (sample_norms gen), div_bcast ref (sample_norms ref) with
  | Some g, Some r => direction_gap g r
  | _, _ => None
  end.

(* ================================================================== *)
(** ** Options, attributes and exceptions *)

(** The experiment flags read by the model.  Weights are Python floats given
    on the command line, hence rationals. *)
Record Opt : Type := mkOpt {
  isTrain : bool;
  lambda_A : Q;
  lambda_B : Q;
  lambda_identity_t : Q;
  lambda_identity_s : Q;
  lambda_diff_s : Q;
  lambda_diff_t : Q;
  input_nc : nat;
  output_nc : nat;
  dataset_type : string;
  phase : string;
  direction : string;
  pool_size : nat;
  gan_mode : string;
  lr : Q;
  beta1 : Q
}.

(** The Python test [q > 0]. *)
Definition Qgt0 (q : Q) : bool := negb (Qle_bool q 0).

(** A weight as a scalar factor. *)
Definition weight (q : Q) : xreal := Fin (Q2R q).

Inductive net : Type := G_A | G_B | D_A | D_B.
Inductive pool : Type := fake_A_pool | fake_B_pool.
Inductive optimizer : Type := optimizer_G | optimizer_D.

(** Image attributes of [self]. *)
Inductive tattr : Type :=
| real_A | real_B | real_diff_A | real_diff_B
| fake_B | diff_A | rec_A | fake_A | diff_B | rec_B
| idt_A | idt_B | idt_A_s | idt_B_s
| real_diff_A_norm | real_diff_B_norm | diff_A_norm | diff_B_norm.

(** Per-sample norm attributes of [self] (the names end in an underscore in
    the source). *)
Inductive vattr : Type :=
| real_diff_A_ | real_diff_B_ | diff_A_ | diff_B_.

(** Scalar loss attributes of [self]. *)
Inductive lattr : Type :=
| loss_idt_A_t | loss_idt_B_t | loss_idt_A_s | loss_idt_B_s
| loss_idt_A | loss_idt_B
| loss_G_A | loss_G_B | loss_cycle_A | loss_cycle_B
| loss_diff_A | loss_diff_B | loss_G | loss_D_A | loss_D_B.

Inductive attr : Type :=
| AImage (a : tattr)
| ANorm (a : vattr)
| ALoss (a : lattr).

(** Who raised, for an exception coming from a collaborator. *)
Inductive collaborator : Type :=
| CNet (n : net)
| CPool (p : pool)
| CCriterionGAN
| CCriterionCycle
| CCriterionIdt
| CDefine (n : net)
| CSummary (n : net)
| CBaseModel
| CImagePool (p : pool)
| CGANLoss
| CL1Loss
| CAdam (o : optimizer).

Inductive exn : Type :=
| AttributeError (a : attr)      (* attribute of self never assigned *)
| KeyError (k : string)          (* key missing from the input dict *)
| TypeError (k : string)         (* input entry that is not a tensor *)
| AssertionError
| RuntimeError                   (* sizes that do not broadcast *)
| Raised (c : collaborator).

Definition tattr_eq_dec (a b : tattr) : {a = b} + {a <> b}.
Proof. decide equality. Defined.
Definition vattr_eq_dec (a b : vattr) : {a = b} + {a <> b}.
Proof. decide equality. Defined.
Definition lattr_eq_dec (a b : lattr) : {a = b} + {a <> b}.
Proof. decide equality. Defined.
Definition net_eq_dec (a b : net) : {a = b} + {a <> b}.
Proof. decide equality. Defined.

(** Effects on autograd and optimizer state, in the order they happen. *)
Inductive event : Type :=
| EvNet (n : net)                             (* forward evaluation *)
| EvPool (p : pool)                           (* ImagePool.query *)
| EvSetRequiresGrad (ns : list net) (b : bool)
| EvZeroGrad (o : optimizer)
| EvBackward (l : xreal)                      (* l.backward() *)
| EvStep (o : optimizer).

(** The input dict handed over by the data loader. *)
Inductive value : Type :=
| VTensor (t : tensor)
| VPaths (p : list string).

Definition dict : Type := list (string * value).

Fixpoint lookup (k : string) (d : dict) : option value :=
  match d with
  | [] => None
  | (k', v) :: d' => if String.eqb k k' then Some v else lookup k d'
  end.

(* ================================================================== *)
(** ** The model object *)

Record state : Type := mkState {
  opt : Opt;
  loss_names : list string;
  visual_names : list string;
  model_names : list string;
  tensors : tattr -> option tensor;
  norms : vattr -> option tensor1;
  losses : lattr -> option xreal;
  image_paths : option value;
  requires_grad : net -> bool;
  updates : net -> nat;          (* optimizer steps received by each net *)
  trace : list event
}.

Definition with_tensors (f : tattr -> option tensor) (s : state) : state :=
  mkState (opt s) (loss_names s) (visual_names s) (model_names s) f (norms s)
    (losses s) (image_paths s) (requires_grad s) (updates s) (trace s).
Definition with_norms (f : vattr -> option tensor1) (s : state) : state :=
  mkState (opt s) (loss_names s) (visual_names s) (model_names s) (tensors s) f
    (losses s) (image_paths s) (requires_grad s) (updates s) (trace s).
Definition with_losses (f : lattr -> option xreal) (s : state) : state :=
  mkState (opt s) (loss_names s) (visual_names s) (model_names s) (tensors s)
    (norms s) f (image_paths s) (requires_grad s) (updates s) (trace s).
Definition with_image_paths (p : option value) (s : state) : state :=
  mkState (opt s) (loss_names s) (visual_names s) (model_names s) (tensors s)
    (norms s) (losses s) p (requires_grad s) (updates s) (trace s).
Definition with_requires_grad (f : net -> bool) (s : state) : state :=
  mkState (opt s) (loss_names s) (visual_names s) (model_names s) (tensors s)
    (norms s) (losses s) (image_paths s) f (updates s) (trace s).
Definition with_updates (f : net -> nat) (s : state) : state :=
  mkState (opt s) (loss_names s) (visual_names s) (model_names s) (tensors s)
    (norms s) (losses s) (image_paths s) (requires_grad s) f (trace s).
Definition with_trace (t : list event) (s : state) : state :=
  mkState (opt s) (loss_names s) (visual_names s) (model_names s) (tensors s)
    (norms s) (losses s) (image_paths s) (requires_grad s) (updates s) t.

(** Function update, for each kind of attribute name. *)
Definition upd {K V : Type} (eq_dec : forall a b : K, {a = b} + {a <> b})
  (f : K -> V) (k : K) (v : V) : K -> V :=
  fun k' => if eq_dec k k' then v else f k'.

(* ================================================================== *)
(** ** State and exception monad *)

Inductive outcome (A : Type) : Type :=
| Ok (a : A) (s : state)
| Raise (e : exn) (s : state).
Arguments Raise {A} e s.

Definition M (A : Type) : Type := state -> outcome A.

Definition ret {A} (a : A) : M A := fun s => Ok a s.
Definition raise {A} (e : exn) : M A := fun s => Raise e s.
Definition bind {A B} (m : M A) (f : A -> M B) : M B :=
  fun s => match m s with
           | Ok a s' => f a s'
           | Raise e s' => Raise e s'
           end.

Notation "x <- m ;; k" := (bind m (fun x => k))
  (at level 61, m at next level, right associativity).
Notation "m ;; k" := (bind m (fun _ => k))
  (at level 61, right associativity).

(** The state an outcome ends in, whether it returned or raised. *)
Definition state_of {A} (o : outcome A) : state :=
  match o with Ok _ s => s | Raise _ s => s end.

Definition getT (a : tattr) : M tensor :=
  fun s => match tensors s a with
           | Some t => Ok t s
           | None => Raise (AttributeError (AImage a)) s
           end.
Definition setT (a : tattr) (t : tensor) : M unit :=
  fun s => Ok tt (with_tensors (upd tattr_eq_dec (tensors s) a (Some t)) s).
Definition getV (a : vattr) : M tensor1 :=
  fun s => match norms s a with
           | Some t => Ok t s
           | None => Raise (AttributeError (ANorm a)) s
           end.
Definition setV (a : vattr) (t : tensor1) : M unit :=
  fun s => Ok tt (with_norms (upd vattr_eq_dec (norms s) a (Some t)) s).
Definition getL (a : lattr) : M xreal :=
  fun s => match losses s a with
           | Some t => Ok t s
           | None => Raise (AttributeError (ALoss a)) s
           end.
Definition setL (a : lattr) (l : xreal) : M unit :=
  fun s => Ok tt (with_losses (upd lattr_eq_dec (losses s) a (Some l)) s).

Definition get_opt : M Opt := fun s => Ok (opt s) s.

Definition emit (e : event) : M unit :=
  fun s => Ok tt (with_trace (trace s ++ [e]) s).

(** The result of a call that may raise [e]. *)
Definition lift {A} (e : exn) (r : option A) : M A :=
  match r with
  | Some a => ret a
  | None => raise e
  end.

(* ================================================================== *)
(** ** Collaborators *)

(** What the class receives from outside: the four networks (built by
    [networks.define_G] and [networks.define_D]), the two image pools, the
    loss criteria, and what the constructor calls to create them.  [None] is
    a raise.
    Within one training iteration every network is evaluated only before its
    own optimizer step and every pool is queried once, so each is a fixed
    function here.
    - [define_G i o] and [define_D i] build a network for [i] input (and [o]
      output) channels; their other arguments are options this class only
      passes on.
    - [summary n c size] is [torchsummary.summary] called on network [n],
      which was built for [c] input channels, with input size [size]
      (channels, height, width).
    - [BaseModel_init] is [BaseModel.__init__] (line 62), [ImagePool] takes
      [opt.pool_size], [GANLoss] takes [opt.gan_mode] (and moves the
      criterion to the device), [L1Loss] is [torch.nn.L1Loss()], and
      [Adam g lr beta1] is [torch.optim.Adam] on the parameters of the
      networks of optimizer [g] with [lr] and [betas = (beta1, 0.999)]. *)
Record Env : Type := mkEnv {
  netG_A : tensor -> option (tensor * tensor);
  netG_B : tensor -> option (tensor * tensor);
  netD_A : tensor -> option tensor;
  netD_B : tensor -> option tensor;
  fake_A_pool_query : tensor -> option tensor;
  fake_B_pool_query : tensor -> option tensor;
  criterionGAN : tensor -> bool -> option xreal;
  criterionCycle : tensor -> tensor -> option xreal;
  criterionIdt : tensor -> tensor -> option xreal;
  define_G : nat -> nat -> option unit;
  define_D : nat -> option unit;
  summary : net -> nat -> nat * nat * nat -> option unit;
  BaseModel_init : Opt -> option unit;
  ImagePool : nat -> option unit;
  GANLoss : string -> option unit;
  L1Loss : option unit;
  Adam : optimizer -> Q -> Q -> option unit
}.

(** Results of the constructor, which has no object to mutate yet. *)
Inductive result (A : Type) : Type :=
| Done (a : A)
| Fail (e : exn).
Arguments Fail {A} e.

Definition and_then {A B} (r : result A) (f : A -> result B) : result B :=
  match r with
  | Done a => f a
  | Fail e => Fail e
  end.

Definition called {A} (c : collaborator) (r : option A) : result A :=
  match r with
  | Some a => Done a
  | None => Fail (Raised c)
  end.

Definition assert (b : bool) : result unit :=
  if b then Done tt else Fail AssertionError.

Definition when (b : bool) (r : result unit) : result unit :=
  if b then r else Done tt.

Section Model.

Variable E : Env.

(** *** Calls to collaborators *)

(** A forward evaluation of network [n], whose function is [f]. *)
Definition call_net {A} (n : net) (f : tensor -> option A) (x : tensor)
  : M A :=
  emit (EvNet n) ;; lift (Raised (CNet n)) (f x).

Definition call_netG_A : tensor -> M (tensor * tensor) :=
  call_net G_A (netG_A E).
Definition call_netG_B : tensor -> M (tensor * tensor) :=
  call_net G_B (netG_B E).
Definition call_netD_A : tensor -> M tensor := call_net D_A (netD_A E).
Definition call_netD_B : tensor -> M tensor := call_net D_B (netD_B E).
Definition call_fake_A_pool (x : tensor) : M tensor :=
  emit (EvPool fake_A_pool) ;;
  lift (Raised (CPool fake_A_pool)) (fake_A_pool_query E x).
Definition call_fake_B_pool (x : tensor) : M tensor :=
  emit (EvPool fake_B_pool) ;;
  lift (Raised (CPool fake_B_pool)) (fake_B_pool_query E x).
Definition call_criterionGAN (x : tensor) (target : bool) : M xreal :=
  lift (Raised CCriterionGAN) (criterionGAN E x target).
Definition call_criterionCycle (x y : tensor) : M xreal :=
  lift (Raised CCriterionCycle) (criterionCycle E x y).
Definition call_criterionIdt (x y : tensor) : M xreal :=
  lift (Raised CCriterionIdt) (criterionIdt E x y).

(** [l.backward()]. *)
Definition backward (l : xreal) : M unit := emit (EvBackward l).

(** [optimizer.zero_grad()]. *)
Definition zero_grad (o : optimizer) : M unit := emit (EvZeroGrad o).

(** The networks whose parameters an optimizer owns (lines 112-113). *)
Definition params_of (o : optimizer) : list net :=
  match o with
  | optimizer_G => [G_A; G_B]
  | optimizer_D => [D_A; D_B]
  end.

Definition mem_net (n : net) (ns : list net) : bool :=
  if in_dec net_eq_dec n ns then true else false.

(** [optimizer.step()]: every network of the optimizer receives one
    update. *)
Definition step (o : optimizer) : M unit :=
  emit (EvStep o) ;;
  fun s =>
    Ok tt (with_updates
             (fun n => if mem_net n (params_of o) then S (updates s n)
                       else updates s n) s).

(** Modelled from the spec: [BaseModel.set_requires_grad] lives in
    base_model.py; it switches gradient tracking of the listed networks. *)
Definition set_requires_grad (ns : list net) (b : bool) : M unit :=
  emit (EvSetRequiresGrad ns b) ;;
  fun s =>
    Ok tt (with_requires_grad
             (fun n => if mem_net n ns then b else requires_grad s n) s).

(** *** set_input (lines 117-139) *)

(** [input[k].to(self.device)]. *)
Definition input_tensor (input : dict) (k : string) : M tensor :=
  match lookup k input with
  | Some (VTensor t) => ret t
  | Some (VPaths _) => raise (TypeError k)
  | None => raise (KeyError k)
  end.

(** [input[k]], stored as it is. *)
Definition input_item (input : dict) (k : string) : M value :=
  match lookup k input with
  | Some v => ret v
  | None => raise (KeyError k)
  end.

Definition set_image_paths (p : value) : M unit :=
  fun s => Ok tt (with_image_paths (Some p) s).

Definition set_input (input : dict) : M unit :=
  o <- get_opt ;;
  (if String.eqb (dataset_type o) "common_images" then
     let AtoB := String.eqb (direction o) "AtoB" in
     a <- input_tensor input (if AtoB then "A" else "B") ;;
     setT real_A a ;;
     b <- input_tensor input (if AtoB then "B" else "A") ;;
     setT real_B b ;;
     p <- input_item input (if AtoB then "A_paths" else "B_paths") ;;
     set_image_paths p
   else ret tt) ;;
  (if String.eqb (dataset_type o) "remote_sensing_images" then
     let AtoB := String.eqb (direction o) "AtoB" in
     a <- input_tensor input (if AtoB then "A" else "B") ;;
     setT real_A a ;;
     b <- input_tensor input (if AtoB then "B" else "A") ;;
     setT real_B b ;;
     if String.eqb (phase o) "train" then
       ra <- input_tensor input (if AtoB then "A_ref" else "B_ref") ;;
       setT real_diff_A ra ;;
       rb <- input_tensor input (if AtoB then "B_ref" else "A_ref") ;;
       setT real_diff_B rb
     else ret tt
   else ret tt).

(** *** forward (lines 141-146) *)

Definition forward : M unit :=
  x <- getT real_A ;; r <- call_netG_A x ;;
  setT fake_B (fst r) ;; setT diff_A (snd r) ;;
  x <- getT fake_B ;; r <- call_netG_B x ;;
  setT rec_A (fst r) ;;
  x <- getT real_B ;; r <- call_netG_B x ;;
  setT fake_A (fst r) ;; setT diff_B (snd r) ;;
  x <- getT fake_A ;; r <- call_netG_A x ;;
  setT rec_B (fst r).

(** *** Discriminator losses (lines 148-178) *)

Definition backward_D_basic (netD : tensor -> M tensor) (real fake : tensor)
  : M xreal :=
  pred_real <- netD real ;;
  loss_D_real <- call_criterionGAN pred_real true ;;
  pred_fake <- netD (detach fake) ;;
  loss_D_fake <- call_criterionGAN pred_fake false ;;
  let loss_D := ((loss_D_real + loss_D_fake) * Fin (1 / 2))%X in
  backward loss_D ;;
  ret loss_D.

Definition backward_D_A : M unit :=
  f <- getT fake_B ;;
  fake <- call_fake_B_pool f ;;
  real <- getT real_B ;;
  l <- backward_D_basic call_netD_A real fake ;;
  setL loss_D_A l.

Definition backward_D_B : M unit :=
  f <- getT fake_A ;;
  fake <- call_fake_A_pool f ;;
  real <- getT real_A ;;
  l <- backward_D_basic call_netD_B real fake ;;
  setL loss_D_B l.

(** *** Generator loss (lines 180-237) *)

(** The identity block, lines 189-211. *)
Definition backward_G_identity : M unit :=
  o <- get_opt ;;
  let lambda_idt_t := lambda_identity_t o in
  let lambda_idt_s := lambda_identity_s o in
  let lambda_A := lambda_A o in
  let lambda_B := lambda_B o in
  if Qgt0 lambda_idt_t || Qgt0 lambda_idt_s then
    x <- getT real_B ;; r <- call_netG_A x ;; setT idt_A (fst r) ;;
    a <- getT idt_A ;; b <- getT real_B ;; l <- call_criterionIdt a b ;;
    setL loss_idt_A_t (l * weight lambda_B * weight lambda_idt_t)%X ;;
    x <- getT real_A ;; r <- call_netG_B x ;; setT idt_B (fst r) ;;
    a <- getT idt_B ;; b <- getT real_A ;; l <- call_criterionIdt a b ;;
    setL loss_idt_B_t (l * weight lambda_A * weight lambda_idt_t)%X ;;
    x <- getT real_A ;; r <- call_netG_A x ;; setT idt_A_s (fst r) ;;
    a <- getT idt_A_s ;; b <- getT real_A ;; l <- call_criterionIdt a b ;;
    setL loss_idt_A_s (l * weight lambda_A * weight lambda_idt_s)%X ;;
    x <- getT real_B ;; r <- call_netG_B x ;; setT idt_B_s (fst r) ;;
    a <- getT idt_B_s ;; b <- getT real_B ;; l <- call_criterionIdt a b ;;
    setL loss_idt_B_s (l * weight lambda_B * weight lambda_idt_s)%X ;;
    p <- getL loss_idt_A_t ;; q <- getL loss_idt_A_s ;;
    setL loss_idt_A (p + q)%X ;;
    p <- getL loss_idt_B_t ;; q <- getL loss_idt_B_s ;;
    setL loss_idt_B (p + q)%X
  else
    setL loss_idt_A (Fin 0) ;;
    setL loss_idt_B (Fin 0).

(** Norms of the difference maps and their normalization, lines 213-223. *)
Definition backward_G_normalize : M unit :=
  (* Computing the normalizations of the differences terms *)
  t <- getT real_diff_A ;; setV real_diff_A_ (sample_norms t) ;;
  t <- getT real_diff_B ;; setV real_diff_B_ (sample_norms t) ;;
  t <- getT diff_A ;; setV diff_A_ (sample_norms t) ;;
  t <- getT diff_B ;; setV diff_B_ (sample_norms t) ;;
  (* Normalizing the differences of real and generated images *)
  t <- getT real_diff_A ;; n <- getV real_diff_A_ ;;
  r <- lift RuntimeError (div_bcast t n) ;; setT real_diff_A_norm r ;;
  t <- getT real_diff_B ;; n <- getV real_diff_B_ ;;
  r <- lift RuntimeError (div_bcast t n) ;; setT real_diff_B_norm r ;;
  t <- getT diff_A ;; n <- getV diff_A_ ;;
  r <- lift RuntimeError (div_bcast t n) ;; setT diff_A_norm r ;;
  t <- getT diff_B ;; n <- getV diff_B_ ;;
  r <- lift RuntimeError (div_bcast t n) ;; setT diff_B_norm r.

(** Adversarial and cycle losses, lines 224-231. *)
Definition backward_G_gan_cycle : M unit :=
  o <- get_opt ;;
  (* GAN loss D_A(G_A(A)) *)
  x <- getT fake_B ;; p <- call_netD_A x ;;
  l <- call_criterionGAN p true ;; setL loss_G_A l ;;
  (* GAN loss D_B(G_B(B)) *)
  x <- getT fake_A ;; p <- call_netD_B x ;;
  l <- call_criterionGAN p true ;; setL loss_G_B l ;;
  (* Forward cycle loss *)
  a <- getT rec_A ;; b <- getT real_A ;; l <- call_criterionCycle a b ;;
  setL loss_cycle_A (l * weight (lambda_A o))%X ;;
  (* Backward cycle loss *)
  a <- getT rec_B ;; b <- getT real_B ;; l <- call_criterionCycle a b ;;
  setL loss_cycle_B (l * weight (lambda_B o))%X.

(** The normalized difference loss, lines 232-234. *)
Definition backward_G_diff : M unit :=
  o <- get_opt ;;
  a <- getT diff_A_norm ;; b <- getT real_diff_A_norm ;;
  g <- lift RuntimeError (direction_gap a b) ;;
  setL loss_diff_A (g * weight (lambda_A o) * weight (lambda_diff_s o))%X ;;
  a <- getT diff_B_norm ;; b <- getT real_diff_B_norm ;;
  g <- lift RuntimeError (direction_gap a b) ;;
  setL loss_diff_B (g * weight (lambda_B o) * weight (lambda_diff_t o))%X.

(** Combined loss and its gradients, lines 235-237. *)
Definition backward_G_total : M unit :=
  l1 <- getL loss_G_A ;; l2 <- getL loss_G_B ;;
  l3 <- getL loss_cycle_A ;; l4 <- getL loss_cycle_B ;;
  l5 <- getL loss_idt_A ;; l6 <- getL loss_idt_B ;;
  l7 <- getL loss_diff_A ;; l8 <- getL loss_diff_B ;;
  setL loss_G (l1 + l2 + l3 + l4 + l5 + l6 + l7 + l8)%X ;;
  l <- getL loss_G ;; backward l.

(** The method runs its blocks in the order of the source. *)
Definition backward_G : M unit :=
  backward_G_identity ;;
  backward_G_normalize ;;
  backward_G_gan_cycle ;;
  backward_G_diff ;;
  backward_G_total.

(** *** optimize_parameters (lines 239-253) *)

Definition optimize_parameters : M unit :=
  (* forward *)
  forward ;;
  (* G_A and G_B *)
  set_requires_grad [D_A; D_B] false ;;
  zero_grad optimizer_G ;;
  backward_G ;;
  step optimizer_G ;;
  (* D_A and D_B *)
  set_requires_grad [D_A; D_B] true ;;
  zero_grad optimizer_D ;;
  backward_D_A ;;
  backward_D_B ;;
  step optimizer_D.

(** *** Construction (lines 56-115)

    The calls are made in the order of the source: [BaseModel.__init__],
    the two generators, then for training the two discriminators, the two
    summaries on a (14, 256, 256) input, the channel check, the pools, the
    criteria and the optimizers.  Appending the optimizers to
    [self.optimizers] (lines 114-115) cannot raise once [BaseModel.__init__]
    has returned.  A new model has no image, norm or loss attribute yet. *)

Definition __init__ (o : Opt) : result state :=
  and_then (called CBaseModel (BaseModel_init E o)) (fun _ =>
  let visual_names_A :=
    ["real_A"; "fake_B"; "rec_A"]%string
    ++ (if isTrain o && Qgt0 (lambda_identity_t o)
        then ["idt_B"]%string else [])
    ++ (if isTrain o then ["diff_A"; "real_diff_A"]%string else []) in
  let visual_names_B :=
    ["real_B"; "fake_A"; "rec_B"]%string
    ++ (if isTrain o && Qgt0 (lambda_identity_t o)
        then ["idt_A"]%string else [])
    ++ (if isTrain o then ["diff_B"; "real_diff_B"]%string else []) in
  let model_names :=
    if isTrain o then ["G_A"; "G_B"; "D_A"; "D_B"]%string
    else ["G_A"; "G_B"]%string in
  and_then (called (CDefine G_A) (define_G E (input_nc o) (output_nc o)))
    (fun _ =>
  and_then (called (CDefine G_B) (define_G E (output_nc o) (input_nc o)))
    (fun _ =>
  and_then (when (isTrain o)
              (and_then (called (CDefine D_A) (define_D E (output_nc o)))
                 (fun _ => called (CDefine D_B) (define_D E (input_nc o)))))
    (fun _ =>
  and_then (when (isTrain o)
              (and_then (called (CSummary G_A)
                           (summary E G_A (input_nc o) (14, 256, 256)%nat))
                 (fun _ => called (CSummary D_A)
                             (summary E D_A (output_nc o)
                                (14, 256, 256)%nat))))
    (fun _ =>
  and_then (when (isTrain o)
              (and_then (when (Qgt0 (lambda_identity_t o))
                           (assert (input_nc o =? output_nc o)))
                 (fun _ =>
               and_then (called (CImagePool fake_A_pool)
                           (ImagePool E (pool_size o)))
                 (fun _ =>
               and_then (called (CImagePool fake_B_pool)
                           (ImagePool E (pool_size o)))
                 (fun _ =>
               and_then (called CGANLoss (GANLoss E (gan_mode o)))
                 (fun _ =>
               and_then (called CL1Loss (L1Loss E))
                 (fun _ =>
               and_then (called CL1Loss (L1Loss E))
                 (fun _ =>
               and_then (called (CAdam optimizer_G)
                           (Adam E optimizer_G (lr o) (beta1 o)))
                 (fun _ =>
               called (CAdam optimizer_D)
                 (Adam E optimizer_D (lr o) (beta1 o)))))))))))
    (fun _ =>
  Done (mkState o
          ["D_A"; "G_A"; "cycle_A"; "idt_A"; "diff_A";
           "D_B"; "G_B"; "cycle_B"; "idt_B"; "diff_B"]%string
          (visual_names_A ++ visual_names_B)
          model_names
          (fun _ => None) (fun _ => None) (fun _ => None) None
          (fun _ => true) (fun _ => 0%nat) []))))))).

End Model.


(* ================================================================== *)
(** ** Vocabulary of the properties *)

(** Real-valued sum of [f i] for [i < n]. *)
Fixpoint rsum (n : nat) (f : nat -> R) : R :=
  match n with
  | O => 0%R
  | S k => (rsum k f + f k)%R
  end.

(** The per-sample norm of one sample given by real entries: the mean over
    the spatial axes of the Euclidean norm over the channel axis. *)
Definition rnorm (C H W : nat) (r : nat -> nat -> nat -> R) : R :=
  (rsum H (fun h => rsum W (fun w => sqrt (rsum C (fun c => r c h w * r c h w))))
   / INR (H * W))%R.

Definition same_shape (a b : tensor) : Prop :=
  dim0 a = dim0 b /\ dim1 a = dim1 b /\ dim2 a = dim2 b /\ dim3 a = dim3 b.

(** Every sample of [gen] is a strictly positive multiple of the same sample
    of [ref], and the per-sample norms are strictly positive. *)
Definition parallel (gen ref : tensor) : Prop :=
  same_shape gen ref /\
  forall b, (b < dim0 ref)%nat ->
    exists (k m : R) (r : nat -> nat -> nat -> R),
      (0 < k)%R /\ (0 < m)%R /\
      item1 (sample_norms ref) b = Fin m /\
      forall c h w, (c < dim1 ref)%nat -> (h < dim2 ref)%nat ->
                    (w < dim3 ref)%nat ->
                    item ref b c h w = Fin (r c h w) /\
                    item gen b c h w = Fin (k * r c h w).

(** Some sample of [t] has zero per-sample norm. *)
Definition zero_norm (t : tensor) : Prop :=
  exists b, (b < dim0 t)%nat /\ item1 (sample_norms t) b = Fin 0.

(** The difference maps of one domain on which lines 220-223 and 233-234
    raise no shape error, each with at least one channel. *)
Definition normalizable (gen ref : tensor) : Prop :=
  normalized_gap gen ref <> None /\
  (0 < dim1 gen)%nat /\ (0 < dim1 ref)%nat.

(** The identity loss is enabled (the test of line 190). *)
Definition idt_enabled (o : Opt) : bool :=
  Qgt0 (lambda_identity_t o) || Qgt0 (lambda_identity_s o).

Definition is_step (e : event) : bool :=
  match e with EvStep _ => true | _ => false end.

Definition is_backward (e : event) : bool :=
  match e with EvBackward _ => true | _ => false end.

(** A forward evaluation of one of the two generators. *)
Definition is_generator_eval (e : event) : bool :=
  match e with
  | EvNet G_A | EvNet G_B => true
  | _ => false
  end.

Definition steps_of (tr : list event) : list event := filter is_step tr.
Definition backwards_of (tr : list event) : list event :=
  filter is_backward tr.
Definition generator_evals (tr : list event) : list event :=
  filter is_generator_eval tr.

(** The events of the parts of one training iteration. *)
Definition forward_events : list event :=
  [EvNet G_A; EvNet G_B; EvNet G_B; EvNet G_A].

Definition identity_events (o : Opt) : list event :=
  if idt_enabled o then [EvNet G_A; EvNet G_B; EvNet G_A; EvNet G_B] else [].

Definition backward_G_events (o : Opt) (loss : xreal) : list event :=
  identity_events o ++ [EvNet D_A; EvNet D_B; EvBackward loss].

Definition backward_D_events (p : pool) (n : net) (loss : xreal)
  : list event :=
  [EvPool p; EvNet n; EvNet n; EvBackward loss].

Definition phase_D_events (lDA lDB : xreal) : list event :=
  [EvSetRequiresGrad [D_A; D_B] true; EvZeroGrad optimizer_D]
  ++ backward_D_events fake_B_pool D_A lDA
  ++ backward_D_events fake_A_pool D_B lDB
  ++ [EvStep optimizer_D].

(** The order of one iteration in the source: the forward pass comes
    first. *)
Definition code_order (o : Opt) (lG lDA lDB : xreal) : list event :=
  forward_events
  ++ [EvSetRequiresGrad [D_A; D_B] false; EvZeroGrad optimizer_G]
  ++ backward_G_events o lG
  ++ [EvStep optimizer_G]
  ++ phase_D_events lDA lDB.

(** The order of one iteration as section 4.4 of the specification words
    it: the forward pass comes after the discriminators are frozen and the
    generator gradients are zeroed. *)
Definition spec_order (o : Opt) (lG lDA lDB : xreal) : list event :=
  [EvSetRequiresGrad [D_A; D_B] false; EvZeroGrad optimizer_G]
  ++ forward_events
  ++ backward_G_events o lG
  ++ [EvStep optimizer_G]
  ++ phase_D_events lDA lDB.

(** All-or-nothing update of the four networks, as section 5 of the
    specification words it. *)
Definition atomic (E : Env) (s : state) : Prop :=
  match optimize_parameters E s with
  | Ok _ s' => forall n, updates s' n = S (updates s n)
  | Raise _ s' => forall n, updates s' n = updates s n
  end.

(** The discriminator loss of section 4.2 of the specification:
    0.5 * (adversarial_loss(D(real), real_label)
           + adversarial_loss(D(detach(fake)), fake_label)). *)
Definition discriminator_loss (E : Env) (D : tensor -> option tensor)
  (real fake : tensor) (l : xreal) : Prop :=
  exists pred_real loss_real pred_fake loss_fake,
    D real = Some pred_real /\
    criterionGAN E pred_real true = Some loss_real /\
    D (detach fake) = Some pred_fake /\
    criterionGAN E pred_fake false = Some loss_fake /\
    l = (Fin (1 / 2) * (loss_real + loss_fake))%X.


(** No collaborator used by [backward_G] raises. *)
Definition never_raise (E : Env) : Prop :=
  (forall x, netG_A E x <> None) /\ (forall x, netG_B E x <> None) /\
  (forall x, netD_A E x <> None) /\ (forall x, netD_B E x <> None) /\
  (forall x b, criterionGAN E x b <> None) /\
  (forall x y, criterionCycle E x y <> None) /\
  (forall x y, criterionIdt E x y <> None).

Definition is_ok {A} (o : outcome A) : bool :=
  match o with Ok _ _ => true | Raise _ _ => false end.

(* ================================================================== *)
(** ** Concrete inputs *)

(** A batch of two one-channel 1x2 reference difference maps, and generated
    maps that are 1 and 2 times the reference. *)
Definition ref2 : tensor := of_lists 2 1 1 2 [[[[1; 1]]]; [[[1; 1]]]]%R.
Definition gen2 : tensor := of_lists 2 1 1 2 [[[[1; 1]]]; [[[2; 2]]]]%R.

(** A batch of two maps of width 3: the norms do not broadcast. *)
Definition ref23 : tensor :=
  of_lists 2 1 1 3 [[[[1; 1; 1]]]; [[[1; 1; 1]]]]%R.

(** One 1x1 image with one channel. *)
Definition pixel (x : R) : tensor := of_lists 1 1 1 1 [[[[x]]]].

(** [torchsummary.summary] runs its network on an input of the given size,
    and a convolutional network raises on an input whose channel count is
    not the one it was built for. *)
Definition strict_summary (n : net) (c : nat) (size : nat * nat * nat) :
  option unit :=
  if (c =? fst (fst size))%nat then Some tt else None.

(** Collaborators that do not raise in a training iteration: generators
    return their input as image and a constant difference map,
    discriminators and pools return their input, criteria return 1.  At
    construction [summary] is [strict_summary] and [Adam] rejects a negative
    learning rate, as torch does. *)
Definition quiet_env : Env :=
  mkEnv (fun x => Some (x, pixel 2)) (fun x => Some (x, pixel 3))
        (fun x => Some x) (fun x => Some x)
        (fun x => Some x) (fun x => Some x)
        (fun _ _ => Some (Fin 1)) (fun _ _ => Some (Fin 1))
        (fun _ _ => Some (Fin 1))
        (fun _ _ => Some tt) (fun _ => Some tt) strict_summary
        (fun _ => Some tt) (fun _ => Some tt) (fun _ => Some tt) (Some tt)
        (fun _ lr _ => if Qle_bool 0 lr then Some tt else None).

(** The same collaborators, except that the pool of fake B images raises
    when queried. *)
Definition pool_fails_env : Env :=
  mkEnv (netG_A quiet_env) (netG_B quiet_env)
        (netD_A quiet_env) (netD_B quiet_env)
        (fake_A_pool_query quiet_env) (fun _ => None)
        (criterionGAN quiet_env) (criterionCycle quiet_env)
        (criterionIdt quiet_env)
        (define_G quiet_env) (define_D quiet_env) (summary quiet_env)
        (BaseModel_init quiet_env) (ImagePool quiet_env) (GANLoss quiet_env)
        (L1Loss quiet_env) (Adam quiet_env).

(** The default weights of [modify_commandline_options], on remote-sensing
    training data. *)
Definition default_opt : Opt :=
  mkOpt true 10 10 (1 # 2) 0 1 1 14 14
        "remote_sensing_images" "train" "AtoB"
        50 "lsgan" (1 # 5000) (1 # 2).

(** Identity loss switched off. *)
Definition no_idt_opt : Opt :=
  mkOpt true 10 10 0 0 1 1 14 14
        "remote_sensing_images" "train" "AtoB"
        50 "lsgan" (1 # 5000) (1 # 2).

(** Only the source identity weight is set, with different channel counts. *)
Definition source_idt_opt : Opt :=
  mkOpt true 10 10 0 (1 # 2) 1 1 14 3
        "remote_sensing_images" "train" "AtoB"
        50 "lsgan" (1 # 5000) (1 # 2).

(** The target identity weight is set, with different channel counts. *)
Definition target_idt_opt : Opt :=
  mkOpt true 10 10 (1 # 2) 0 1 1 14 3
        "remote_sensing_images" "train" "AtoB"
        50 "lsgan" (1 # 5000) (1 # 2).

(** Unpaired images without reference difference maps. *)
Definition common_opt : Opt :=
  mkOpt true 10 10 (1 # 2) 0 1 1 14 14
        "common_images" "train" "AtoB"
        50 "lsgan" (1 # 5000) (1 # 2).

Definition demo_input : dict :=
  [("A", VTensor (pixel 1)); ("B", VTensor (pixel 1));
   ("A_ref", VTensor (pixel 1)); ("B_ref", VTensor (pixel 1));
   ("A_paths", VPaths ["a.npy"]); ("B_paths", VPaths ["b.npy"])]%string.

(** The model built from [o]; the constructor does not raise on the options
    used below. *)
Definition built (E : Env) (o : Opt) : state :=
  match __init__ E o with
  | Done s => s
  | Fail _ => mkState o [] [] [] (fun _ => None) (fun _ => None)
                (fun _ => None) None (fun _ => true) (fun _ => 0%nat) []
  end.

(** The model after construction and [set_input] on [demo_input]. *)
Definition loaded (E : Env) (o : Opt) : state :=
  state_of (set_input demo_input (built E o)).

(** ... and after [forward]. *)
Definition forwarded (E : Env) (o : Opt) : state :=
  state_of (forward E (loaded E o)).

(** One full iteration on [demo_input] with quiet collaborators and the
    default weights. *)
Definition demo_start : state := loaded quiet_env default_opt.
Definition demo_end : state :=
  state_of (optimize_parameters quiet_env demo_start).

(** The same model right after [forward], and after [backward_G]. *)
Definition demo_forwarded : state := forwarded quiet_env default_opt.
Definition demo_after_G : state :=
  state_of (backward_G quiet_env demo_forwarded).

(** With the identity loss switched off. *)
Definition demo_no_idt : state := forwarded quiet_env no_idt_opt.

(** A model for unpaired images, before and after [set_input]. *)
Definition demo_common_built : state := built quiet_env common_opt.
Definition demo_common : state := loaded quiet_env common_opt.

(** A batch of two: the generators return [gen2] as difference map, and the
    data loader provides [ref2] as reference difference map. *)
Definition batch2_env : Env :=
  mkEnv (fun x => Some (x, gen2)) (fun x => Some (x, gen2))
        (netD_A quiet_env) (netD_B quiet_env)
        (fake_A_pool_query quiet_env) (fake_B_pool_query quiet_env)
        (criterionGAN quiet_env) (criterionCycle quiet_env)
        (criterionIdt quiet_env)
        (define_G quiet_env) (define_D quiet_env) (summary quiet_env)
        (BaseModel_init quiet_env) (ImagePool quiet_env) (GANLoss quiet_env)
        (L1Loss quiet_env) (Adam quiet_env).

Definition batch2_input : dict :=
  [("A", VTensor ref2); ("B", VTensor ref2);
   ("A_ref", VTensor ref2); ("B_ref", VTensor ref2)]%string.

Definition batch2_forwarded : state :=
  state_of (forward batch2_env
              (state_of (set_input batch2_input
                           (built batch2_env default_opt)))).
Definition batch2_after_G : state :=
  state_of (backward_G batch2_env batch2_forwarded).

(** A reference difference map that is zero everywhere. *)
Definition zero_ref_input : dict :=
  [("A", VTensor (pixel 1)); ("B", VTensor (pixel 1));
   ("A_ref", VTensor (pixel 0)); ("B_ref", VTensor (pixel 1))]%string.

Definition zero_ref_forwarded : state :=
  state_of (forward quiet_env
              (state_of (set_input zero_ref_input
                           (built quiet_env default_opt)))).

(* ================================================================== *)
(** ** Vocabulary of the proofs *)

(** What a computation leaves unchanged, whether it returns or raises. *)
Definition preserves {X A : Type} (f : state -> X) (m : M A) : Prop :=
  forall s, f (state_of (m s)) = f s.

(** Everything except [optimizer.step] leaves the parameters and the list
    of optimizer steps alone. *)
Definition stepped (s : state) : (net -> nat) * list event :=
  (updates s, filter is_step (trace s)).

(** [backward_G] assigns none of the images the discriminator phase
    reads. *)
Definition phase_D_inputs (s : state)
  : option tensor * option tensor * option tensor * option tensor :=
  (tensors s real_A, tensors s real_B, tensors s fake_A, tensors s fake_B).

(** [m] returns from [s], with a result and a final state that satisfy
    [Q]. *)
Definition returns {A} (m : M A) (s : state) (Q : A -> state -> Prop)
  : Prop :=
  exists a s', m s = Ok a s' /\ Q a s'.

(** [m] run from [s] ends in an outcome that satisfies [Q]. *)
Definition ends {A} (m : M A) (s : state) (Q : outcome A -> Prop) : Prop :=
  Q (m s).

(** What follows the identity block in [backward_G]. *)
Definition after_identity (E : Env) : M unit :=
  backward_G_normalize ;; backward_G_gan_cycle E ;;
  backward_G_diff ;; backward_G_total.

(** The identity attributes are assigned in the identity block only. *)
Definition identity_part (s : state) :=
  (losses s loss_idt_A, losses s loss_idt_B,
   (tensors s idt_A, tensors s idt_B, tensors s idt_A_s, tensors s idt_B_s),
   generator_evals (trace s)).


(* ================================================================== *)
(** ** Command-line options (lines 22-54)

    [modify_commandline_options] receives an [argparse.ArgumentParser] and
    mutates it.  Of the parser, the model keeps what the method touches: the
    declared arguments with their option strings, destination and default,
    and the parser-level defaults.  The [type] of an argument (applied by
    argparse to command-line strings only) and its help text do not affect
    the defaults and are left out. *)

Inductive pyvalue : Type :=
| PyBool (b : bool)
| PyInt (z : Z)
| PyFloat (q : Q)
| PyStr (s : string).

(** One declared argument; [default] is [None] when the argument has no
    default. *)
Record argument : Type := mkArgument {
  option_strings : list string;
  dest : string;
  default : option pyvalue
}.

(** [parser_defaults] is the dict of parser-level defaults, latest entry
    first. *)
Record ArgumentParser : Type := mkParser {
  actions : list argument;
  parser_defaults : list (string * pyvalue)
}.

(** [dict.get] on an association list. *)
Fixpoint assoc {V : Type} (k : string) (l : list (string * V)) : option V :=
  match l with
  | [] => None
  | (k', v) :: l' => if String.eqb k k' then Some v else assoc k l'
  end.

(** [parser.set_defaults(d=v)]: records the parser-level default and
    replaces the default of every declared argument with that
    destination. *)
Definition set_defaults (d : string) (v : pyvalue) (p : ArgumentParser)
  : ArgumentParser :=
  mkParser
    (map (fun a => if String.eqb (dest a) d
                   then mkArgument (option_strings a) (dest a) (Some v)
                   else a)
         (actions p))
    ((d, v) :: parser_defaults p).

(** The result of declaring arguments: the parser, or the ArgumentError
    that argparse raises (with its default conflict handler) on an option
    string that is already declared, with the parser as it was left. *)
Inductive declared : Type :=
| Declared (p : ArgumentParser)
| ArgumentError (flag : string) (p : ArgumentParser).

Definition conflicts (flag : string) (p : ArgumentParser) : bool :=
  existsb (fun a => existsb (String.eqb flag) (option_strings a)) (actions p).

(** The destination of a long option: the option string without its two
    leading dashes (the names used here contain no inner dash). *)
Definition dest_of (flag : string) : string :=
  substring 2 (String.length flag - 2) flag.

(** [parser.add_argument(flag, default=v)]. *)
Definition add_argument (flag : string) (v : pyvalue) (p : ArgumentParser)
  : declared :=
  if conflicts flag p then ArgumentError flag p
  else Declared (mkParser
                   (actions p ++ [mkArgument [flag] (dest_of flag) (Some v)])
                   (parser_defaults p)).

Definition declare (r : declared) (k : ArgumentParser -> declared)
  : declared :=
  match r with
  | Declared p => k p
  | ArgumentError flag p => ArgumentError flag p
  end.

(** [parser.get_default(d)]: the default of the first declared argument
    with destination [d] that has one, else the parser-level default. *)
Definition get_default (p : ArgumentParser) (d : string) : option pyvalue :=
  match find (fun a => String.eqb (dest a) d
                       && match default a with
                          | Some _ => true
                          | None => false
                          end)
             (actions p) with
  | Some a => default a
  | None => assoc d (parser_defaults p)
  end.

(** The defaults 0 and 1 are written as integers in the source and stay
    integers, since argparse converts string defaults only. *)
Definition modify_commandline_options (parser : ArgumentParser)
  (is_train : bool) : declared :=
  let parser := set_defaults "no_dropout" (PyBool true) parser in
  if is_train then
    declare (add_argument "--lambda_A" (PyFloat 10) parser) (fun parser =>
    declare (add_argument "--lambda_B" (PyFloat 10) parser) (fun parser =>
    declare (add_argument "--lambda_identity_t" (PyFloat (1 # 2)) parser)
      (fun parser =>
    declare (add_argument "--lambda_identity_s" (PyInt 0) parser)
      (fun parser =>
    declare (add_argument "--lambda_diff_s" (PyInt 1) parser) (fun parser =>
    add_argument "--lambda_diff_t" (PyInt 1) parser)))))
  else Declared parser.

(** The six weights declared for training. *)
Definition weight_flags : list string :=
  ["--lambda_A"; "--lambda_B"; "--lambda_identity_t"; "--lambda_identity_s";
   "--lambda_diff_s"; "--lambda_diff_t"]%string.

Definition weight_names : list string := map dest_of weight_flags.

(** None of the six weights is declared yet, under its option string or as
    a destination. *)
Definition undeclared (p : ArgumentParser) : Prop :=
  (forall flag, In flag weight_flags -> conflicts flag p = false) /\
  (forall a, In a (actions p) -> ~ In (dest a) weight_names).

(** A parser like the one of the base options: it declares the switch
    --no_dropout, off by default, and the number of input channels. *)
Definition base_parser : ArgumentParser :=
  mkParser [mkArgument ["--input_nc"]%string "input_nc" (Some (PyInt 14));
            mkArgument ["--no_dropout"]%string "no_dropout"
              (Some (PyBool false))]
           [].

(* ================================================================== *)
(** ** Vocabulary of the further properties *)

(** The attributes of [self] by name, as [getattr] finds them. *)
Definition image_attrs : list (string * tattr) :=
  [("real_A", real_A); ("real_B", real_B);
   ("real_diff_A", real_diff_A); ("real_diff_B", real_diff_B);
   ("fake_B", fake_B); ("diff_A", diff_A); ("rec_A", rec_A);
   ("fake_A", fake_A); ("diff_B", diff_B); ("rec_B", rec_B);
   ("idt_A", idt_A); ("idt_B", idt_B);
   ("idt_A_s", idt_A_s); ("idt_B_s", idt_B_s);
   ("real_diff_A_norm", real_diff_A_norm);
   ("real_diff_B_norm", real_diff_B_norm);
   ("diff_A_norm", diff_A_norm); ("diff_B_norm", diff_B_norm)]%string.

Definition loss_attrs : list (string * lattr) :=
  [("loss_idt_A_t", loss_idt_A_t); ("loss_idt_B_t", loss_idt_B_t);
   ("loss_idt_A_s", loss_idt_A_s); ("loss_idt_B_s", loss_idt_B_s);
   ("loss_idt_A", loss_idt_A); ("loss_idt_B", loss_idt_B);
   ("loss_G_A", loss_G_A); ("loss_G_B", loss_G_B);
   ("loss_cycle_A", loss_cycle_A); ("loss_cycle_B", loss_cycle_B);
   ("loss_diff_A", loss_diff_A); ("loss_diff_B", loss_diff_B);
   ("loss_G", loss_G); ("loss_D_A", loss_D_A); ("loss_D_B", loss_D_B)]%string.

(** [getattr(self, name)] finds an image: what the display of the entries
    of [visual_names] needs (comment of line 66). *)
Definition visual_assigned (s : state) (name : string) : bool :=
  match assoc name image_attrs with
  | Some a => match tensors s a with Some _ => true | None => false end
  | None => false
  end.

(** [getattr(self, 'loss_' + name)] finds a loss: what the report of the
    entries of [loss_names] needs (comment of line 64). *)
Definition loss_assigned (s : state) (name : string) : bool :=
  match assoc ("loss_" ++ name)%string loss_attrs with
  | Some a => match losses s a with Some _ => true | None => false end
  | None => false
  end.

(** The model object with other options. *)
Definition with_opt (o : Opt) (s : state) : state :=
  mkState o (loss_names s) (visual_names s) (model_names s) (tensors s)
    (norms s) (losses s) (image_paths s) (requires_grad s) (updates s)
    (trace s).

Definition with_direction (d : string) (o : Opt) : Opt :=
  mkOpt (isTrain o) (lambda_A o) (lambda_B o) (lambda_identity_t o)
    (lambda_identity_s o) (lambda_diff_s o) (lambda_diff_t o)
    (input_nc o) (output_nc o) (dataset_type o) (phase o) d
    (pool_size o) (gan_mode o) (lr o) (beta1 o).

(** The input dict with the two domains exchanged. *)
Definition swap_key (k : string) : string :=
  if String.eqb k "A" then "B"
  else if String.eqb k "B" then "A"
  else if String.eqb k "A_ref" then "B_ref"
  else if String.eqb k "B_ref" then "A_ref"
  else if String.eqb k "A_paths" then "B_paths"
  else if String.eqb k "B_paths" then "A_paths"
  else k.

Definition swap_domains (d : dict) : dict :=
  map (fun kv => (swap_key (fst kv), snd kv)) d.

(** The keys under which [set_input] looks for domain A and domain B. *)
Definition key_A (o : Opt) : string :=
  if String.eqb (direction o) "AtoB" then "A" else "B".
Definition key_B (o : Opt) : string :=
  if String.eqb (direction o) "AtoB" then "B" else "A".
Definition key_A_ref (o : Opt) : string :=
  if String.eqb (direction o) "AtoB" then "A_ref" else "B_ref".

(** What [set_input] leaves alone: everything computed from the inputs. *)
Definition computed (s : state) :=
  (tensors s fake_B, tensors s diff_A, tensors s rec_A,
   (tensors s fake_A, tensors s diff_B, tensors s rec_B),
   (norms s, losses s),
   (requires_grad s, updates s, trace s),
   (opt s, loss_names s, visual_names s, model_names s)).

(** The sizes for which the division of lines 220-223 broadcasts: the
    per-sample norms, one per sample, are laid along the width. *)
Definition fits (t : tensor) : bool :=
  (dim3 t =? dim0 t)%nat || (dim3 t =? 1)%nat || (dim0 t =? 1)%nat.

(** Every entry of [t] is finite, and given by [r]. *)
Definition entries (t : tensor) (r : nat -> nat -> nat -> nat -> R) : Prop :=
  forall b c h w, (b < dim0 t)%nat -> (c < dim1 t)%nat ->
                  (h < dim2 t)%nat -> (w < dim3 t)%nat ->
                  item t b c h w = Fin (r b c h w).

(** Every sample of [t] has a finite and strictly positive per-sample
    norm. *)
Definition positive_norm (t : tensor) : Prop :=
  forall b, (b < dim0 t)%nat ->
    exists n, item1 (sample_norms t) b = Fin n /\ (0 < n)%R.

(** [k * t]. *)
Definition scale (k : R) (t : tensor) : tensor :=
  mkTensor (dim0 t) (dim1 t) (dim2 t) (dim3 t)
    (fun b c h w => (Fin k * item t b c h w)%X) (grad_fn t).

(** The attributes assigned so far stay assigned, and the names reported by
    the model stay as they are. *)
Definition extends (s s' : state) : Prop :=
  (forall a, tensors s a <> None -> tensors s' a <> None) /\
  (forall a, losses s a <> None -> losses s' a <> None) /\
  opt s' = opt s /\ visual_names s' = visual_names s /\
  loss_names s' = loss_names s.

(** A computation that only adds attributes. *)
Definition grows {A : Type} (m : M A) : Prop :=
  forall s, extends s (state_of (m s)).

(** No collaborator of a training iteration raises. *)
Definition all_return (E : Env) : Prop :=
  never_raise E /\
  (forall x, fake_A_pool_query E x <> None) /\
  (forall x, fake_B_pool_query E x <> None).

(** Options for a model used for testing. *)
Definition test_opt : Opt :=
  mkOpt false 10 10 (1 # 2) 0 1 1 14 3
        "common_images" "test" "AtoB"
        50 "lsgan" (1 # 5000) (1 # 2).

(** Options whose dataset type is misspelt. *)
Definition typo_opt : Opt :=
  mkOpt true 10 10 (1 # 2) 0 1 1 14 14
        "remote_sensing" "train" "AtoB"
        50 "lsgan" (1 # 5000) (1 # 2).

(** Training data read in the direction B to A. *)
Definition reverse_opt : Opt :=
  mkOpt true 10 10 (1 # 2) 0 1 1 14 14
        "remote_sensing_images" "train" "BtoA"
        50 "lsgan" (1 # 5000) (1 # 2).

(** A batch without reference difference maps. *)
Definition unpaired_input : dict :=
  [("A", VTensor (pixel 1)); ("B", VTensor (pixel 2));
   ("A_paths", VPaths ["a.npy"]); ("B_paths", VPaths ["b.npy"])]%string.

(** A batch of two maps of width 3, as reference and as generated
    difference maps: the per-sample norms do not broadcast. *)
Definition wide_env : Env :=
  mkEnv (fun x => Some (x, ref23)) (fun x => Some (x, ref23))
        (netD_A quiet_env) (netD_B quiet_env)
        (fake_A_pool_query quiet_env) (fake_B_pool_query quiet_env)
        (criterionGAN quiet_env) (criterionCycle quiet_env)
        (criterionIdt quiet_env)
        (define_G quiet_env) (define_D quiet_env) (summary quiet_env)
        (BaseModel_init quiet_env) (ImagePool quiet_env) (GANLoss quiet_env)
        (L1Loss quiet_env) (Adam quiet_env).

Definition wide_input : dict :=
  [("A", VTensor ref23); ("B", VTensor ref23);
   ("A_ref", VTensor ref23); ("B_ref", VTensor ref23)]%string.

Definition wide_forwarded : state :=
  state_of (forward wide_env
              (state_of (set_input wide_input (built wide_env default_opt)))).
(* ================================================================== *)
(** * Properties *)

(** ** Scalar arithmetic *)

Lemma xdiv_fin (x y : R) : y <> 0%R -> xdiv (Fin x) (Fin y) = Fin (x / y).
Proof.
  intros Hy. unfold xdiv. destruct (Req_dec_T y 0); [contradiction | reflexivity].
Qed.

Lemma xdiv_zero (a : xreal) : xdiv a (Fin 0) = NonFinite.
Proof.
  destruct a as [x|]; cbn; [|reflexivity].
  destruct (Req_dec_T 0 0); [reflexivity | congruence].
Qed.

Lemma xsqrt_fin (x : R) : (0 <= x)%R -> xsqrt (Fin x) = Fin (sqrt x).
Proof.
  intros Hx. unfold xsqrt. destruct (Rlt_dec x 0); [lra | reflexivity].
Qed.

Lemma xsum_cons (a : xreal) (l : list xreal) :
  xsum (a :: l) = xadd a (xsum l).
Proof. reflexivity. Qed.

Lemma xsum_app (l1 l2 : list xreal) (x y : R) :
  xsum l1 = Fin x -> xsum l2 = Fin y -> xsum (l1 ++ l2) = Fin (x + y).
Proof.
  revert x. induction l1 as [|a l1 IH]; intros x H1 H2.
  - change (xsum []) with (Fin 0) in H1. injection H1 as <-.
    change ([] ++ l2) with l2. rewrite H2. f_equal. lra.
  - change ((a :: l1) ++ l2) with (a :: (l1 ++ l2)).
    rewrite xsum_cons in *.
    destruct a as [r|]; [|discriminate].
    destruct (xsum l1) as [z|] eqn:Hz; [|discriminate].
    injection H1 as <-.
    rewrite (IH z eq_refl H2). cbn. f_equal. lra.
Qed.

Lemma xsum_n_fin (n : nat) (f : nat -> xreal) (g : nat -> R) :
  (forall i, (i < n)%nat -> f i = Fin (g i)) ->
  xsum_n n f = Fin (rsum n g).
Proof.
  unfold xsum_n. induction n as [|n IH]; intros H; [reflexivity|].
  rewrite seq_S, map_app. cbn [rsum plus map].
  apply xsum_app.
  - apply IH. intros i Hi. apply H. lia.
  - cbn. rewrite H by lia. cbn. f_equal. lra.
Qed.

Lemma rsum_ext (n : nat) (f g : nat -> R) :
  (forall i, (i < n)%nat -> f i = g i) -> rsum n f = rsum n g.
Proof.
  induction n as [|n IH]; intros H; cbn; [reflexivity|].
  rewrite IH, H by (intros; try apply H; lia). reflexivity.
Qed.

Lemma rsum_scal (n : nat) (k : R) (f : nat -> R) :
  rsum n (fun i => k * f i)%R = (k * rsum n f)%R.
Proof. induction n as [|n IH]; cbn; [lra | rewrite IH; lra]. Qed.

Lemma rsum_zero (n : nat) : rsum n (fun _ => 0%R) = 0%R.
Proof. induction n as [|n IH]; cbn; [reflexivity | rewrite IH; lra]. Qed.

Lemma rsum_nonneg (n : nat) (f : nat -> R) :
  (forall i, (i < n)%nat -> 0 <= f i)%R -> (0 <= rsum n f)%R.
Proof.
  induction n as [|n IH]; intros H; cbn; [lra|].
  assert (0 <= rsum n f)%R by (apply IH; intros; apply H; lia).
  assert (0 <= f n)%R by (apply H; lia). lra.
Qed.

(** A non-finite summand makes the whole sum non-finite. *)
Lemma xsum_nonfinite (l : list xreal) : In NonFinite l -> xsum l = NonFinite.
Proof.
  induction l as [|a l IH]; intros H; [destruct H|].
  rewrite xsum_cons. destruct H as [-> | H]; [reflexivity|].
  rewrite (IH H). destruct a; reflexivity.
Qed.

Lemma xsum_n_nonfinite (n : nat) (f : nat -> xreal) (i : nat) :
  (i < n)%nat -> f i = NonFinite -> xsum_n n f = NonFinite.
Proof.
  intros Hi Hf. apply xsum_nonfinite. rewrite <- Hf.
  apply in_map, in_seq. lia.
Qed.

Lemma xadd_nonfinite_r (a : xreal) : xadd a NonFinite = NonFinite.
Proof. destruct a; reflexivity. Qed.


(* ================================================================== *)
(** ** Frame reasoning *)

Lemma preserves_bind {X A B} (f : state -> X) (m : M A) (k : A -> M B) :
  preserves f m -> (forall a, preserves f (k a)) -> preserves f (bind m k).
Proof.
  intros Hm Hk s. unfold bind. specialize (Hm s).
  destruct (m s) as [a s1|e s1]; cbn in *.
  - rewrite Hk. assumption.
  - assumption.
Qed.

Lemma preserves_if {X A} (f : state -> X) (c : bool) (m1 m2 : M A) :
  preserves f m1 -> preserves f m2 -> preserves f (if c then m1 else m2).
Proof. destruct c; auto. Qed.

Lemma preserves_lift {X A} (f : state -> X) (e : exn) (r : option A) :
  preserves f (lift e r).
Proof. intros s. destruct r; reflexivity. Qed.

Lemma preserves_getT {X} (f : state -> X) (a : tattr) : preserves f (getT a).
Proof. intros s. unfold getT. destruct (tensors s a); reflexivity. Qed.

Lemma preserves_getV {X} (f : state -> X) (a : vattr) : preserves f (getV a).
Proof. intros s. unfold getV. destruct (norms s a); reflexivity. Qed.

Lemma preserves_getL {X} (f : state -> X) (a : lattr) : preserves f (getL a).
Proof. intros s. unfold getL. destruct (losses s a); reflexivity. Qed.

Lemma preserves_get_opt {X} (f : state -> X) : preserves f get_opt.
Proof. intros s. reflexivity. Qed.

Lemma preserves_ret {X A} (f : state -> X) (a : A) : preserves f (ret a).
Proof. intros s. reflexivity. Qed.

Lemma preserves_raise {X A} (f : state -> X) (e : exn) :
  preserves f (@raise A e).
Proof. intros s. reflexivity. Qed.

Lemma preserves_pair {X Y A} (f : state -> X) (g : state -> Y) (m : M A) :
  preserves f m -> preserves g m -> preserves (fun s => (f s, g s)) m.
Proof. intros Hf Hg s. rewrite Hf, Hg. reflexivity. Qed.

(** Logging an event that a filter drops leaves the filtered trace as it
    is. *)
Lemma preserves_filter_emit (P : event -> bool) (e : event) :
  P e = false -> preserves (fun s => filter P (trace s)) (emit e).
Proof.
  intros H s. cbn. rewrite filter_app. cbn. rewrite H. apply app_nil_r.
Qed.

Lemma preserves_filter_set_requires_grad (P : event -> bool) ns b :
  P (EvSetRequiresGrad ns b) = false ->
  preserves (fun s => filter P (trace s)) (set_requires_grad ns b).
Proof.
  intros H s. cbn. rewrite filter_app. cbn. rewrite H. apply app_nil_r.
Qed.

Ltac pres_prim :=
  first
    [ apply preserves_lift | apply preserves_getT | apply preserves_getV
    | apply preserves_getL | apply preserves_get_opt | apply preserves_ret
    | apply preserves_raise
    | apply preserves_filter_emit; reflexivity
    | apply preserves_filter_set_requires_grad; reflexivity
    | solve [ let s := fresh "s" in intros s; reflexivity ] ].

Ltac pres :=
  cbv zeta;
  repeat first
    [ apply preserves_bind; [ | intro ]
    | apply preserves_if
    | match goal with
      | |- preserves _ (match ?x with _ => _ end) => destruct x
      end
    | pres_prim ].

Ltac unfold_calls :=
  unfold call_netG_A, call_netG_B, call_netD_A, call_netD_B, call_net,
    call_fake_A_pool, call_fake_B_pool, call_criterionIdt,
    call_criterionGAN, call_criterionCycle, backward, zero_grad in *.

Ltac unfold_backward_G :=
  unfold backward_G, backward_G_identity, backward_G_normalize,
    backward_G_gan_cycle, backward_G_diff, backward_G_total in *.

(** Case analysis on the first computation of a sequence. *)
Lemma bind_elim {A B} (m : M A) (k : A -> M B) (s : state)
  (P : outcome B -> Prop) :
  (forall e s1, m s = Raise e s1 -> P (Raise e s1)) ->
  (forall a s1, m s = Ok a s1 -> P (k a s1)) ->
  P (bind m k s).
Proof.
  intros Hr Ho. unfold bind. destruct (m s) as [a s1|e s1]; auto.
Qed.

Ltac bind_step H :=
  match goal with
  | |- context [bind ?m ?k ?s] =>
      pattern (bind m k s); apply bind_elim;
      [ intros ?e ?s1 H | intros ?a ?s1 H ]; cbv beta
  end.

Lemma step_eq (o : optimizer) (s : state) :
  step o s
  = Ok tt (with_updates
             (fun n => if mem_net n (params_of o) then S (updates s n)
                       else updates s n)
             (with_trace (trace s ++ [EvStep o]) s)).
Proof. reflexivity. Qed.

Section Frames.

Variable E : Env.

Lemma forward_no_step : preserves stepped (forward E).
Proof.
  apply preserves_pair; unfold forward; unfold_calls; pres.
Qed.

Lemma backward_G_no_step : preserves stepped (backward_G E).
Proof.
  apply preserves_pair; unfold_backward_G; unfold_calls; pres.
Qed.

Lemma backward_D_A_no_step : preserves stepped (backward_D_A E).
Proof.
  apply preserves_pair; unfold backward_D_A, backward_D_basic; unfold_calls;
    pres.
Qed.

Lemma backward_D_B_no_step : preserves stepped (backward_D_B E).
Proof.
  apply preserves_pair; unfold backward_D_B, backward_D_basic; unfold_calls;
    pres.
Qed.

Lemma set_requires_grad_no_step ns b :
  preserves stepped (set_requires_grad ns b).
Proof. apply preserves_pair; pres. Qed.

Lemma zero_grad_no_step o : preserves stepped (zero_grad o).
Proof. apply preserves_pair; unfold zero_grad; pres. Qed.

End Frames.

(* ================================================================== *)
(** ** Inversion of computations that return *)

Lemma bind_Ok {A B} (m : M A) (k : A -> M B) (s s' : state) (b : B) :
  bind m k s = Ok b s' -> exists a s1, m s = Ok a s1 /\ k a s1 = Ok b s'.
Proof.
  unfold bind. destruct (m s) as [a s1|e s1]; [|discriminate].
  intros H. exists a, s1. auto.
Qed.

Lemma getT_Ok (a : tattr) (s s' : state) (t : tensor) :
  getT a s = Ok t s' -> s' = s /\ tensors s a = Some t.
Proof.
  unfold getT. destruct (tensors s a); [|discriminate]. intros H.
  injection H as -> ->. auto.
Qed.

Lemma getV_Ok (a : vattr) (s s' : state) (t : tensor1) :
  getV a s = Ok t s' -> s' = s /\ norms s a = Some t.
Proof.
  unfold getV. destruct (norms s a); [|discriminate]. intros H.
  injection H as -> ->. auto.
Qed.

Lemma getL_Ok (a : lattr) (s s' : state) (l : xreal) :
  getL a s = Ok l s' -> s' = s /\ losses s a = Some l.
Proof.
  unfold getL. destruct (losses s a); [|discriminate]. intros H.
  injection H as -> ->. auto.
Qed.

Lemma lift_Ok {A} (e : exn) (r : option A) (s s' : state) (a : A) :
  lift e r s = Ok a s' -> s' = s /\ r = Some a.
Proof.
  destruct r; cbn; [|discriminate]. intros H. injection H as -> ->. auto.
Qed.

Lemma get_opt_Ok (s s' : state) (o : Opt) :
  get_opt s = Ok o s' -> s' = s /\ o = opt s.
Proof. unfold get_opt. intros H. injection H as -> ->. auto. Qed.

Lemma setT_Ok (a : tattr) (t : tensor) (s s' : state) (u : unit) :
  setT a t s = Ok u s' ->
  s' = with_tensors (upd tattr_eq_dec (tensors s) a (Some t)) s.
Proof. unfold setT. intros H. injection H as _ ->. reflexivity. Qed.

Lemma setV_Ok (a : vattr) (t : tensor1) (s s' : state) (u : unit) :
  setV a t s = Ok u s' ->
  s' = with_norms (upd vattr_eq_dec (norms s) a (Some t)) s.
Proof. unfold setV. intros H. injection H as _ ->. reflexivity. Qed.

Lemma setL_Ok (a : lattr) (l : xreal) (s s' : state) (u : unit) :
  setL a l s = Ok u s' ->
  s' = with_losses (upd lattr_eq_dec (losses s) a (Some l)) s.
Proof. unfold setL. intros H. injection H as _ ->. reflexivity. Qed.

Lemma emit_Ok (e : event) (s s' : state) (u : unit) :
  emit e s = Ok u s' -> s' = with_trace (trace s ++ [e]) s.
Proof. unfold emit. intros H. injection H as _ ->. reflexivity. Qed.

Lemma ret_Ok {A} (a b : A) (s s' : state) :
  ret a s = Ok b s' -> s' = s /\ b = a.
Proof. unfold ret. intros H. injection H as -> ->. auto. Qed.

Lemma step_Ok (o : optimizer) (s s' : state) (u : unit) :
  step o s = Ok u s' ->
  s' = with_updates
         (fun n => if mem_net n (params_of o) then S (updates s n)
                   else updates s n)
         (with_trace (trace s ++ [EvStep o]) s).
Proof. rewrite step_eq. intros H. injection H as _ ->. reflexivity. Qed.

Lemma set_requires_grad_Ok ns b (s s' : state) (u : unit) :
  set_requires_grad ns b s = Ok u s' ->
  s' = with_requires_grad
         (fun n => if mem_net n ns then b else requires_grad s n)
         (with_trace (trace s ++ [EvSetRequiresGrad ns b]) s).
Proof. cbn. intros H. injection H as _ ->. reflexivity. Qed.

(** Projections of the attribute stores after an update compute. *)
Ltac store :=
  cbn [tensors norms losses trace updates requires_grad opt image_paths
       loss_names visual_names model_names
       with_tensors with_norms with_losses with_trace with_updates
       with_requires_grad with_image_paths upd
       tattr_eq_dec vattr_eq_dec lattr_eq_dec
       tattr_rec tattr_rect vattr_rec vattr_rect lattr_rec lattr_rect] in *.

Ltac inv_ok :=
  repeat match goal with
  | H : bind _ _ _ = Ok _ _ |- _ =>
      let a := fresh "a" in let s1 := fresh "s" in let H1 := fresh "H" in
      apply bind_Ok in H; destruct H as (a & s1 & H1 & H); cbv beta in H
  | H : getT _ _ = Ok _ _ |- _ =>
      let E := fresh "E" in apply getT_Ok in H; destruct H as [-> E]
  | H : getV _ _ = Ok _ _ |- _ =>
      let E := fresh "E" in apply getV_Ok in H; destruct H as [-> E]
  | H : getL _ _ = Ok _ _ |- _ =>
      let E := fresh "E" in apply getL_Ok in H; destruct H as [-> E]
  | H : get_opt _ = Ok _ _ |- _ =>
      apply get_opt_Ok in H; destruct H as [-> ->]
  | H : lift _ _ _ = Ok _ _ |- _ =>
      let E := fresh "E" in apply lift_Ok in H; destruct H as [-> E]
  | H : ret _ _ = Ok _ _ |- _ =>
      apply ret_Ok in H; destruct H as [-> ->]
  | H : setT _ _ _ = Ok _ _ |- _ => apply setT_Ok in H; subst; store
  | H : setV _ _ _ = Ok _ _ |- _ => apply setV_Ok in H; subst; store
  | H : setL _ _ _ = Ok _ _ |- _ => apply setL_Ok in H; subst; store
  | H : emit _ _ = Ok _ _ |- _ => apply emit_Ok in H; subst; store
  | H : step _ _ = Ok _ _ |- _ => apply step_Ok in H; subst; store
  | H : set_requires_grad _ _ _ = Ok _ _ |- _ =>
      apply set_requires_grad_Ok in H; subst; store
  | H : (if ?c then _ else _) _ = Ok _ _ |- _ =>
      let C := fresh "C" in destruct c eqn:C
  | H : Ok _ _ = Ok _ _ |- _ => injection H as ? ?; subst
  | H : Some _ = Some _ |- _ => injection H as H; try subst
  end.

Ltac flatten_trace := rewrite <- ?app_assoc; cbn [app].

Section Returns.

Variable E : Env.

Lemma forward_Ok (s s' : state) (u : unit) :
  forward E s = Ok u s' ->
  trace s' = trace s ++ forward_events /\ opt s' = opt s /\
  losses s' = losses s.
Proof.
  unfold forward. unfold_calls. intros H. inv_ok. store.
  flatten_trace. auto.
Qed.

Lemma backward_G_Ok (s s' : state) (u : unit) :
  backward_G E s = Ok u s' ->
  exists lG,
    trace s' = trace s ++ backward_G_events (opt s) lG /\
    opt s' = opt s /\ losses s' loss_G = Some lG.
Proof.
  unfold_backward_G. unfold_calls. intros H. cbv zeta in H.
  unfold backward_G_events, identity_events, idt_enabled.
  inv_ok; store; eexists; (split; [flatten_trace; reflexivity|]);
    split; reflexivity.
Qed.

Lemma xmul_comm (a b : xreal) : xmul a b = xmul b a.
Proof. destruct a, b; cbn; try reflexivity. f_equal. ring. Qed.

Lemma backward_D_basic_Ok (n : net) (D : tensor -> option tensor)
  (real fake : tensor) (s s' : state) (l : xreal) :
  backward_D_basic E (call_net n D) real fake s = Ok l s' ->
  discriminator_loss E D real fake l /\
  trace s' = trace s ++ [EvNet n; EvNet n; EvBackward l] /\
  opt s' = opt s /\ tensors s' = tensors s /\ losses s' = losses s.
Proof.
  unfold backward_D_basic. unfold_calls. intros H. inv_ok. store.
  flatten_trace. repeat split.
  do 4 eexists. repeat split; try eassumption. apply xmul_comm.
Qed.

Lemma backward_D_A_Ok (s s' : state) (u : unit) :
  backward_D_A E s = Ok u s' ->
  exists f q r l,
    tensors s fake_B = Some f /\ fake_B_pool_query E f = Some q /\
    tensors s real_B = Some r /\
    discriminator_loss E (netD_A E) r q l /\
    trace s' = trace s ++ backward_D_events fake_B_pool D_A l /\
    opt s' = opt s /\ tensors s' = tensors s /\
    losses s' loss_D_A = Some l /\
    losses s' loss_G = losses s loss_G.
Proof.
  unfold backward_D_A, call_netD_A, call_fake_B_pool. intros H.
  apply bind_Ok in H. destruct H as (f & s1 & H1 & H).
  apply bind_Ok in H. destruct H as (q & s2 & H2 & H).
  apply bind_Ok in H. destruct H as (r & s3 & H3 & H).
  apply bind_Ok in H. destruct H as (l & s4 & H4 & H).
  apply backward_D_basic_Ok in H4.
  destruct H4 as (DL & T4 & O4 & X4 & L4).
  inv_ok. store. exists f, q, r, l.
  rewrite T4, O4, X4, L4. store. flatten_trace. repeat split; assumption.
Qed.

Lemma backward_D_B_Ok (s s' : state) (u : unit) :
  backward_D_B E s = Ok u s' ->
  exists f q r l,
    tensors s fake_A = Some f /\ fake_A_pool_query E f = Some q /\
    tensors s real_A = Some r /\
    discriminator_loss E (netD_B E) r q l /\
    trace s' = trace s ++ backward_D_events fake_A_pool D_B l /\
    opt s' = opt s /\ tensors s' = tensors s /\
    losses s' loss_D_B = Some l /\
    losses s' loss_G = losses s loss_G /\
    losses s' loss_D_A = losses s loss_D_A.
Proof.
  unfold backward_D_B, call_netD_B, call_fake_A_pool. intros H.
  apply bind_Ok in H. destruct H as (f & s1 & H1 & H).
  apply bind_Ok in H. destruct H as (q & s2 & H2 & H).
  apply bind_Ok in H. destruct H as (r & s3 & H3 & H).
  apply bind_Ok in H. destruct H as (l & s4 & H4 & H).
  apply backward_D_basic_Ok in H4.
  destruct H4 as (DL & T4 & O4 & X4 & L4).
  inv_ok. store. exists f, q, r, l.
  rewrite T4, O4, X4, L4. store. flatten_trace. repeat split; assumption.
Qed.

Lemma backward_G_keeps_inputs : preserves phase_D_inputs (backward_G E).
Proof.
  unfold phase_D_inputs.
  repeat apply preserves_pair; unfold_backward_G; unfold_calls; pres.
Qed.

Lemma optimize_parameters_Ok (s s' : state) (u : unit) :
  optimize_parameters E s = Ok u s' ->
  exists lG lDA lDB rA rB fA fB qA qB,
    trace s' = trace s ++ code_order (opt s) lG lDA lDB /\
    losses s' loss_G = Some lG /\
    losses s' loss_D_A = Some lDA /\
    losses s' loss_D_B = Some lDB /\
    tensors s' real_A = Some rA /\ tensors s' real_B = Some rB /\
    tensors s' fake_A = Some fA /\ tensors s' fake_B = Some fB /\
    fake_A_pool_query E fA = Some qA /\ fake_B_pool_query E fB = Some qB /\
    discriminator_loss E (netD_A E) rB qB lDA /\
    discriminator_loss E (netD_B E) rA qA lDB.
Proof.
  unfold optimize_parameters, zero_grad. intros H.
  apply bind_Ok in H. destruct H as (? & s1 & H1 & H).
  apply bind_Ok in H. destruct H as (? & s2 & H2 & H).
  apply bind_Ok in H. destruct H as (? & s3 & H3 & H).
  apply bind_Ok in H. destruct H as (? & s4 & H4 & H).
  apply bind_Ok in H. destruct H as (? & s5 & H5 & H).
  apply bind_Ok in H. destruct H as (? & s6 & H6 & H).
  apply bind_Ok in H. destruct H as (? & s7 & H7 & H).
  apply bind_Ok in H. destruct H as (? & s8 & H8 & H).
  apply bind_Ok in H. destruct H as (? & s9 & H9 & H).
  apply forward_Ok in H1. destruct H1 as (T1 & O1 & L1).
  apply set_requires_grad_Ok in H2. apply emit_Ok in H3.
  pose proof (backward_G_keeps_inputs s3) as K4. rewrite H4 in K4.
  cbn [state_of] in K4. unfold phase_D_inputs in K4.
  injection K4 as KrA KrB KfA KfB.
  apply backward_G_Ok in H4. destruct H4 as (lG & T4 & O4 & L4).
  apply step_Ok in H5. apply set_requires_grad_Ok in H6.
  apply emit_Ok in H7.
  apply backward_D_A_Ok in H8.
  destruct H8 as (fB & qB & rB & lDA & F8 & Q8 & R8 & D8 & T8 & O8 & X8
                  & L8 & G8).
  apply backward_D_B_Ok in H9.
  destruct H9 as (fA & qA & rA & lDB & F9 & Q9 & R9 & D9 & T9 & O9 & X9
                  & L9 & G9 & A9).
  apply step_Ok in H.
  exists lG, lDA, lDB, rA, rB, fA, fB, qA, qB.
  subst s' s7 s6 s5 s3 s2. store.
  rewrite X9, X8 in *. store.
  rewrite G9, A9, G8, L8, L9, T9, T8. store.
  rewrite T4. store. rewrite T1, ?O4, ?O1, L4.
  unfold code_order, phase_D_events. flatten_trace.
  repeat split; try assumption; try reflexivity.
Qed.

End Returns.

(* ================================================================== *)
(** ** Running a computation forward *)

Lemma returns_bind {A B} (m : M A) (k : A -> M B) s (Q : B -> state -> Prop) :
  returns m s (fun a s1 => returns (k a) s1 Q) -> returns (bind m k) s Q.
Proof.
  intros (a & s1 & Hm & b & s2 & Hk & HQ). exists b, s2. split; [|exact HQ].
  unfold bind. rewrite Hm. exact Hk.
Qed.

Lemma returns_ret {A} (a : A) s (Q : A -> state -> Prop) :
  Q a s -> returns (ret a) s Q.
Proof. intros H. exists a, s. auto. Qed.

Lemma returns_get_opt s (Q : Opt -> state -> Prop) :
  Q (opt s) s -> returns get_opt s Q.
Proof. intros H. exists (opt s), s. auto. Qed.

Lemma returns_getT a t s (Q : tensor -> state -> Prop) :
  tensors s a = Some t -> Q t s -> returns (getT a) s Q.
Proof. intros H HQ. exists t, s. unfold getT. rewrite H. auto. Qed.

Lemma returns_getV a t s (Q : tensor1 -> state -> Prop) :
  norms s a = Some t -> Q t s -> returns (getV a) s Q.
Proof. intros H HQ. exists t, s. unfold getV. rewrite H. auto. Qed.

Lemma returns_getL a l s (Q : xreal -> state -> Prop) :
  losses s a = Some l -> Q l s -> returns (getL a) s Q.
Proof. intros H HQ. exists l, s. unfold getL. rewrite H. auto. Qed.

Lemma returns_setT a t s (Q : unit -> state -> Prop) :
  Q tt (with_tensors (upd tattr_eq_dec (tensors s) a (Some t)) s) ->
  returns (setT a t) s Q.
Proof. intros H. eexists _, _. split; [reflexivity | exact H]. Qed.

Lemma returns_setV a t s (Q : unit -> state -> Prop) :
  Q tt (with_norms (upd vattr_eq_dec (norms s) a (Some t)) s) ->
  returns (setV a t) s Q.
Proof. intros H. eexists _, _. split; [reflexivity | exact H]. Qed.

Lemma returns_setL a l s (Q : unit -> state -> Prop) :
  Q tt (with_losses (upd lattr_eq_dec (losses s) a (Some l)) s) ->
  returns (setL a l) s Q.
Proof. intros H. eexists _, _. split; [reflexivity | exact H]. Qed.

Lemma returns_emit e s (Q : unit -> state -> Prop) :
  Q tt (with_trace (trace s ++ [e]) s) -> returns (emit e) s Q.
Proof. intros H. eexists _, _. split; [reflexivity | exact H]. Qed.

Lemma returns_lift {A} e (r : option A) a s (Q : A -> state -> Prop) :
  r = Some a -> Q a s -> returns (lift e r) s Q.
Proof. intros -> H. exists a, s. auto. Qed.

(** Projections of the attribute stores, in the goal only. *)
Ltac store_goal :=
  cbn [tensors norms losses trace updates requires_grad opt image_paths
       loss_names visual_names model_names
       with_tensors with_norms with_losses with_trace with_updates
       with_requires_grad with_image_paths upd
       tattr_eq_dec vattr_eq_dec lattr_eq_dec
       tattr_rec tattr_rect vattr_rec vattr_rect lattr_rec lattr_rect
       fst snd].

(** One step of a run; [call r] puts the result of the collaborator call
    [r] among the hypotheses when it is not there yet. *)
Ltac run_step call :=
  cbv beta zeta; store_goal;
  lazymatch goal with
  | |- returns (bind _ _) _ _ => apply returns_bind
  | |- returns (ret _) _ _ => apply returns_ret
  | |- returns get_opt _ _ => apply returns_get_opt
  | |- returns (getT _) _ _ =>
      eapply returns_getT; [store_goal; first [eassumption | reflexivity]|]
  | |- returns (getV _) _ _ =>
      eapply returns_getV; [store_goal; first [eassumption | reflexivity]|]
  | |- returns (getL _) _ _ =>
      eapply returns_getL; [store_goal; first [eassumption | reflexivity]|]
  | |- returns (setT _ _) _ _ => apply returns_setT
  | |- returns (setV _ _) _ _ => apply returns_setV
  | |- returns (setL _ _) _ _ => apply returns_setL
  | |- returns (emit _) _ _ => apply returns_emit
  | |- returns (lift _ ?r) _ _ =>
      first [ eapply returns_lift; [eassumption|]
            | call r; eapply returns_lift; [reflexivity|] ]
  | |- returns (if ?c then _ else _) _ _ =>
      let C := fresh "Cond" in destruct c eqn:C
  end.

Ltac run call := repeat run_step call.

(* ================================================================== *)
(** ** Following a computation through both outcomes *)

Lemma ends_bind {A B} (m : M A) (k : A -> M B) s (Q : outcome B -> Prop) :
  ends m s (fun o => match o with
                     | Ok a s1 => ends (k a) s1 Q
                     | Raise e s1 => Q (Raise e s1)
                     end) ->
  ends (bind m k) s Q.
Proof. unfold ends, bind. destruct (m s); auto. Qed.

Lemma ends_ret {A} (a : A) s (Q : outcome A -> Prop) :
  Q (Ok a s) -> ends (ret a) s Q.
Proof. auto. Qed.

Lemma ends_get_opt s (Q : outcome Opt -> Prop) :
  Q (Ok (opt s) s) -> ends get_opt s Q.
Proof. auto. Qed.

Lemma ends_getT a s (Q : outcome tensor -> Prop) :
  match tensors s a with
  | Some t => Q (Ok t s)
  | None => Q (Raise (AttributeError (AImage a)) s)
  end ->
  ends (getT a) s Q.
Proof. unfold ends, getT. destruct (tensors s a); auto. Qed.

Lemma ends_getV a s (Q : outcome tensor1 -> Prop) :
  match norms s a with
  | Some t => Q (Ok t s)
  | None => Q (Raise (AttributeError (ANorm a)) s)
  end ->
  ends (getV a) s Q.
Proof. unfold ends, getV. destruct (norms s a); auto. Qed.

Lemma ends_getL a s (Q : outcome xreal -> Prop) :
  match losses s a with
  | Some t => Q (Ok t s)
  | None => Q (Raise (AttributeError (ALoss a)) s)
  end ->
  ends (getL a) s Q.
Proof. unfold ends, getL. destruct (losses s a); auto. Qed.

Lemma ends_setT a t s (Q : outcome unit -> Prop) :
  Q (Ok tt (with_tensors (upd tattr_eq_dec (tensors s) a (Some t)) s)) ->
  ends (setT a t) s Q.
Proof. auto. Qed.

Lemma ends_setV a t s (Q : outcome unit -> Prop) :
  Q (Ok tt (with_norms (upd vattr_eq_dec (norms s) a (Some t)) s)) ->
  ends (setV a t) s Q.
Proof. auto. Qed.

Lemma ends_setL a l s (Q : outcome unit -> Prop) :
  Q (Ok tt (with_losses (upd lattr_eq_dec (losses s) a (Some l)) s)) ->
  ends (setL a l) s Q.
Proof. auto. Qed.

Lemma ends_emit e s (Q : outcome unit -> Prop) :
  Q (Ok tt (with_trace (trace s ++ [e]) s)) -> ends (emit e) s Q.
Proof. auto. Qed.

Lemma ends_set_requires_grad ns b s (Q : outcome unit -> Prop) :
  Q (Ok tt (with_requires_grad
              (fun n => if mem_net n ns then b else requires_grad s n)
              (with_trace (trace s ++ [EvSetRequiresGrad ns b]) s))) ->
  ends (set_requires_grad ns b) s Q.
Proof. auto. Qed.

Lemma ends_lift {A} e (r : option A) s (Q : outcome A -> Prop) :
  match r with
  | Some a => Q (Ok a s)
  | None => Q (Raise e s)
  end ->
  ends (lift e r) s Q.
Proof. unfold ends. destruct r; auto. Qed.

(** One step of the exploration.  Reads of attributes are settled by the
    hypotheses when they can be; results of collaborators are split into
    their two cases. *)
Ltac explore_step :=
  cbv beta zeta iota; store_goal;
  lazymatch goal with
  | |- ends (bind _ _) _ _ => apply ends_bind
  | |- ends (ret _) _ _ => apply ends_ret
  | |- ends get_opt _ _ => apply ends_get_opt
  | |- ends (getT _) _ _ =>
      apply ends_getT; store_goal;
      repeat match goal with
             | H : tensors _ _ = _ |- _ => rewrite H
             end
  | |- ends (getV _) _ _ => apply ends_getV; store_goal
  | |- ends (getL _) _ _ => apply ends_getL; store_goal
  | |- ends (setT _ _) _ _ => apply ends_setT
  | |- ends (setV _ _) _ _ => apply ends_setV
  | |- ends (setL _ _) _ _ => apply ends_setL
  | |- ends (emit _) _ _ => apply ends_emit
  | |- ends (set_requires_grad _ _) _ _ => apply ends_set_requires_grad
  | |- ends (lift _ ?r) _ _ =>
      let R := fresh "Call" in
      apply ends_lift; destruct r eqn:R
  | |- ends (if ?c then _ else _) _ _ =>
      let C := fresh "Cond" in destruct c eqn:C
  end.

(* ================================================================== *)
(** ** The difference-consistency term *)

Lemma bidx_lt (n i : nat) : (i < n)%nat -> bidx n i = i.
Proof.
  intros H. unfold bidx. destruct (n =? 1)%nat eqn:E; [|reflexivity].
  apply Nat.eqb_eq in E. lia.
Qed.

Lemma bdim_same (n : nat) : bdim n n = Some n.
Proof. unfold bdim. rewrite Nat.eqb_refl. reflexivity. Qed.

Lemma bdim_one_r (n : nat) : bdim n 1 = Some n.
Proof.
  unfold bdim. destruct (n =? 1)%nat eqn:E.
  - apply Nat.eqb_eq in E. subst. reflexivity.
  - reflexivity.
Qed.

Lemma sqrt_rsum_scal (C : nat) (k : R) (f : nat -> R) :
  (0 <= k)%R ->
  sqrt (rsum C (fun c => (k * f c) * (k * f c)))%R
  = (k * sqrt (rsum C (fun c => f c * f c)))%R.
Proof.
  intros Hk.
  rewrite (@rsum_ext C (fun c => (k * f c) * (k * f c))%R
             (fun c => (k * k) * (f c * f c))%R) by (intros; ring).
  rewrite rsum_scal, sqrt_mult_alt by nra.
  rewrite sqrt_square by assumption. reflexivity.
Qed.

Lemma rnorm_scal (C H W : nat) (k : R) (r : nat -> nat -> nat -> R) :
  (0 <= k)%R ->
  rnorm C H W (fun c h w => k * r c h w)%R = (k * rnorm C H W r)%R.
Proof.
  intros Hk. unfold rnorm.
  rewrite (@rsum_ext H _ (fun h => k * rsum W (fun w => sqrt (rsum C (fun c => r c h w * r c h w))))%R).
  - rewrite rsum_scal. unfold Rdiv. ring.
  - intros h _.
    rewrite <- rsum_scal. apply rsum_ext. intros w0 _.
    apply sqrt_rsum_scal. assumption.
Qed.

Lemma sample_norms_fin (t : tensor) (b : nat) (r : nat -> nat -> nat -> R) :
  (forall c h w, (c < dim1 t)%nat -> (h < dim2 t)%nat -> (w < dim3 t)%nat ->
                 item t b c h w = Fin (r c h w)) ->
  item1 (sample_norms t) b
  = xdiv (Fin (rsum (dim2 t) (fun h => rsum (dim3 t) (fun w =>
            sqrt (rsum (dim1 t) (fun c => r c h w * r c h w)))))%R)
         (Fin (INR (dim2 t * dim3 t))).
Proof.
  intros Hr. unfold sample_norms, mean_dims12, norm_dim1.
  cbn [item1 d3_0 d3_1 d3_2 item3].
  f_equal. apply xsum_n_fin. intros h Hh.
  apply xsum_n_fin. intros w0 Hw.
  rewrite (@xsum_n_fin (dim1 t) _ (fun c => r c h w0 * r c h w0)%R).
  - apply xsqrt_fin. apply rsum_nonneg. intros. nra.
  - intros c Hc. rewrite Hr by assumption. reflexivity.
Qed.

Lemma Fin_inj (x y : R) : Fin x = Fin y -> x = y.
Proof. congruence. Qed.

Lemma xdiv_fin_inv (x y m : R) :
  xdiv (Fin x) (Fin y) = Fin m -> y <> 0%R /\ m = (x / y)%R.
Proof.
  unfold xdiv. destruct (Req_dec_T y 0); [discriminate|].
  intros H. apply Fin_inj in H. auto.
Qed.

(** Two difference maps of one sample that point the same way. *)
Lemma normalized_gap_scaled_sample
  (gen ref : tensor) (r : nat -> nat -> nat -> R) (k m : R) :
  dim0 ref = 1%nat -> dim0 gen = 1%nat ->
  dim1 gen = dim1 ref -> dim2 gen = dim2 ref -> dim3 gen = dim3 ref ->
  (forall c h w, (c < dim1 ref)%nat -> (h < dim2 ref)%nat ->
                 (w < dim3 ref)%nat ->
                 item ref 0 c h w = Fin (r c h w) /\
                 item gen 0 c h w = Fin (k * r c h w)) ->
  (0 < k)%R ->
  item1 (sample_norms ref) 0 = Fin m -> (0 < m)%R ->
  normalized_gap gen ref = Some (Fin 0).
Proof.
  intros Hb Hbg H1 H2 H3 Hitems Hk Hm Hmpos.
  assert (Href : item1 (sample_norms ref) 0
                 = Fin (rnorm (dim1 ref) (dim2 ref) (dim3 ref) r)).
  { rewrite (@sample_norms_fin ref 0%nat r) by (intros; apply Hitems; assumption).
    rewrite (@sample_norms_fin ref 0%nat r) in Hm by (intros; apply Hitems; assumption).
    apply xdiv_fin_inv in Hm. destruct Hm as [Hne _].
    rewrite xdiv_fin by assumption. reflexivity. }
  assert (Hcount : INR (dim2 ref * dim3 ref) <> 0%R).
  { rewrite (@sample_norms_fin ref 0%nat r) in Hm by (intros; apply Hitems; assumption).
    apply xdiv_fin_inv in Hm. tauto. }
  assert (Hmr : m = rnorm (dim1 ref) (dim2 ref) (dim3 ref) r) by congruence.
  assert (Hgen : item1 (sample_norms gen) 0 = Fin (k * m)).
  { rewrite (@sample_norms_fin gen 0%nat (fun c h w => k * r c h w)%R)
      by (intros; apply Hitems; congruence).
    rewrite H1, H2, H3. rewrite xdiv_fin by assumption.
    f_equal. rewrite Hmr, <- rnorm_scal by lra. reflexivity. }
  unfold normalized_gap, div_bcast.
  change (len (sample_norms gen)) with (dim0 gen).
  change (len (sample_norms ref)) with (dim0 ref).
  rewrite Hb, Hbg, !bdim_one_r.
  unfold direction_gap, sub_bcast. cbn [dim0 dim1 dim2 dim3 item grad_fn].
  rewrite H1, H2, H3, !bdim_same.
  f_equal. unfold mean_all, norm_dim1. cbn [d3_0 d3_1 d3_2 item3 dim0 dim1 dim2 dim3 item].
  rewrite (@xsum_n_fin 1 _ (fun _ => 0%R)).
  - rewrite xdiv_fin.
    + f_equal. cbn. lra.
    + replace (1 * dim2 ref * dim3 ref)%nat with (dim2 ref * dim3 ref)%nat by lia.
      assumption.
  - intros i Hi. assert (i = 0)%nat by lia. subst i.
    rewrite (@xsum_n_fin _ _ (fun _ => 0%R)); [f_equal; apply rsum_zero|].
    intros h Hh.
    rewrite (@xsum_n_fin _ _ (fun _ => 0%R)); [f_equal; apply rsum_zero|].
    intros w0 Hw.
    rewrite (@xsum_n_fin _ _ (fun _ => 0%R)).
    + rewrite rsum_zero, xsqrt_fin by lra. f_equal. apply sqrt_0.
    + intros c Hc.
      rewrite !(@bidx_lt (dim3 ref) w0), !(@bidx_lt (dim2 ref) h),
        !(@bidx_lt (dim1 ref) c) by assumption.
      change (bidx 1 w0) with 0%nat. change (bidx 1 0) with 0%nat.
      destruct (Hitems c h w0 Hc Hh Hw) as [Er Eg].
      rewrite Er, Eg, Hgen, Hm.
      rewrite !xdiv_fin by nra.
      cbn. f_equal. field. split; lra.
Qed.

Lemma xsum_n_1 (f : nat -> xreal) : xsum_n 1 f = xadd (f 0%nat) (Fin 0).
Proof. reflexivity. Qed.

Lemma xsum_n_2 (f : nat -> xreal) :
  xsum_n 2 f = xadd (f 0%nat) (xadd (f 1%nat) (Fin 0)).
Proof. reflexivity. Qed.

Lemma sqrt_sq_abs (x : R) : sqrt (x * x + 0) = Rabs x.
Proof. rewrite Rplus_0_r. apply sqrt_Rsqr_abs. Qed.

Lemma xsqrt_sq (x : R) : xsqrt (Fin (x * x + 0)) = Fin (Rabs x).
Proof. rewrite xsqrt_fin by nra. f_equal. apply sqrt_sq_abs. Qed.

Ltac eval_items :=
  repeat (progress
    (cbn [item item1 item3 len d3_0 d3_1 d3_2 dim0 dim1 dim2 dim3 of_lists nth
          bidx Nat.eqb xadd xsub xmul xlift2];
     rewrite ?xsum_n_1, ?xsum_n_2)).

Lemma sample_norms_ref2 (b : nat) :
  (b < 2)%nat -> item1 (sample_norms ref2) b = Fin 1.
Proof.
  intros Hb. unfold sample_norms, mean_dims12, norm_dim1, ref2.
  destruct b as [|[|b]]; [| |lia]; eval_items;
    rewrite !xsqrt_sq; cbn [xadd xlift2]; rewrite xdiv_fin;
    try (f_equal; rewrite Rabs_right by lra; cbn; field);
    cbn; lra.
Qed.

Lemma sample_norms_gen2_0 : item1 (sample_norms gen2) 0 = Fin 1.
Proof.
  unfold sample_norms, mean_dims12, norm_dim1, gen2. eval_items.
  rewrite !xsqrt_sq; cbn [xadd xlift2]; rewrite xdiv_fin;
    try (f_equal; rewrite Rabs_right by lra; cbn; field);
    cbn; lra.
Qed.

Lemma sample_norms_gen2_1 : item1 (sample_norms gen2) 1 = Fin 2.
Proof.
  unfold sample_norms, mean_dims12, norm_dim1, gen2. eval_items.
  rewrite !xsqrt_sq; cbn [xadd xlift2]; rewrite xdiv_fin;
    try (f_equal; rewrite Rabs_right by lra; cbn; field);
    cbn; lra.
Qed.

Lemma normalized_gap_batch_of_two :
  normalized_gap gen2 ref2 = Some (Fin (3 / 8)).
Proof.
  unfold normalized_gap, div_bcast.
  change (bdim (dim3 gen2) (len (sample_norms gen2))) with (Some 2%nat).
  change (bdim (dim3 ref2) (len (sample_norms ref2))) with (Some 2%nat).
  unfold direction_gap, sub_bcast.
  cbn [dim0 dim1 dim2 dim3 gen2 ref2 of_lists bdim Nat.eqb].
  f_equal. unfold mean_all, norm_dim1.
  cbn [item item1 item3 len d3_0 d3_1 d3_2 dim0 dim1 dim2 dim3].
  rewrite ?xsum_n_1, ?xsum_n_2.
  cbn [item item1 item3 len d3_0 d3_1 d3_2 dim0 dim1 dim2 dim3 bidx Nat.eqb].
  rewrite ?xsum_n_1, ?xsum_n_2.
  change (len (sample_norms gen2)) with 2%nat.
  change (len (sample_norms ref2)) with 2%nat.
  cbn [bidx Nat.eqb]. rewrite ?xsum_n_1.
  rewrite sample_norms_gen2_0, sample_norms_gen2_1, !sample_norms_ref2 by lia.
  cbn [item of_lists nth gen2 ref2].
  rewrite !xdiv_fin by lra.
  cbn [xadd xsub xmul xlift2].
  rewrite !xsqrt_sq. cbn [xadd xlift2].
  rewrite xdiv_fin by (cbn; lra).
  f_equal.
  replace (1 / 1 - 1 / 1)%R with 0%R by field.
  replace (1 / 2 - 1 / 1)%R with (- (1 / 2))%R by field.
  replace (2 / 1 - 1 / 1)%R with 1%R by field.
  replace (2 / 2 - 1 / 1)%R with 0%R by field.
  rewrite Rabs_R0, Rabs_Ropp, Rabs_R1, (Rabs_right (1 / 2)) by lra.
  cbn. field.
Qed.

(** For a batch of one sample, parallel difference maps have no gap. *)
Lemma normalized_gap_parallel (gen ref : tensor) :
  parallel gen ref -> dim0 ref = 1%nat ->
  normalized_gap gen ref = Some (Fin 0).
Proof.
  intros ((S0 & S1 & S2 & S3) & Hp) Hb.
  destruct (Hp 0%nat) as (k & m & r & Hk & Hm & Hn & Hitems); [lia|].
  apply (@normalized_gap_scaled_sample gen ref r k m); try assumption.
  congruence.
Qed.

Lemma parallel_gen2_ref2 : parallel gen2 ref2.
Proof.
  split; [repeat split|].
  intros b Hb. cbn in Hb.
  destruct b as [|[|b]]; [| |lia].
  - exists 1%R, 1%R, (fun _ _ _ => 1%R).
    split; [lra|]. split; [lra|]. split; [apply sample_norms_ref2; lia|].
    intros c h w0 Hc Hh Hw. cbn in Hc, Hh, Hw.
    destruct c as [|c]; [|lia]. destruct h as [|h]; [|lia].
    destruct w0 as [|[|w0]]; [| |lia]; cbn; split; try reflexivity;
      f_equal; ring.
  - exists 2%R, 1%R, (fun _ _ _ => 1%R).
    split; [lra|]. split; [lra|]. split; [apply sample_norms_ref2; lia|].
    intros c h w0 Hc Hh Hw. cbn in Hc, Hh, Hw.
    destruct c as [|c]; [|lia]. destruct h as [|h]; [|lia].
    destruct w0 as [|[|w0]]; [| |lia]; cbn; split; try reflexivity;
      f_equal; ring.
Qed.

(** *** Propagation of a non-finite entry *)

Lemma xsub_nonfinite_r (a : xreal) : xsub a NonFinite = NonFinite.
Proof. destruct a; reflexivity. Qed.

Lemma norm_dim1_nonfinite (t : tensor) (b c h w0 : nat) :
  (c < dim1 t)%nat -> item t b c h w0 = NonFinite ->
  item3 (norm_dim1 t) b h w0 = NonFinite.
Proof.
  intros Hc Hi. unfold norm_dim1. cbn [item3].
  rewrite (@xsum_n_nonfinite (dim1 t) _ c Hc); [reflexivity|].
  rewrite Hi. reflexivity.
Qed.

Lemma mean_all_nonfinite (t : tensor3) (b h w0 : nat) :
  (b < d3_0 t)%nat -> (h < d3_1 t)%nat -> (w0 < d3_2 t)%nat ->
  item3 t b h w0 = NonFinite -> mean_all t = NonFinite.
Proof.
  intros Hb Hh Hw Hi. unfold mean_all.
  rewrite (@xsum_n_nonfinite (d3_0 t) _ b Hb); [reflexivity|].
  rewrite (@xsum_n_nonfinite (d3_1 t) _ h Hh); [reflexivity|].
  exact (@xsum_n_nonfinite (d3_2 t) _ w0 Hw Hi).
Qed.

(** The column of the normalized map that the norm of sample [b0] divides. *)
Lemma norm_column (B W W' b0 : nat) :
  (b0 < B)%nat -> bdim W B = Some W' -> (0 < W')%nat ->
  exists j, (j < W')%nat /\ bidx B j = b0.
Proof.
  intros Hb HW HW'. unfold bidx.
  destruct (B =? 1)%nat eqn:E.
  - apply Nat.eqb_eq in E. exists 0%nat. split; lia.
  - apply Nat.eqb_neq in E. exists b0. split; [|reflexivity].
    revert HW. unfold bdim.
    destruct (W =? B)%nat eqn:E1;
      [apply Nat.eqb_eq in E1; intros H; injection H as <-; lia|].
    destruct (W =? 1)%nat eqn:E2; [intros H; injection H as <-; lia|].
    destruct (B =? 1)%nat eqn:E3; [|discriminate].
    apply Nat.eqb_eq in E3. lia.
Qed.

Lemma bdim_positive (a b n : nat) :
  bdim a b = Some n -> (0 < n)%nat -> (0 < a)%nat /\ (0 < b)%nat.
Proof.
  unfold bdim.
  destruct (a =? b)%nat eqn:E1;
    [apply Nat.eqb_eq in E1; intros H; injection H as <-; lia|].
  destruct (a =? 1)%nat eqn:E2;
    [apply Nat.eqb_eq in E2; intros H; injection H as <-; lia|].
  destruct (b =? 1)%nat eqn:E3; [|discriminate].
  apply Nat.eqb_eq in E3. intros H. injection H as <-. lia.
Qed.

Lemma bdim_of_positive (a b n : nat) :
  bdim a b = Some n -> (0 < a)%nat -> (0 < b)%nat -> (0 < n)%nat.
Proof.
  unfold bdim.
  destruct (a =? b)%nat; [intros H; injection H as <-; lia|].
  destruct (a =? 1)%nat; [intros H; injection H as <-; lia|].
  destruct (b =? 1)%nat; [intros H; injection H as <-; lia | discriminate].
Qed.

(** An index of the right operand is reached from the broadcast result. *)
Lemma column_of_right (a b n j : nat) :
  bdim a b = Some n -> (0 < n)%nat -> (j < b)%nat ->
  exists i, (i < n)%nat /\ bidx b i = bidx b j.
Proof.
  unfold bdim.
  destruct (a =? b)%nat eqn:E1.
  - apply Nat.eqb_eq in E1. intros H. injection H as <-. subst a.
    intros _ Hj. exists j. auto.
  - destruct (a =? 1)%nat eqn:E2.
    + intros H. injection H as <-. intros _ Hj. exists j. auto.
    + destruct (b =? 1)%nat eqn:E3; [|discriminate].
      apply Nat.eqb_eq in E3. subst b. intros H. injection H as <-.
      intros Hn Hj. exists 0%nat. split; [exact Hn | reflexivity].
Qed.

(** An index of the left operand is reached from the broadcast result. *)
Lemma column_of_left (a b n j : nat) :
  bdim a b = Some n -> (0 < n)%nat -> (j < a)%nat ->
  exists i, (i < n)%nat /\ bidx a i = bidx a j.
Proof.
  unfold bdim.
  destruct (a =? b)%nat eqn:E1.
  - intros H. injection H as <-. intros _ Hj. exists j. auto.
  - destruct (a =? 1)%nat eqn:E2.
    + apply Nat.eqb_eq in E2. subst a. intros H. injection H as <-.
      intros Hn Hj. exists 0%nat. split; [exact Hn | reflexivity].
    + destruct (b =? 1)%nat eqn:E3; [|discriminate].
      intros H. injection H as <-. intros _ Hj. exists j. auto.
Qed.

(** The normalized map has a non-finite column when a norm is zero. *)
Lemma div_bcast_zero_norm (t t' : tensor) (b0 : nat) :
  div_bcast t (sample_norms t) = Some t' ->
  (b0 < dim0 t)%nat -> item1 (sample_norms t) b0 = Fin 0 ->
  (0 < dim3 t')%nat ->
  exists j, (j < dim3 t')%nat /\
            forall b c h, item t' b c h j = NonFinite.
Proof.
  unfold div_bcast. change (len (sample_norms t)) with (dim0 t).
  destruct (bdim (dim3 t) (dim0 t)) as [W'|] eqn:HW; [|discriminate].
  intros H. injection H as <-. intros Hb Hz HW'.
  change (0 < W')%nat in HW'.
  destruct (@norm_column _ _ _ _ Hb HW HW') as (j & Hj & Hi).
  exists j. split; [exact Hj|]. intros b c h.
  change (xdiv (item t b c h (bidx (dim3 t) j))
               (item1 (sample_norms t) (bidx (dim0 t) j)) = NonFinite).
  rewrite Hi, Hz. apply xdiv_zero.
Qed.

Lemma div_bcast_dim1 (t t' : tensor) (n : tensor1) :
  div_bcast t n = Some t' -> dim1 t' = dim1 t.
Proof.
  unfold div_bcast. destruct (bdim (dim3 t) (len n)); [|discriminate].
  intros H. injection H as <-. reflexivity.
Qed.

(** A zero per-sample norm, of the reference or of the generated map, makes
    the term non-finite whenever it is computed. *)
Lemma normalized_gap_zero_norm (gen ref : tensor) (x : xreal) :
  normalized_gap gen ref = Some x ->
  (0 < dim1 gen)%nat -> (0 < dim1 ref)%nat ->
  zero_norm ref \/ zero_norm gen ->
  x = NonFinite.
Proof.
  unfold normalized_gap.
  destruct (div_bcast gen (sample_norms gen)) as [g'|] eqn:DG;
    [|discriminate].
  destruct (div_bcast ref (sample_norms ref)) as [r'|] eqn:DR;
    [|discriminate].
  unfold direction_gap.
  destruct (sub_bcast g' r') as [d|] eqn:SD; [|discriminate].
  intros H. injection H as <-. intros HCg HCr Hz.
  pose proof (@div_bcast_dim1 _ _ _ DG) as Cg.
  pose proof (@div_bcast_dim1 _ _ _ DR) as Cr.
  revert SD. unfold sub_bcast.
  destruct (bdim (dim0 g') (dim0 r')) as [D0|] eqn:B0; [|discriminate].
  destruct (bdim (dim1 g') (dim1 r')) as [D1|] eqn:B1; [|discriminate].
  destruct (bdim (dim2 g') (dim2 r')) as [D2|] eqn:B2; [|discriminate].
  destruct (bdim (dim3 g') (dim3 r')) as [D3|] eqn:B3; [|discriminate].
  intros H. injection H as <-.
  destruct (Nat.eq_dec (D0 * D2 * D3) 0) as [Hempty | Hfull].
  - unfold mean_all. cbn [norm_dim1 d3_0 d3_1 d3_2 dim0 dim2 dim3].
    rewrite Hempty. apply xdiv_zero.
  - assert (P0 : (0 < D0)%nat) by nia.
    assert (P2 : (0 < D2)%nat) by nia.
    assert (P3 : (0 < D3)%nat) by nia.
    assert (P1 : (0 < D1)%nat)
      by (apply (@bdim_of_positive _ _ _ B1); lia).
    destruct (@bdim_positive _ _ _ B3 P3) as [Pg Pr].
    assert (Hw : exists w0, (w0 < D3)%nat /\
                   forall i c h,
                     (item g' (bidx (dim0 g') i) (bidx (dim1 g') c)
                              (bidx (dim2 g') h) (bidx (dim3 g') w0)
                      - item r' (bidx (dim0 r') i) (bidx (dim1 r') c)
                                (bidx (dim2 r') h) (bidx (dim3 r') w0))%X
                     = NonFinite).
    { destruct Hz as [(b0 & Hb & Hz0) | (b0 & Hb & Hz0)].
      - destruct (@div_bcast_zero_norm _ _ _ DR Hb Hz0 Pr) as (j & Hj & Hcol).
        destruct (@column_of_right _ _ _ _ B3 P3 Hj) as (w0 & Hw0 & Hi).
        exists w0. split; [exact Hw0|]. intros i c h.
        rewrite Hi, (@bidx_lt _ _ Hj), Hcol. apply xsub_nonfinite_r.
      - destruct (@div_bcast_zero_norm _ _ _ DG Hb Hz0 Pg) as (j & Hj & Hcol).
        destruct (@column_of_left _ _ _ _ B3 P3 Hj) as (w0 & Hw0 & Hi).
        exists w0. split; [exact Hw0|]. intros i c h.
        rewrite Hi, (@bidx_lt _ _ Hj), Hcol. reflexivity. }
    destruct Hw as (w0 & Hw0 & Hnf).
    apply (@mean_all_nonfinite _ 0%nat 0%nat w0);
      cbn [norm_dim1 d3_0 d3_1 d3_2 dim0 dim1 dim2 dim3]; try assumption.
    apply (@norm_dim1_nonfinite _ 0%nat 0%nat 0%nat w0);
      cbn [dim1 item]; [assumption|].
    apply Hnf.
Qed.

(** One-pixel maps broadcast. *)
Lemma normalizable_pixels (x y : R) : normalizable (pixel x) (pixel y).
Proof.
  split; [|split; cbn; lia].
  unfold normalized_gap, div_bcast, direction_gap, sub_bcast.
  cbn [dim0 dim1 dim2 dim3 len sample_norms mean_dims12 norm_dim1 d3_0
       pixel of_lists bdim Nat.eqb].
  discriminate.
Qed.

(* ================================================================== *)
(** ** Which networks an iteration updates *)

Section Updates.

Variable E : Env.

(** Use a frame lemma on the computation that was just run. *)
Ltac framed L s0 H U :=
  pose proof (L s0) as U; rewrite H in U; cbn [state_of] in U;
  unfold stepped in U;
  let Hu := fresh "Upd" in let Ht := fresh "Trc" in injection U as Hu Ht.

(** C1 (as amended).  One call of [optimize_parameters] ends in one of three
    ways: it returns, and each of G_A, G_B, D_A, D_B has received exactly one
    optimizer step; or it raises before [optimizer_G.step], and no network
    has been updated; or it raises in the discriminator phase, after
    [optimizer_G.step], and then G_A and G_B have been updated while D_A and
    D_B have not. *)
Theorem iteration_update_cases (s : state) :
  match optimize_parameters E s with
  | Ok _ s' =>
      (forall n, updates s' n = S (updates s n)) /\
      steps_of (trace s')
      = steps_of (trace s) ++ [EvStep optimizer_G; EvStep optimizer_D]
  | Raise _ s' =>
      ((forall n, updates s' n = updates s n) /\
       steps_of (trace s') = steps_of (trace s))
      \/
      (updates s' G_A = S (updates s G_A) /\
       updates s' G_B = S (updates s G_B) /\
       updates s' D_A = updates s D_A /\
       updates s' D_B = updates s D_B /\
       steps_of (trace s') = steps_of (trace s) ++ [EvStep optimizer_G])
  end.
Proof.
  unfold optimize_parameters, steps_of.
  bind_step Run1; framed (forward_no_step E) s Run1 U1;
    [left; split; [intros; congruence | assumption]|].
  bind_step Run2; framed (set_requires_grad_no_step [D_A; D_B] false) s1 Run2 U2;
    [left; split; [intros; congruence | congruence]|].
  bind_step Run3; framed (zero_grad_no_step optimizer_G) s0 Run3 U3;
    [left; split; [intros; congruence | congruence]|].
  bind_step Run4; framed (backward_G_no_step E) s2 Run4 U4;
    [left; split; [intros; congruence | congruence]|].
  assert (U : updates s3 = updates s) by congruence.
  assert (T : filter is_step (trace s3) = filter is_step (trace s))
    by congruence.
  clear - U T.
  bind_step RunG; rewrite step_eq in RunG; [discriminate|].
  injection RunG as _ <-.
  set (s4 := with_updates _ _).
  assert (U4 : updates s4 G_A = S (updates s G_A) /\
               updates s4 G_B = S (updates s G_B) /\
               updates s4 D_A = updates s D_A /\
               updates s4 D_B = updates s D_B)
    by (subst s4; cbn; rewrite U; auto).
  assert (T4 : filter is_step (trace s4)
               = filter is_step (trace s) ++ [EvStep optimizer_G])
    by (subst s4; cbn; rewrite filter_app, T; reflexivity).
  clearbody s4. clear U T s3.
  destruct U4 as (UA & UB & UC & UD).
  bind_step Run5; framed (set_requires_grad_no_step [D_A; D_B] true) s4 Run5 U5;
    [right; repeat split; congruence|].
  bind_step Run6; framed (zero_grad_no_step optimizer_D) s1 Run6 U6;
    [right; repeat split; congruence|].
  bind_step Run7; framed (backward_D_A_no_step E) s0 Run7 U7;
    [right; repeat split; congruence|].
  bind_step Run8; framed (backward_D_B_no_step E) s2 Run8 U8;
    [right; repeat split; congruence|].
  rewrite step_eq. cbn [state_of].
  assert (U : updates s3 = updates s4) by congruence.
  assert (T : filter is_step (trace s3) = filter is_step (trace s4))
    by congruence.
  split.
  - intros n. cbn. rewrite U. destruct n; cbn; congruence.
  - cbn. rewrite filter_app, T, T4, <- app_assoc. reflexivity.
Qed.

End Updates.

(** C1 (as stated) fails: when the pool of fake B images raises in
    [backward_D_A], the generators have already been stepped, so the
    iteration is neither complete nor undone. *)
Lemma iteration_not_atomic :
  ~ atomic pool_fails_env (loaded pool_fails_env default_opt).
Proof.
  unfold atomic. intros H.
  assert (K : is_ok (optimize_parameters pool_fails_env
                       (loaded pool_fails_env default_opt)) = false)
    by (vm_compute; reflexivity).
  assert (U : updates (state_of (optimize_parameters pool_fails_env
                                   (loaded pool_fails_env default_opt))) G_A
              = 1%nat)
    by (vm_compute; reflexivity).
  assert (U0 : updates (loaded pool_fails_env default_opt) G_A = 0%nat)
    by (vm_compute; reflexivity).
  destruct (optimize_parameters pool_fails_env
              (loaded pool_fails_env default_opt)) as [a s'|e s'];
    [discriminate|].
  cbn [state_of] in U. specialize (H G_A). congruence.
Qed.

(* ================================================================== *)
(** ** Order of the operations of one iteration *)

(** A computation without result that is seen to return, returns in the
    state it ends in. *)
Lemma returned (m : M unit) (s : state) :
  is_ok (m s) = true -> m s = Ok tt (state_of (m s)).
Proof. destruct (m s) as [[] s'|e s']; [reflexivity | discriminate]. Qed.

(** C2 (as amended).  A call of [optimize_parameters] that returns has
    performed, in this order: the forward pass; disabling of gradient
    tracking on both discriminators; zeroing of the generator gradients;
    the generator loss with its single back-propagation; the generator
    optimizer step; re-enabling of discriminator gradient tracking; zeroing
    of the discriminator gradients; the D_A loss and its back-propagation;
    the D_B loss and its back-propagation; the discriminator optimizer
    step. *)
Theorem iteration_order (E : Env) (s s' : state) :
  optimize_parameters E s = Ok tt s' ->
  exists lG lDA lDB,
    trace s' = trace s ++ code_order (opt s) lG lDA lDB /\
    losses s' loss_G = Some lG /\
    losses s' loss_D_A = Some lDA /\
    losses s' loss_D_B = Some lDB.
Proof.
  intros H. apply optimize_parameters_Ok in H.
  destruct H as (lG & lDA & lDB & rA & rB & fA & fB & qA & qB & H).
  destruct H as (T & LG & LA & LB & _).
  exists lG, lDA, lDB. auto.
Qed.

Lemma iteration_order_witness :
  exists lG lDA lDB,
    trace demo_end
    = trace demo_start ++ code_order (opt demo_start) lG lDA lDB /\
    losses demo_end loss_G = Some lG /\
    losses demo_end loss_D_A = Some lDA /\
    losses demo_end loss_D_B = Some lDB.
Proof.
  refine (@iteration_order quiet_env demo_start demo_end _).
  apply returned. vm_compute. reflexivity.
Defined.

(** C2 (as stated) fails: the first operation of an iteration is the
    forward pass, not the disabling of discriminator gradients. *)
Lemma iteration_order_not_as_specified :
  ~ exists lG lDA lDB,
      trace demo_end
      = trace demo_start ++ spec_order (opt demo_start) lG lDA lDB.
Proof.
  assert (T0 : trace demo_start = []) by (vm_compute; reflexivity).
  assert (Hd : hd_error (trace demo_end) = Some (EvNet G_A))
    by (vm_compute; reflexivity).
  intros (lG & lDA & lDB & H). rewrite H, T0 in Hd.
  unfold spec_order in Hd. cbn [app hd_error] in Hd. discriminate Hd.
Qed.

(* ================================================================== *)
(** ** Discriminator losses *)

(** C4.  [backward_D_basic] evaluates the discriminator on the real batch
    and on the detached fake batch, and back-propagates
    0.5 * (GAN(D(real), True) + GAN(D(detach(fake)), False)); an iteration
    that returns has applied it exactly twice, to D_A with [real_B] and the
    pooled [fake_B], then to D_B with [real_A] and the pooled [fake_A]. *)
Theorem discriminator_loss_applied_twice (E : Env) :
  (forall n D real fake s s' l,
      backward_D_basic E (call_net n D) real fake s = Ok l s' ->
      discriminator_loss E D real fake l /\
      grad_fn (detach fake) = false /\
      trace s' = trace s ++ [EvNet n; EvNet n; EvBackward l])
  /\
  (forall s s',
      optimize_parameters E s = Ok tt s' ->
      exists lG lDA lDB rA rB fA fB qA qB,
        tensors s' real_A = Some rA /\ tensors s' real_B = Some rB /\
        tensors s' fake_A = Some fA /\ tensors s' fake_B = Some fB /\
        fake_A_pool_query E fA = Some qA /\
        fake_B_pool_query E fB = Some qB /\
        discriminator_loss E (netD_A E) rB qB lDA /\
        discriminator_loss E (netD_B E) rA qA lDB /\
        losses s' loss_D_A = Some lDA /\ losses s' loss_D_B = Some lDB /\
        trace s' = trace s ++ code_order (opt s) lG lDA lDB /\
        backwards_of (phase_D_events lDA lDB)
        = [EvBackward lDA; EvBackward lDB]).
Proof.
  split.
  - intros n D real fake s s' l H. apply backward_D_basic_Ok in H.
    destruct H as (DL & T & _). auto.
  - intros s s' H. apply optimize_parameters_Ok in H.
    destruct H as (lG & lDA & lDB & rA & rB & fA & fB & qA & qB & H).
    destruct H as (T & LG & LA & LB & XA & XB & FA & FB & QA & QB & DA & DB).
    exists lG, lDA, lDB, rA, rB, fA, fB, qA, qB.
    repeat split; assumption || reflexivity.
Qed.

Lemma discriminator_loss_applied_twice_witness :
  exists lG lDA lDB rA rB fA fB qA qB,
    tensors demo_end real_A = Some rA /\
    tensors demo_end real_B = Some rB /\
    tensors demo_end fake_A = Some fA /\
    tensors demo_end fake_B = Some fB /\
    fake_A_pool_query quiet_env fA = Some qA /\
    fake_B_pool_query quiet_env fB = Some qB /\
    discriminator_loss quiet_env (netD_A quiet_env) rB qB lDA /\
    discriminator_loss quiet_env (netD_B quiet_env) rA qA lDB /\
    losses demo_end loss_D_A = Some lDA /\
    losses demo_end loss_D_B = Some lDB /\
    trace demo_end
    = trace demo_start ++ code_order (opt demo_start) lG lDA lDB /\
    backwards_of (phase_D_events lDA lDB)
    = [EvBackward lDA; EvBackward lDB].
Proof.
  refine (proj2 (discriminator_loss_applied_twice quiet_env)
            demo_start demo_end _).
  apply returned. vm_compute. reflexivity.
Defined.

(* ================================================================== *)
(** ** The generator loss *)

Lemma Qgt0_true (q : Q) : (0 < q)%Q -> Qgt0 q = true.
Proof.
  intros H. unfold Qgt0. destruct (Qle_bool q 0) eqn:C; [|reflexivity].
  apply Qle_bool_iff in C. exfalso. exact (Qlt_not_le _ _ H C).
Qed.

Lemma Qgt0_zero (q : Q) : (q == 0)%Q -> Qgt0 q = false.
Proof.
  intros H. unfold Qgt0. replace (Qle_bool q 0) with true; [reflexivity|].
  symmetry. apply Qle_bool_iff. rewrite H. apply Qle_refl.
Qed.

Lemma state_of_bind_Ok {A B} (m : M A) (k : A -> M B) s a s1 :
  m s = Ok a s1 -> state_of (bind m k s) = state_of (k a s1).
Proof. intros H. unfold bind. rewrite H. reflexivity. Qed.

Section GeneratorLoss.

Variable E : Env.

Lemma backward_G_split (s : state) :
  backward_G E s = bind (backward_G_identity E) (fun _ => after_identity E) s.
Proof. reflexivity. Qed.

Lemma after_identity_keeps : preserves identity_part (after_identity E).
Proof.
  unfold identity_part, generator_evals, after_identity.
  repeat apply preserves_pair; unfold_backward_G; unfold_calls; pres.
Qed.

(** C5.  A call of [backward_G] that returns has set [loss_G] to the sum of
    the eight terms loss_G_A, loss_G_B, loss_cycle_A, loss_cycle_B,
    loss_idt_A, loss_idt_B, loss_diff_A and loss_diff_B, and has made one
    back-propagation call, on that sum. *)
Theorem generator_loss_is_sum_of_eight (s s' : state) :
  backward_G E s = Ok tt s' ->
  exists l1 l2 l3 l4 l5 l6 l7 l8,
    losses s' loss_G_A = Some l1 /\ losses s' loss_G_B = Some l2 /\
    losses s' loss_cycle_A = Some l3 /\ losses s' loss_cycle_B = Some l4 /\
    losses s' loss_idt_A = Some l5 /\ losses s' loss_idt_B = Some l6 /\
    losses s' loss_diff_A = Some l7 /\ losses s' loss_diff_B = Some l8 /\
    losses s' loss_G = Some (l1 + l2 + l3 + l4 + l5 + l6 + l7 + l8)%X /\
    backwards_of (trace s')
    = backwards_of (trace s)
      ++ [EvBackward (l1 + l2 + l3 + l4 + l5 + l6 + l7 + l8)%X].
Proof.
  unfold_backward_G. unfold_calls. intros H. cbv zeta in H.
  inv_ok; store; do 8 eexists; repeat (split; [reflexivity|]);
    unfold backwards_of; rewrite !filter_app; cbn [filter is_backward];
    rewrite ?app_nil_r; reflexivity.
Qed.

Lemma identity_disabled (s : state) :
  idt_enabled (opt s) = false ->
  backward_G_identity E s
  = Ok tt (with_losses
             (upd lattr_eq_dec
                (upd lattr_eq_dec (losses s) loss_idt_A (Some (Fin 0)))
                loss_idt_B (Some (Fin 0))) s).
Proof.
  intros H. unfold backward_G_identity, bind, get_opt. cbv zeta.
  unfold idt_enabled in H. rewrite H. reflexivity.
Qed.

Lemma identity_enabled (s : state) xa xb iA dA iB dB iAs dAs iBs dBs
  l1 l2 l3 l4 :
  idt_enabled (opt s) = true ->
  tensors s real_A = Some xa -> tensors s real_B = Some xb ->
  netG_A E xb = Some (iA, dA) -> criterionIdt E iA xb = Some l1 ->
  netG_B E xa = Some (iB, dB) -> criterionIdt E iB xa = Some l2 ->
  netG_A E xa = Some (iAs, dAs) -> criterionIdt E iAs xa = Some l3 ->
  netG_B E xb = Some (iBs, dBs) -> criterionIdt E iBs xb = Some l4 ->
  returns (backward_G_identity E) s (fun _ s1 =>
    losses s1 loss_idt_A
    = Some (l1 * weight (lambda_B (opt s)) * weight (lambda_identity_t (opt s))
            + l3 * weight (lambda_A (opt s))
              * weight (lambda_identity_s (opt s)))%X /\
    losses s1 loss_idt_B
    = Some (l2 * weight (lambda_A (opt s)) * weight (lambda_identity_t (opt s))
            + l4 * weight (lambda_B (opt s))
              * weight (lambda_identity_s (opt s)))%X).
Proof.
  intros Hen HA HB G1 C1 G2 C2 G3 C3 G4 C4.
  unfold backward_G_identity. apply returns_bind, returns_get_opt.
  cbv zeta. unfold idt_enabled in Hen. rewrite Hen.
  unfold_calls.
  run ltac:(fun r => fail).
  split; reflexivity.
Qed.

End GeneratorLoss.

Lemma generator_loss_is_sum_of_eight_witness :
  exists l1 l2 l3 l4 l5 l6 l7 l8,
    losses demo_after_G loss_G_A = Some l1 /\
    losses demo_after_G loss_G_B = Some l2 /\
    losses demo_after_G loss_cycle_A = Some l3 /\
    losses demo_after_G loss_cycle_B = Some l4 /\
    losses demo_after_G loss_idt_A = Some l5 /\
    losses demo_after_G loss_idt_B = Some l6 /\
    losses demo_after_G loss_diff_A = Some l7 /\
    losses demo_after_G loss_diff_B = Some l8 /\
    losses demo_after_G loss_G
    = Some (l1 + l2 + l3 + l4 + l5 + l6 + l7 + l8)%X /\
    backwards_of (trace demo_after_G)
    = backwards_of (trace demo_forwarded)
      ++ [EvBackward (l1 + l2 + l3 + l4 + l5 + l6 + l7 + l8)%X].
Proof.
  refine (@generator_loss_is_sum_of_eight quiet_env demo_forwarded
            demo_after_G _).
  apply returned. vm_compute. reflexivity.
Defined.

(** C6.  With the identity loss enabled, [backward_G] sets
    loss_idt_A = L1(G_A(real_B), real_B) * lambda_B * lambda_identity_t
                 + L1(G_A(real_A), real_A) * lambda_A * lambda_identity_s and
    loss_idt_B = L1(G_B(real_A), real_A) * lambda_A * lambda_identity_t
                 + L1(G_B(real_B), real_B) * lambda_B * lambda_identity_s,
    whatever happens later in the call. *)
Theorem identity_loss_formula (E : Env) (s : state)
  (xa xb iA dA iB dB iAs dAs iBs dBs : tensor) (l1 l2 l3 l4 : xreal) :
  (0 < lambda_identity_t (opt s) \/ 0 < lambda_identity_s (opt s))%Q ->
  tensors s real_A = Some xa -> tensors s real_B = Some xb ->
  netG_A E xb = Some (iA, dA) -> criterionIdt E iA xb = Some l1 ->
  netG_B E xa = Some (iB, dB) -> criterionIdt E iB xa = Some l2 ->
  netG_A E xa = Some (iAs, dAs) -> criterionIdt E iAs xa = Some l3 ->
  netG_B E xb = Some (iBs, dBs) -> criterionIdt E iBs xb = Some l4 ->
  losses (state_of (backward_G E s)) loss_idt_A
  = Some (l1 * weight (lambda_B (opt s)) * weight (lambda_identity_t (opt s))
          + l3 * weight (lambda_A (opt s))
            * weight (lambda_identity_s (opt s)))%X /\
  losses (state_of (backward_G E s)) loss_idt_B
  = Some (l2 * weight (lambda_A (opt s)) * weight (lambda_identity_t (opt s))
          + l4 * weight (lambda_B (opt s))
            * weight (lambda_identity_s (opt s)))%X.
Proof.
  intros Hen HA HB G1 C1 G2 C2 G3 C3 G4 C4.
  assert (Hon : idt_enabled (opt s) = true).
  { unfold idt_enabled. apply orb_true_iff.
    destruct Hen as [H|H]; [left | right]; apply Qgt0_true; exact H. }
  destruct (identity_enabled E s Hon HA HB G1 C1 G2 C2 G3 C3 G4 C4)
    as ([] & s1 & Run & LA & LB).
  rewrite backward_G_split, (@state_of_bind_Ok _ _ _ _ _ _ _ Run).
  pose proof (after_identity_keeps E s1) as K. unfold identity_part in K.
  injection K as KA KB _ _ _ _ _. rewrite KA, KB. auto.
Qed.

Lemma identity_loss_formula_witness :
  losses demo_after_G loss_idt_A
  = Some (Fin 1 * weight 10 * weight (1 # 2)
          + Fin 1 * weight 10 * weight 0)%X /\
  losses demo_after_G loss_idt_B
  = Some (Fin 1 * weight 10 * weight (1 # 2)
          + Fin 1 * weight 10 * weight 0)%X.
Proof.
  refine (@identity_loss_formula quiet_env demo_forwarded
            (pixel 1) (pixel 1) (pixel 1) (pixel 2) (pixel 1) (pixel 3)
            (pixel 1) (pixel 2) (pixel 1) (pixel 3)
            (Fin 1) (Fin 1) (Fin 1) (Fin 1) _ _ _ _ _ _ _ _ _ _ _);
    try reflexivity.
  left. reflexivity.
Defined.

(** C8.  With lambda_identity_t = lambda_identity_s = 0, [backward_G] sets
    loss_idt_A and loss_idt_B to zero, evaluates no generator and leaves
    idt_A, idt_B, idt_A_s and idt_B_s as they were (unassigned on a fresh
    model). *)
Theorem identity_loss_disabled (E : Env) (s : state) :
  (lambda_identity_t (opt s) == 0)%Q ->
  (lambda_identity_s (opt s) == 0)%Q ->
  losses (state_of (backward_G E s)) loss_idt_A = Some (Fin 0) /\
  losses (state_of (backward_G E s)) loss_idt_B = Some (Fin 0) /\
  generator_evals (trace (state_of (backward_G E s)))
  = generator_evals (trace s) /\
  tensors (state_of (backward_G E s)) idt_A = tensors s idt_A /\
  tensors (state_of (backward_G E s)) idt_B = tensors s idt_B /\
  tensors (state_of (backward_G E s)) idt_A_s = tensors s idt_A_s /\
  tensors (state_of (backward_G E s)) idt_B_s = tensors s idt_B_s.
Proof.
  intros Ht Hs.
  assert (Hoff : idt_enabled (opt s) = false).
  { unfold idt_enabled. rewrite (Qgt0_zero Ht), (Qgt0_zero Hs).
    reflexivity. }
  rewrite backward_G_split,
    (@state_of_bind_Ok _ _ _ _ _ _ _ (identity_disabled E s Hoff)).
  match goal with
  | |- context [state_of (after_identity E ?s1)] =>
      pose proof (after_identity_keeps E s1) as K
  end.
  unfold identity_part in K. injection K as KA KB K1 K2 K3 K4 KG.
  rewrite KA, KB, K1, K2, K3, K4, KG. repeat split.
Qed.

Lemma identity_loss_disabled_witness :
  losses (state_of (backward_G quiet_env demo_no_idt)) loss_idt_A
  = Some (Fin 0) /\
  losses (state_of (backward_G quiet_env demo_no_idt)) loss_idt_B
  = Some (Fin 0) /\
  generator_evals (trace (state_of (backward_G quiet_env demo_no_idt)))
  = generator_evals (trace demo_no_idt) /\
  tensors (state_of (backward_G quiet_env demo_no_idt)) idt_A
  = tensors demo_no_idt idt_A /\
  tensors (state_of (backward_G quiet_env demo_no_idt)) idt_B
  = tensors demo_no_idt idt_B /\
  tensors (state_of (backward_G quiet_env demo_no_idt)) idt_A_s
  = tensors demo_no_idt idt_A_s /\
  tensors (state_of (backward_G quiet_env demo_no_idt)) idt_B_s
  = tensors demo_no_idt idt_B_s.
Proof.
  refine (@identity_loss_disabled quiet_env demo_no_idt _ _); reflexivity.
Defined.

(* ================================================================== *)
(** ** Training without reference difference maps *)

Lemma ends_raises {A} (m : M A) (s : state) (P : exn -> state -> Prop) :
  ends m s (fun o => match o with
                     | Ok _ _ => False
                     | Raise e s2 => P e s2
                     end) ->
  exists e s2, m s = Raise e s2 /\ P e s2.
Proof.
  unfold ends. destruct (m s) as [a s2|e s2]; [contradiction|].
  intros H. exists e, s2. auto.
Qed.

Lemma input_tensor_Ok input k (s s' : state) (t : tensor) :
  input_tensor input k s = Ok t s' -> s' = s.
Proof.
  unfold input_tensor. destruct (lookup k input) as [[x|p]|]; cbn; intros H;
    [injection H as _ ->; reflexivity | discriminate H | discriminate H].
Qed.

Lemma input_item_Ok input k (s s' : state) (v : value) :
  input_item input k s = Ok v s' -> s' = s.
Proof.
  unfold input_item. destruct (lookup k input); cbn; intros H;
    [injection H as _ ->; reflexivity | discriminate H].
Qed.

Lemma set_image_paths_Ok p (s s' : state) (u : unit) :
  set_image_paths p s = Ok u s' -> s' = with_image_paths (Some p) s.
Proof. unfold set_image_paths. intros H. injection H as _ ->. reflexivity. Qed.

Ltac inv_input :=
  repeat first
    [ progress inv_ok
    | match goal with
      | H : input_tensor _ _ _ = Ok _ _ |- _ =>
          apply input_tensor_Ok in H; subst
      | H : input_item _ _ _ = Ok _ _ |- _ =>
          apply input_item_Ok in H; subst
      | H : set_image_paths _ _ = Ok _ _ |- _ =>
          apply set_image_paths_Ok in H; subst; store
      end ].

(** On unpaired images, and on remote-sensing images outside the training
    phase, [set_input] assigns the two images and no reference difference
    map. *)
Lemma set_input_without_refs (input : dict) (s0 s1 : state) (u : unit) :
  dataset_type (opt s0) = "common_images"%string \/
  (dataset_type (opt s0) = "remote_sensing_images"%string /\
   phase (opt s0) <> "train"%string) ->
  set_input input s0 = Ok u s1 ->
  tensors s1 real_diff_A = tensors s0 real_diff_A /\
  (exists a b, tensors s1 real_A = Some a /\ tensors s1 real_B = Some b).
Proof.
  intros Hd H. unfold set_input in H.
  apply bind_Ok in H. destruct H as (o & s' & Ho & H).
  apply get_opt_Ok in Ho. destruct Ho as [-> ->].
  destruct Hd as [D | [D P]]; rewrite D in H.
  - change (String.eqb "common_images" "common_images") with true in H.
    change (String.eqb "common_images" "remote_sensing_images")
      with false in H.
    inv_input. store. split; [reflexivity | eauto].
  - change (String.eqb "remote_sensing_images" "common_images")
      with false in H.
    change (String.eqb "remote_sensing_images" "remote_sensing_images")
      with true in H.
    destruct (String.eqb (phase (opt s0)) "train") eqn:Ph.
    + apply String.eqb_eq in Ph. contradiction.
    + inv_input. store. split; [reflexivity | eauto].
Qed.

Section MissingReference.

Variable E : Env.

Lemma optimize_parameters_without_refs (s : state) (a b : tensor) :
  tensors s real_diff_A = None ->
  tensors s real_A = Some a -> tensors s real_B = Some b ->
  exists e s2,
    optimize_parameters E s = Raise e s2 /\
    (forall n, updates s2 n = updates s n) /\
    steps_of (trace s2) = steps_of (trace s) /\
    (e = AttributeError (AImage real_diff_A) \/ exists c, e = Raised c) /\
    ((forall x, netG_A E x <> None) -> (forall x, netG_B E x <> None) ->
     (forall x y, criterionIdt E x y <> None) ->
     e = AttributeError (AImage real_diff_A)).
Proof.
  intros Hnone HA HB. apply ends_raises.
  unfold optimize_parameters, forward. unfold_backward_G. unfold_calls.
  repeat explore_step.
  all: store_goal.
  all: split; [intros n; reflexivity|].
  all: split;
    [unfold steps_of; rewrite !filter_app; cbn [filter is_step];
     rewrite ?app_nil_r; reflexivity|].
  all: split; [first [left; reflexivity | right; eexists; reflexivity]|].
  all: intros T1 T2 T3;
    first [ reflexivity
          | exfalso; eapply T1; eassumption
          | exfalso; eapply T2; eassumption
          | exfalso; eapply T3; eassumption ].
Qed.

End MissingReference.

(** C10.  When [set_input] ran with dataset_type 'common_images', or with
    remote-sensing data outside the training phase, on a model whose
    real_diff_A was never assigned, the next call of [optimize_parameters]
    raises before any optimizer step: no network is updated, and the
    exception is the undefined attribute real_diff_A unless a generator or
    the identity criterion raised first. *)
Theorem missing_reference_maps_abort_iteration
  (E : Env) (input : dict) (s0 s1 : state) :
  tensors s0 real_diff_A = None ->
  dataset_type (opt s0) = "common_images"%string \/
  (dataset_type (opt s0) = "remote_sensing_images"%string /\
   phase (opt s0) <> "train"%string) ->
  set_input input s0 = Ok tt s1 ->
  exists e s2,
    optimize_parameters E s1 = Raise e s2 /\
    (forall n, updates s2 n = updates s1 n) /\
    steps_of (trace s2) = steps_of (trace s1) /\
    (e = AttributeError (AImage real_diff_A) \/ exists c, e = Raised c) /\
    ((forall x, netG_A E x <> None) -> (forall x, netG_B E x <> None) ->
     (forall x y, criterionIdt E x y <> None) ->
     e = AttributeError (AImage real_diff_A)).
Proof.
  intros Hnone Hd Hset.
  destruct (@set_input_without_refs input s0 s1 tt Hd Hset)
    as (Hr & a & b & HA & HB).
  rewrite Hnone in Hr.
  exact (@optimize_parameters_without_refs E s1 a b Hr HA HB).
Qed.

Lemma missing_reference_maps_abort_iteration_witness :
  exists e s2,
    optimize_parameters quiet_env demo_common = Raise e s2 /\
    (forall n, updates s2 n = updates demo_common n) /\
    steps_of (trace s2) = steps_of (trace demo_common) /\
    (e = AttributeError (AImage real_diff_A) \/ exists c, e = Raised c) /\
    ((forall x, netG_A quiet_env x <> None) ->
     (forall x, netG_B quiet_env x <> None) ->
     (forall x y, criterionIdt quiet_env x y <> None) ->
     e = AttributeError (AImage real_diff_A)).
Proof.
  refine (@missing_reference_maps_abort_iteration quiet_env demo_input
            demo_common_built demo_common _ _ _).
  - vm_compute. reflexivity.
  - left. vm_compute. reflexivity.
  - apply returned. vm_compute. reflexivity.
Defined.

(* ================================================================== *)
(** ** The channel check of the constructor *)






(** The two ways construction fails on 14 against 3 channels: with the
    source identity weight alone the summary of D_A raises, and with the
    target identity weight as well. *)
Example construction_rejects_source_identity :
  __init__ quiet_env source_idt_opt = Fail (Raised (CSummary D_A)).
Proof. vm_compute. reflexivity. Qed.

Example construction_rejects_target_identity :
  __init__ quiet_env target_idt_opt = Fail (Raised (CSummary D_A)).
Proof. vm_compute. reflexivity. Qed.

(* ================================================================== *)
(** ** The difference-consistency loss in [backward_G] *)

Section DifferenceLoss.

Variable E : Env.

(** A call that returns has set loss_diff_A to the weighted term of the
    difference maps it found. *)
Lemma backward_G_diff_A (s s' : state) (u : unit) (dA rA : tensor) :
  backward_G E s = Ok u s' ->
  tensors s diff_A = Some dA -> tensors s real_diff_A = Some rA ->
  exists g,
    normalized_gap dA rA = Some g /\
    losses s' loss_diff_A
    = Some (g * weight (lambda_A (opt s)) * weight (lambda_diff_s (opt s)))%X.
Proof.
  unfold_backward_G. unfold_calls. intros H HD HR. cbv zeta in H.
  inv_ok; store;
    repeat match goal with
           | H1 : tensors s ?a = Some ?x, H2 : tensors s ?a = Some ?y |- _ =>
               rewrite H1 in H2; injection H2 as H2; try subst
           end;
    unfold normalized_gap;
    repeat match goal with
           | H1 : div_bcast _ _ = Some _ |- _ => rewrite H1; clear H1
           end;
    eexists; (split; [eassumption | reflexivity]).
Qed.

(** With collaborators that do not raise, all images assigned and shapes
    that broadcast, [backward_G] returns. *)
Lemma backward_G_returns (s : state)
  (xa xb rA rB fB dA cA fA dB cB : tensor) (gA gB : xreal) :
  never_raise E ->
  tensors s real_A = Some xa -> tensors s real_B = Some xb ->
  tensors s real_diff_A = Some rA -> tensors s real_diff_B = Some rB ->
  tensors s fake_B = Some fB -> tensors s diff_A = Some dA ->
  tensors s rec_A = Some cA -> tensors s fake_A = Some fA ->
  tensors s diff_B = Some dB -> tensors s rec_B = Some cB ->
  normalized_gap dA rA = Some gA -> normalized_gap dB rB = Some gB ->
  returns (backward_G E) s (fun _ s' =>
    losses s' loss_diff_A
    = Some (gA * weight (lambda_A (opt s)) * weight (lambda_diff_s (opt s)))%X
    /\
    losses s' loss_diff_B
    = Some (gB * weight (lambda_B (opt s)) * weight (lambda_diff_t (opt s)))%X
    /\
    exists l1 l2 l3 l4 l5 l6,
      losses s' loss_G
      = Some (l1 + l2 + l3 + l4 + l5 + l6
              + gA * weight (lambda_A (opt s)) * weight (lambda_diff_s (opt s))
              + gB * weight (lambda_B (opt s))
                * weight (lambda_diff_t (opt s)))%X).
Proof.
  intros (NGA & NGB & NDA & NDB & NGAN & NCYC & NIDT).
  intros HxA HxB HrA HrB HfB HdA HcA HfA HdB HcB GA GB.
  unfold normalized_gap in GA, GB.
  destruct (div_bcast dA (sample_norms dA)) as [nA|] eqn:DA;
    [|discriminate GA].
  destruct (div_bcast rA (sample_norms rA)) as [mA|] eqn:RA;
    [|discriminate GA].
  destruct (div_bcast dB (sample_norms dB)) as [nB|] eqn:DB;
    [|discriminate GB].
  destruct (div_bcast rB (sample_norms rB)) as [mB|] eqn:RB;
    [|discriminate GB].
  unfold_backward_G. unfold_calls.
  run ltac:(fun r =>
    let N := fresh "Call" in
    destruct r eqn:N;
    [| exfalso;
       first [ exact (NGA _ N) | exact (NGB _ N) | exact (NDA _ N)
             | exact (NDB _ N) | exact (NGAN _ _ N) | exact (NCYC _ _ N)
             | exact (NIDT _ _ N) ] ]).
  all: store_goal; (split; [reflexivity|]); (split; [reflexivity|]);
    do 6 eexists; reflexivity.
Qed.

End DifferenceLoss.

(** *** Parallel difference maps *)

(** For a batch of one sample the loss of parallel maps is zero. *)
Lemma difference_loss_parallel_batch_of_one
  (E : Env) (s s' : state) (dA rA : tensor) :
  parallel dA rA -> dim0 rA = 1%nat ->
  tensors s diff_A = Some dA -> tensors s real_diff_A = Some rA ->
  backward_G E s = Ok tt s' ->
  losses s' loss_diff_A = Some (Fin 0).
Proof.
  intros Hp Hb HD HR Run.
  destruct (backward_G_diff_A _ _ Run HD HR) as (g & Hg & HL).
  rewrite (normalized_gap_parallel Hp Hb) in Hg. injection Hg as <-.
  rewrite HL. cbn. f_equal. f_equal. ring.
Qed.

Example difference_loss_parallel_pixel :
  losses demo_after_G loss_diff_A = Some (Fin 0).
Proof.
  refine (@difference_loss_parallel_batch_of_one quiet_env demo_forwarded
            demo_after_G (pixel 2) (pixel 1) _ _ _ _ _).
  2: reflexivity.
  2, 3: vm_compute; reflexivity.
  - split; [repeat split|]. intros b Hb. cbn in Hb.
    assert (b = 0)%nat by lia. subst b.
    exists 2%R, 1%R, (fun _ _ _ => 1%R).
    split; [lra|]. split; [lra|]. split.
    + unfold sample_norms, mean_dims12, norm_dim1, pixel. eval_items.
      rewrite !xsqrt_sq. cbn [xadd xlift2]. rewrite xdiv_fin by (cbn; lra).
      f_equal. rewrite Rabs_right by lra. cbn. field.
    + intros c h w0 Hc Hh Hw. cbn in Hc, Hh, Hw.
      assert (c = 0 /\ h = 0 /\ w0 = 0)%nat as (-> & -> & ->) by lia.
      cbn. split; [reflexivity | f_equal; ring].
  - apply returned. vm_compute. reflexivity.
Qed.

Lemma Q2R_10 : Q2R 10 = 10%R.
Proof. unfold Q2R. cbn. field. Qed.

Lemma Q2R_1 : Q2R 1 = 1%R.
Proof. unfold Q2R. cbn. field. Qed.

(** C7 does not hold for a batch of two.  When the generated difference
    maps of the two samples are 1 and 2 times the reference maps, every
    sample is parallel to its reference with positive norms, and
    [backward_G] returns with loss_diff_A = 15/4, not zero: the vector of
    per-sample norms is broadcast along the width axis instead of the batch
    axis. *)
Theorem difference_loss_batch_of_two :
  parallel gen2 ref2 /\
  tensors batch2_forwarded diff_A = Some gen2 /\
  tensors batch2_forwarded real_diff_A = Some ref2 /\
  backward_G batch2_env batch2_forwarded = Ok tt batch2_after_G /\
  losses batch2_after_G loss_diff_A = Some (Fin (15 / 4)).
Proof.
  assert (HD : tensors batch2_forwarded diff_A = Some gen2)
    by (vm_compute; reflexivity).
  assert (HR : tensors batch2_forwarded real_diff_A = Some ref2)
    by (vm_compute; reflexivity).
  assert (Run : backward_G batch2_env batch2_forwarded
                = Ok tt batch2_after_G)
    by (apply returned; vm_compute; reflexivity).
  assert (HO : opt batch2_forwarded = default_opt)
    by (vm_compute; reflexivity).
  split; [exact parallel_gen2_ref2|].
  split; [exact HD|]. split; [exact HR|]. split; [exact Run|].
  destruct (backward_G_diff_A _ _ Run HD HR) as (g & Hg & HL).
  rewrite normalized_gap_batch_of_two in Hg. injection Hg as <-.
  rewrite HL, HO. cbn [lambda_A lambda_diff_s default_opt].
  unfold weight. rewrite Q2R_10, Q2R_1. cbn. f_equal. f_equal. field.
Qed.

(** When the batch size is neither 1 nor the width, the normalization of
    line 220 raises: the sizes do not broadcast. *)
Example normalization_rejects_batch_2_width_3 :
  div_bcast ref23 (sample_norms ref23) = None.
Proof. reflexivity. Qed.

(** *** Zero norms *)

Lemma never_raise_quiet_env : never_raise quiet_env.
Proof. repeat split; intros; discriminate. Qed.

Lemma zero_norm_pixel_0 : zero_norm (pixel 0).
Proof.
  exists 0%nat. split; [cbn; lia|].
  unfold sample_norms, mean_dims12, norm_dim1, pixel. eval_items.
  rewrite !xsqrt_sq. cbn [xadd xlift2]. rewrite xdiv_fin by (cbn; lra).
  f_equal. rewrite Rabs_R0. cbn. field.
Qed.

(** C9.  With collaborators that do not raise, all images assigned and
    difference maps whose shapes broadcast, a zero per-sample norm of a
    reference or generated difference map raises nothing: [backward_G]
    divides by it, returns normally, and the loss of that domain and the
    combined loss loss_G are non-finite. *)
Theorem zero_norm_gives_non_finite_loss (E : Env) (s : state)
  (xa xb rA rB fB dA cA fA dB cB : tensor) :
  never_raise E ->
  tensors s real_A = Some xa -> tensors s real_B = Some xb ->
  tensors s real_diff_A = Some rA -> tensors s real_diff_B = Some rB ->
  tensors s fake_B = Some fB -> tensors s diff_A = Some dA ->
  tensors s rec_A = Some cA -> tensors s fake_A = Some fA ->
  tensors s diff_B = Some dB -> tensors s rec_B = Some cB ->
  normalizable dA rA -> normalizable dB rB ->
  zero_norm rA \/ zero_norm dA \/ zero_norm rB \/ zero_norm dB ->
  exists s',
    backward_G E s = Ok tt s' /\
    losses s' loss_G = Some NonFinite /\
    (zero_norm rA \/ zero_norm dA ->
     losses s' loss_diff_A = Some NonFinite) /\
    (zero_norm rB \/ zero_norm dB ->
     losses s' loss_diff_B = Some NonFinite).
Proof.
  intros NR HxA HxB HrA HrB HfB HdA HcA HfA HdB HcB NA NB Hz.
  destruct NA as (DefA & CdA & CrA). destruct NB as (DefB & CdB & CrB).
  destruct (normalized_gap dA rA) as [gA|] eqn:GA; [|contradiction].
  destruct (normalized_gap dB rB) as [gB|] eqn:GB; [|contradiction].
  destruct (@backward_G_returns E s xa xb rA rB fB dA cA fA dB cB gA gB
              NR HxA HxB HrA HrB HfB HdA HcA HfA HdB HcB GA GB)
    as ([] & s' & Run & LA & LB & l1 & l2 & l3 & l4 & l5 & l6 & LG).
  assert (ZA : zero_norm rA \/ zero_norm dA -> gA = NonFinite)
    by (intros Z; exact (@normalized_gap_zero_norm _ _ _ GA CdA CrA Z)).
  assert (ZB : zero_norm rB \/ zero_norm dB -> gB = NonFinite)
    by (intros Z; exact (@normalized_gap_zero_norm _ _ _ GB CdB CrB Z)).
  exists s'. split; [exact Run|]. split; [|split].
  - rewrite LG. f_equal.
    destruct Hz as [Z | [Z | [Z | Z]]].
    + rewrite (ZA (or_introl Z)). cbn. rewrite xadd_nonfinite_r. reflexivity.
    + rewrite (ZA (or_intror Z)). cbn. rewrite xadd_nonfinite_r. reflexivity.
    + rewrite (ZB (or_introl Z)). cbn. apply xadd_nonfinite_r.
    + rewrite (ZB (or_intror Z)). cbn. apply xadd_nonfinite_r.
  - intros Z. rewrite LA, (ZA Z). reflexivity.
  - intros Z. rewrite LB, (ZB Z). reflexivity.
Qed.

Lemma zero_norm_gives_non_finite_loss_witness :
  exists s',
    backward_G quiet_env zero_ref_forwarded = Ok tt s' /\
    losses s' loss_G = Some NonFinite /\
    (zero_norm (pixel 0) \/ zero_norm (pixel 2) ->
     losses s' loss_diff_A = Some NonFinite) /\
    (zero_norm (pixel 1) \/ zero_norm (pixel 3) ->
     losses s' loss_diff_B = Some NonFinite).
Proof.
  refine (@zero_norm_gives_non_finite_loss quiet_env zero_ref_forwarded
            (pixel 1) (pixel 1) (pixel 0) (pixel 1)
            (pixel 1) (pixel 2) (pixel 1) (pixel 1) (pixel 3) (pixel 1)
            never_raise_quiet_env _ _ _ _ _ _ _ _ _ _
            (normalizable_pixels 2 0) (normalizable_pixels 3 1)
            (or_introl zero_norm_pixel_0));
    vm_compute; reflexivity.
Defined.

(* ================================================================== *)
(** * Further properties *)

(** ** Command-line options *)

Lemma find_app {A} (P : A -> bool) (l1 l2 : list A) :
  find P (l1 ++ l2)
  = match find P l1 with Some x => Some x | None => find P l2 end.
Proof.
  induction l1 as [|a l1 IH]; [reflexivity|].
  cbn. destruct (P a); [reflexivity | exact IH].
Qed.

Lemma conflicts_set_defaults flag d v p :
  conflicts flag (set_defaults d v p) = conflicts flag p.
Proof.
  unfold conflicts, set_defaults. cbn [actions].
  induction (actions p) as [|a l IH]; [reflexivity|].
  cbn [map existsb]. rewrite IH.
  destruct (String.eqb (dest a) d); reflexivity.
Qed.

Lemma conflicts_app flag l1 l2 ds :
  conflicts flag (mkParser (l1 ++ l2) ds)
  = conflicts flag (mkParser l1 ds) || conflicts flag (mkParser l2 ds).
Proof. unfold conflicts. cbn [actions]. apply existsb_app. Qed.

(** The default of a destination other than [d] is not changed by
    [set_defaults] on [d]. *)
Lemma get_default_set_defaults_other d v p d' :
  d' <> d -> get_default (set_defaults d v p) d' = get_default p d'.
Proof.
  intros Hd. unfold get_default, set_defaults. cbn [actions parser_defaults].
  assert (Hassoc : assoc d' ((d, v) :: parser_defaults p)
                   = assoc d' (parser_defaults p)).
  { cbn. destruct (String.eqb d' d) eqn:C; [|reflexivity].
    apply String.eqb_eq in C. contradiction. }
  rewrite Hassoc. clear Hassoc.
  induction (actions p) as [|a l IH]; [reflexivity|].
  cbn [map find].
  destruct (String.eqb (dest a) d) eqn:C.
  - apply String.eqb_eq in C. cbn [dest default].
    assert (C' : String.eqb (dest a) d' = false)
      by (apply String.eqb_neq; congruence).
    rewrite C'. cbn [andb]. exact IH.
  - destruct (String.eqb (dest a) d' && _); [reflexivity | exact IH].
Qed.

Lemma get_default_set_defaults d v p :
  get_default (set_defaults d v p) d = Some v.
Proof.
  unfold get_default, set_defaults. cbn [actions parser_defaults].
  induction (actions p) as [|a l IH].
  - cbn. rewrite String.eqb_refl. reflexivity.
  - cbn [map find]. destruct (String.eqb (dest a) d) eqn:C.
    + cbn [dest default]. rewrite C. reflexivity.
    + rewrite C. cbn [andb]. exact IH.
Qed.

(** An argument appended to the parser gives the default of its
    destination when no earlier argument has that destination. *)
Lemma get_default_fresh (l : list argument) d :
  (forall a, In a l -> dest a <> d) ->
  find (fun a => String.eqb (dest a) d
                 && match default a with Some _ => true | None => false end)
       l = None.
Proof.
  intros H. induction l as [|a l IH]; [reflexivity|].
  cbn. destruct (String.eqb (dest a) d) eqn:C.
  - apply String.eqb_eq in C. exfalso. exact (H a (or_introl eq_refl) C).
  - cbn. apply IH. intros b Hb. apply H. right. exact Hb.
Qed.

Lemma dest_set_defaults d v p a :
  In a (actions (set_defaults d v p)) ->
  exists a0, In a0 (actions p) /\ dest a = dest a0.
Proof.
  unfold set_defaults. cbn [actions]. rewrite in_map_iff.
  intros (a0 & <- & Hin). exists a0. split; [exact Hin|].
  destruct (String.eqb (dest a0) d); reflexivity.
Qed.

(** What the six declarations do to a parser on which none conflicts. *)
Lemma declare_weights (q : ArgumentParser) :
  (forall flag, In flag weight_flags -> conflicts flag q = false) ->
  declare (add_argument "--lambda_A" (PyFloat 10) q) (fun parser =>
  declare (add_argument "--lambda_B" (PyFloat 10) parser) (fun parser =>
  declare (add_argument "--lambda_identity_t" (PyFloat (1 # 2)) parser)
    (fun parser =>
  declare (add_argument "--lambda_identity_s" (PyInt 0) parser)
    (fun parser =>
  declare (add_argument "--lambda_diff_s" (PyInt 1) parser) (fun parser =>
  add_argument "--lambda_diff_t" (PyInt 1) parser)))))
  = Declared
      (mkParser
         (actions q
          ++ [mkArgument ["--lambda_A"]%string "lambda_A" (Some (PyFloat 10));
              mkArgument ["--lambda_B"]%string "lambda_B" (Some (PyFloat 10));
              mkArgument ["--lambda_identity_t"]%string "lambda_identity_t"
                (Some (PyFloat (1 # 2)));
              mkArgument ["--lambda_identity_s"]%string "lambda_identity_s"
                (Some (PyInt 0));
              mkArgument ["--lambda_diff_s"]%string "lambda_diff_s"
                (Some (PyInt 1));
              mkArgument ["--lambda_diff_t"]%string "lambda_diff_t"
                (Some (PyInt 1))])
         (parser_defaults q)).
Proof.
  intros H.
  assert (H1 := H "--lambda_A"%string). assert (H2 := H "--lambda_B"%string).
  assert (H3 := H "--lambda_identity_t"%string).
  assert (H4 := H "--lambda_identity_s"%string).
  assert (H5 := H "--lambda_diff_s"%string).
  assert (H6 := H "--lambda_diff_t"%string).
  cbn [weight_flags In] in H1, H2, H3, H4, H5, H6.
  assert (Hq : forall flag, conflicts flag q
                            = conflicts flag (mkParser (actions q)
                                                (parser_defaults q)))
    by (intros; reflexivity).
  rewrite Hq in H1, H2, H3, H4, H5, H6.
  unfold add_argument at 1. rewrite Hq, H1 by tauto. cbn [declare].
  unfold add_argument at 1. cbn [actions parser_defaults].
  rewrite conflicts_app, H2 by tauto. cbn [orb declare].
  change (conflicts "--lambda_B" (mkParser _ (parser_defaults q)))
    with false at 1. cbn [declare].
  unfold add_argument at 1. cbn [actions parser_defaults].
  rewrite <- !app_assoc, conflicts_app, H3 by tauto. cbn [orb declare app].
  change (conflicts "--lambda_identity_t" (mkParser _ (parser_defaults q)))
    with false at 1. cbn [declare].
  unfold add_argument at 1. cbn [actions parser_defaults].
  rewrite <- !app_assoc, conflicts_app, H4 by tauto. cbn [orb declare app].
  change (conflicts "--lambda_identity_s" (mkParser _ (parser_defaults q)))
    with false at 1. cbn [declare].
  unfold add_argument at 1. cbn [actions parser_defaults].
  rewrite <- !app_assoc, conflicts_app, H5 by tauto. cbn [orb declare app].
  change (conflicts "--lambda_diff_s" (mkParser _ (parser_defaults q)))
    with false at 1. cbn [declare].
  unfold add_argument at 1. cbn [actions parser_defaults].
  rewrite <- !app_assoc, conflicts_app, H6 by tauto. cbn [orb declare app].
  change (conflicts "--lambda_diff_t" (mkParser _ (parser_defaults q)))
    with false at 1.
  reflexivity.
Qed.

Lemma conflicts_weights_set_defaults (p : ArgumentParser) :
  (forall flag, In flag weight_flags -> conflicts flag p = false) ->
  forall flag, In flag weight_flags ->
    conflicts flag (set_defaults "no_dropout" (PyBool true) p) = false.
Proof. intros H flag Hin. rewrite conflicts_set_defaults. auto. Qed.

(** The six declarations go through only when none conflicts. *)
Lemma declare_weights_Declared (q p' : ArgumentParser) :
  declare (add_argument "--lambda_A" (PyFloat 10) q) (fun parser =>
  declare (add_argument "--lambda_B" (PyFloat 10) parser) (fun parser =>
  declare (add_argument "--lambda_identity_t" (PyFloat (1 # 2)) parser)
    (fun parser =>
  declare (add_argument "--lambda_identity_s" (PyInt 0) parser)
    (fun parser =>
  declare (add_argument "--lambda_diff_s" (PyInt 1) parser) (fun parser =>
  add_argument "--lambda_diff_t" (PyInt 1) parser)))))
  = Declared p' ->
  forall flag, In flag weight_flags -> conflicts flag q = false.
Proof.
  intros H flag Hin.
  assert (Hq : forall flag ds, conflicts flag (mkParser (actions q) ds)
                               = conflicts flag q) by reflexivity.
  unfold add_argument at 1 in H.
  destruct (conflicts "--lambda_A" q) eqn:C1; [discriminate H|].
  cbn [declare] in H.
  unfold add_argument at 1 in H. cbn [actions parser_defaults] in H.
  rewrite conflicts_app, Hq in H.
  destruct (conflicts "--lambda_B" q) eqn:C2; [discriminate H|].
  cbn [orb] in H.
  change (conflicts "--lambda_B" (mkParser _ (parser_defaults q)))
    with false in H at 1. cbn [declare] in H.
  unfold add_argument at 1 in H. cbn [actions parser_defaults] in H.
  rewrite <- !app_assoc, conflicts_app, Hq in H.
  destruct (conflicts "--lambda_identity_t" q) eqn:C3; [discriminate H|].
  cbn [orb app] in H.
  change (conflicts "--lambda_identity_t" (mkParser _ (parser_defaults q)))
    with false in H at 1. cbn [declare] in H.
  unfold add_argument at 1 in H. cbn [actions parser_defaults] in H.
  rewrite <- !app_assoc, conflicts_app, Hq in H.
  destruct (conflicts "--lambda_identity_s" q) eqn:C4; [discriminate H|].
  cbn [orb app] in H.
  change (conflicts "--lambda_identity_s" (mkParser _ (parser_defaults q)))
    with false in H at 1. cbn [declare] in H.
  unfold add_argument at 1 in H. cbn [actions parser_defaults] in H.
  rewrite <- !app_assoc, conflicts_app, Hq in H.
  destruct (conflicts "--lambda_diff_s" q) eqn:C5; [discriminate H|].
  cbn [orb app] in H.
  change (conflicts "--lambda_diff_s" (mkParser _ (parser_defaults q)))
    with false in H at 1. cbn [declare] in H.
  unfold add_argument at 1 in H. cbn [actions parser_defaults] in H.
  rewrite <- !app_assoc, conflicts_app, Hq in H.
  destruct (conflicts "--lambda_diff_t" q) eqn:C6; [discriminate H|].
  cbn [weight_flags In] in Hin.
  destruct Hin as [<- | [<- | [<- | [<- | [<- | [<- | []]]]]]]; assumption.
Qed.

(** Arguments appended to the parser leave the defaults of other
    destinations as they are. *)
Lemma get_default_app_other (q : ArgumentParser) (l : list argument) d :
  (forall a, In a l -> dest a <> d) ->
  get_default (mkParser (actions q ++ l) (parser_defaults q)) d
  = get_default q d.
Proof.
  intros Hl. unfold get_default. cbn [actions parser_defaults].
  rewrite find_app, (get_default_fresh l Hl).
  destruct (find _ (actions q)); reflexivity.
Qed.

Lemma undeclared_dest (p : ArgumentParser) (d : string) :
  undeclared p -> In d weight_names ->
  forall a, In a (actions (set_defaults "no_dropout" (PyBool true) p)) ->
            dest a <> d.
Proof.
  intros [_ H] Hd a Ha.
  destruct (dest_set_defaults _ _ _ _ Ha) as (a0 & Hin & ->).
  intros C. apply (H a0 Hin). rewrite C. exact Hd.
Qed.

Lemma undeclared_base_parser : undeclared base_parser.
Proof.
  split.
  - intros flag Hin. cbn [weight_flags In] in Hin.
    destruct Hin as [<- | [<- | [<- | [<- | [<- | [<- | []]]]]]];
      reflexivity.
  - intros a Hin. cbn [base_parser actions In] in Hin.
    destruct Hin as [<- | [<- | []]]; cbn; intros H;
      repeat (destruct H as [H | H]; [discriminate H|]); exact H.
Qed.

(** X1.  Declaring the training options fails exactly when one of the six
    option strings is already taken; for testing nothing is declared, so
    nothing can fail. *)
Theorem training_options_need_free_flags (p : ArgumentParser) :
  ((exists p', modify_commandline_options p true = Declared p')
   <-> (forall flag, In flag weight_flags -> conflicts flag p = false))
  /\ (exists p', modify_commandline_options p false = Declared p').
Proof.
  split; [split|].
  - intros (p' & H) flag Hin.
    rewrite <- (conflicts_set_defaults flag "no_dropout" (PyBool true) p).
    exact (@declare_weights_Declared _ _ H flag Hin).
  - intros H. unfold modify_commandline_options. cbv zeta.
    rewrite declare_weights by (apply conflicts_weights_set_defaults, H).
    eexists. reflexivity.
  - eexists. reflexivity.
Qed.

(** X2.  On a parser that declares none of the six weights yet, the training
    options are declared with the defaults 10, 10, 0.5, 0, 1 and 1: by default
    the identity loss is on for the target weight only. *)
Theorem training_options_defaults (p : ArgumentParser) :
  undeclared p ->
  exists p',
    modify_commandline_options p true = Declared p' /\
    get_default p' "lambda_A" = Some (PyFloat 10) /\
    get_default p' "lambda_B" = Some (PyFloat 10) /\
    get_default p' "lambda_identity_t" = Some (PyFloat (1 # 2)) /\
    get_default p' "lambda_identity_s" = Some (PyInt 0) /\
    get_default p' "lambda_diff_s" = Some (PyInt 1) /\
    get_default p' "lambda_diff_t" = Some (PyInt 1).
Proof.
  intros U. eexists. split.
  { unfold modify_commandline_options. cbv zeta.
    apply declare_weights, conflicts_weights_set_defaults, U. }
  set (q := set_defaults "no_dropout" (PyBool true) p).
  assert (F : forall d, In d weight_names ->
                find (fun a => String.eqb (dest a) d
                               && match default a with
                                  | Some _ => true
                                  | None => false
                                  end) (actions q) = None).
  { intros d Hd. apply get_default_fresh. apply undeclared_dest; assumption. }
  unfold get_default. cbn [actions parser_defaults].
  repeat split; (rewrite find_app, F; [reflexivity | cbn; tauto]).
Qed.

Lemma training_options_defaults_witness :
  exists p',
    modify_commandline_options base_parser true = Declared p' /\
    get_default p' "lambda_A" = Some (PyFloat 10) /\
    get_default p' "lambda_B" = Some (PyFloat 10) /\
    get_default p' "lambda_identity_t" = Some (PyFloat (1 # 2)) /\
    get_default p' "lambda_identity_s" = Some (PyInt 0) /\
    get_default p' "lambda_diff_s" = Some (PyInt 1) /\
    get_default p' "lambda_diff_t" = Some (PyInt 1).
Proof. exact (training_options_defaults undeclared_base_parser). Defined.

(** X3.  In either mode dropout ends up switched off by default, also when the
    parser declared the switch with another default, and the default of every
    destination other than no_dropout and the six weights is kept; for testing
    no argument is declared at all, so the weights are not among the options
    unless the parser had them. *)
Theorem options_switch_dropout_off (p : ArgumentParser) (is_train : bool)
  (p' : ArgumentParser) :
  modify_commandline_options p is_train = Declared p' ->
  get_default p' "no_dropout" = Some (PyBool true) /\
  (forall d, ~ In d ("no_dropout"%string :: weight_names) ->
             get_default p' d = get_default p d) /\
  (is_train = false ->
   map dest (actions p') = map dest (actions p) /\
   forall d, d <> "no_dropout"%string ->
             get_default p' d = get_default p d).
Proof.
  intros H. unfold modify_commandline_options in H. cbv zeta in H.
  set (q := set_defaults "no_dropout" (PyBool true) p) in *.
  assert (Hq : get_default q "no_dropout" = Some (PyBool true))
    by apply get_default_set_defaults.
  assert (Ho : forall d, d <> "no_dropout"%string ->
                         get_default q d = get_default p d)
    by (intros d Hd; apply get_default_set_defaults_other; exact Hd).
  assert (Hm : map dest (actions q) = map dest (actions p)).
  { unfold q, set_defaults. cbn [actions]. rewrite map_map.
    apply map_ext. intros a. destruct (String.eqb (dest a) _); reflexivity. }
  clearbody q. destruct is_train.
  - pose proof (@declare_weights_Declared _ _ H) as Free.
    rewrite (@declare_weights q Free) in H. injection H as <-.
    split; [|split; [|discriminate]].
    + rewrite get_default_app_other; [exact Hq|].
      intros a Ha. cbn [In] in Ha.
      repeat (destruct Ha as [<- | Ha]; [discriminate|]). destruct Ha.
    + intros d Hd. rewrite get_default_app_other.
      * apply Ho. intros ->. apply Hd. left. reflexivity.
      * intros a Ha C. apply Hd. right. rewrite <- C. cbn [In] in Ha.
        repeat (destruct Ha as [<- | Ha]; [cbn; tauto|]). destruct Ha.
  - injection H as <-. split; [exact Hq|]. split; [|intros _; split].
    + intros d Hd. apply Ho. intros ->. apply Hd. left. reflexivity.
    + exact Hm.
    + exact Ho.
Qed.

Lemma options_switch_dropout_off_witness :
  get_default (set_defaults "no_dropout" (PyBool true) base_parser)
    "no_dropout" = Some (PyBool true) /\
  (forall d, ~ In d ("no_dropout"%string :: weight_names) ->
             get_default (set_defaults "no_dropout" (PyBool true) base_parser)
               d = get_default base_parser d) /\
  (false = false ->
   map dest (actions (set_defaults "no_dropout" (PyBool true) base_parser))
   = map dest (actions base_parser) /\
   forall d, d <> "no_dropout"%string ->
             get_default (set_defaults "no_dropout" (PyBool true) base_parser)
               d = get_default base_parser d).
Proof.
  apply (@options_switch_dropout_off base_parser false). reflexivity.
Defined.

(* ================================================================== *)
(** ** Construction *)

(** A model that was constructed is blank: it holds the options and the
    names, and no image, norm or loss yet. *)
Lemma __init___Done (E : Env) (o : Opt) (s : state) :
  __init__ E o = Done s ->
  opt s = o /\ tensors s = (fun _ => None) /\ losses s = (fun _ => None) /\
  trace s = [] /\
  loss_names s
  = ["D_A"; "G_A"; "cycle_A"; "idt_A"; "diff_A";
     "D_B"; "G_B"; "cycle_B"; "idt_B"; "diff_B"]%string /\
  visual_names s
  = (["real_A"; "fake_B"; "rec_A"]%string
     ++ (if isTrain o && Qgt0 (lambda_identity_t o)
         then ["idt_B"]%string else [])
     ++ (if isTrain o then ["diff_A"; "real_diff_A"]%string else []))
    ++ (["real_B"; "fake_A"; "rec_B"]%string
        ++ (if isTrain o && Qgt0 (lambda_identity_t o)
            then ["idt_A"]%string else [])
        ++ (if isTrain o then ["diff_B"; "real_diff_B"]%string else [])).
Proof.
  unfold __init__. cbv zeta.
  destruct (BaseModel_init E o); [|discriminate].
  destruct (define_G E (input_nc o) (output_nc o)); [|discriminate].
  destruct (define_G E (output_nc o) (input_nc o)); [|discriminate].
  cbn [called and_then].
  destruct (when (isTrain o) _); [|discriminate]. cbn [and_then].
  destruct (when (isTrain o) _); [|discriminate]. cbn [and_then].
  destruct (when (isTrain o) _); [|discriminate]. cbn [and_then].
  intros H. injection H as <-. cbn. repeat split; reflexivity.
Qed.

(** A conjunction of conditions that names a call which raised. *)
Ltac raised :=
  split;
  [ let H := fresh in intros (? & H); discriminate H
  | let H := fresh in
    intros H;
    repeat match goal with
           | K : _ /\ _ |- _ => destruct K
           | K : true = true -> _ |- _ => specialize (K eq_refl)
           end;
    congruence ].

(** X4.  Construction returns exactly when every call it makes returns and
    the channel check passes: [BaseModel.__init__] and the two calls of
    [define_G], and for training only the two calls of [define_D], the two
    summaries on a (14, 256, 256) input, the check that the channel counts
    agree if the target identity weight is positive, [ImagePool] on the pool
    size, [GANLoss] on the GAN mode, [L1Loss], and [Adam] for the generators
    and for the discriminators on the learning rate and beta1.  For testing
    the discriminators, the summaries, the channel check, the pools, the
    criteria and the optimizers are skipped. *)
Theorem construction_returns_iff (E : Env) (o : Opt) :
  (exists s, __init__ E o = Done s) <->
  BaseModel_init E o <> None /\
  define_G E (input_nc o) (output_nc o) <> None /\
  define_G E (output_nc o) (input_nc o) <> None /\
  (isTrain o = true ->
   define_D E (output_nc o) <> None /\ define_D E (input_nc o) <> None /\
   summary E G_A (input_nc o) (14, 256, 256)%nat <> None /\
   summary E D_A (output_nc o) (14, 256, 256)%nat <> None /\
   (Qgt0 (lambda_identity_t o) = true -> input_nc o = output_nc o) /\
   ImagePool E (pool_size o) <> None /\
   GANLoss E (gan_mode o) <> None /\
   L1Loss E <> None /\
   Adam E optimizer_G (lr o) (beta1 o) <> None /\
   Adam E optimizer_D (lr o) (beta1 o) <> None).
Proof.
  unfold __init__. cbv zeta.
  destruct (BaseModel_init E o) as [[]|]; [|raised].
  destruct (define_G E (input_nc o) (output_nc o)) as [[]|]; [|raised].
  destruct (define_G E (output_nc o) (input_nc o)) as [[]|]; [|raised].
  cbn [called and_then].
  destruct (isTrain o); cbn [when and_then].
  - destruct (define_D E (output_nc o)) as [[]|]; [|raised].
    destruct (define_D E (input_nc o)) as [[]|]; [|raised].
    destruct (summary E G_A (input_nc o) (14, 256, 256)%nat) as [[]|];
      [|raised].
    destruct (summary E D_A (output_nc o) (14, 256, 256)%nat) as [[]|];
      [|raised].
    cbn [called and_then].
    assert (Check :
      when (Qgt0 (lambda_identity_t o)) (assert (input_nc o =? output_nc o))
      = Done tt <->
      (Qgt0 (lambda_identity_t o) = true -> input_nc o = output_nc o)).
    { destruct (Qgt0 (lambda_identity_t o)); cbn [when].
      - unfold assert. destruct (Nat.eqb_spec (input_nc o) (output_nc o)).
        + split; auto.
        + split; [discriminate | intros K; elim n; auto].
      - split; [discriminate | reflexivity]. }
    destruct (when (Qgt0 (lambda_identity_t o)) _) as [[]|e].
    + assert (Agree := proj1 Check eq_refl). clear Check.
      cbn [and_then].
      destruct (ImagePool E (pool_size o)) as [[]|]; [|raised].
      destruct (GANLoss E (gan_mode o)) as [[]|]; [|raised].
      destruct (L1Loss E) as [[]|]; [|raised].
      destruct (Adam E optimizer_G (lr o) (beta1 o)) as [[]|]; [|raised].
      destruct (Adam E optimizer_D (lr o) (beta1 o)) as [[]|]; [|raised].
      cbn [called and_then]. split.
      * intros _. repeat split; try discriminate. exact Agree.
      * intros _. eexists. reflexivity.
    + split.
      * intros (s & H). discriminate H.
      * intros (_ & _ & _ & H).
        destruct (H eq_refl) as (_ & _ & _ & _ & K & _).
        apply Check in K. discriminate K.
  - split.
    + intros _. repeat split; discriminate.
    + intros _. eexists. reflexivity.
Qed.

(* ================================================================== *)
(** ** Unpacking the input *)

Lemma eqb_false_of_neq (a b : string) : a <> b -> String.eqb a b = false.
Proof. apply String.eqb_neq. Qed.

(** X5.  With a dataset type that is neither 'common_images' nor
    'remote_sensing_images', [set_input] returns without reading the input or
    assigning anything; on a newly constructed model the forward pass, and with
    it a training iteration, then stops at the first line with an
    AttributeError, before any network is evaluated. *)
Theorem unknown_dataset_type_gives_no_input
  (E : Env) (o : Opt) (s0 : state) (input : dict) :
  __init__ E o = Done s0 ->
  dataset_type o <> "common_images"%string ->
  dataset_type o <> "remote_sensing_images"%string ->
  set_input input s0 = Ok tt s0 /\
  forward E s0 = Raise (AttributeError (AImage real_A)) s0 /\
  optimize_parameters E s0 = Raise (AttributeError (AImage real_A)) s0.
Proof.
  intros H D1 D2. apply __init___Done in H.
  destruct H as (O & T & _).
  assert (F : forward E s0 = Raise (AttributeError (AImage real_A)) s0).
  { unfold forward, bind, getT. rewrite T. reflexivity. }
  split; [|split; [exact F|]].
  - unfold set_input, bind, get_opt. rewrite O.
    rewrite (eqb_false_of_neq D1), (eqb_false_of_neq D2). reflexivity.
  - unfold optimize_parameters, bind at 1. rewrite F. reflexivity.
Qed.

Lemma unknown_dataset_type_gives_no_input_witness :
  set_input demo_input (built quiet_env typo_opt)
  = Ok tt (built quiet_env typo_opt) /\
  forward quiet_env (built quiet_env typo_opt)
  = Raise (AttributeError (AImage real_A)) (built quiet_env typo_opt) /\
  optimize_parameters quiet_env (built quiet_env typo_opt)
  = Raise (AttributeError (AImage real_A)) (built quiet_env typo_opt).
Proof.
  apply (@unknown_dataset_type_gives_no_input quiet_env typo_opt).
  - vm_compute. reflexivity.
  - discriminate.
  - discriminate.
Defined.

Lemma bind_get_opt {A} (k : Opt -> M A) (s : state) :
  bind get_opt k s = k (opt s) s.
Proof. reflexivity. Qed.

Lemma swap_key_involutive (k : string) : swap_key (swap_key k) = k.
Proof.
  unfold swap_key.
  destruct (String.eqb k "A") eqn:C1;
    [apply String.eqb_eq in C1; subst; reflexivity|].
  destruct (String.eqb k "B") eqn:C2;
    [apply String.eqb_eq in C2; subst; reflexivity|].
  destruct (String.eqb k "A_ref") eqn:C3;
    [apply String.eqb_eq in C3; subst; reflexivity|].
  destruct (String.eqb k "B_ref") eqn:C4;
    [apply String.eqb_eq in C4; subst; reflexivity|].
  destruct (String.eqb k "A_paths") eqn:C5;
    [apply String.eqb_eq in C5; subst; reflexivity|].
  destruct (String.eqb k "B_paths") eqn:C6;
    [apply String.eqb_eq in C6; subst; reflexivity|].
  rewrite C1, C2, C3, C4, C5, C6. reflexivity.
Qed.

Lemma swap_key_eqb (k k' : string) :
  String.eqb (swap_key k) (swap_key k') = String.eqb k k'.
Proof.
  destruct (String.eqb k k') eqn:C.
  - apply String.eqb_eq in C. subst. apply String.eqb_refl.
  - apply String.eqb_neq. intros H. apply String.eqb_neq in C. apply C.
    rewrite <- (swap_key_involutive k), <- (swap_key_involutive k'), H.
    reflexivity.
Qed.

Lemma lookup_swap_domains (k : string) (d : dict) :
  lookup (swap_key k) (swap_domains d) = lookup k d.
Proof.
  induction d as [|[k' v] d IH]; [reflexivity|].
  cbn [swap_domains map lookup fst snd]. rewrite swap_key_eqb.
  destruct (String.eqb k k'); [reflexivity | exact IH].
Qed.

(** X6.  With a direction other than 'AtoB' the two domains are exchanged: the
    call assigns the same images and paths, and fails in the same cases, as
    with direction 'AtoB' on the input whose A and B entries are exchanged. *)
Theorem set_input_direction_swaps_domains (input : dict) (s : state) :
  direction (opt s) <> "AtoB"%string ->
  is_ok (set_input input s)
  = is_ok (set_input (swap_domains input)
             (with_opt (with_direction "AtoB" (opt s)) s)) /\
  tensors (state_of (set_input input s))
  = tensors (state_of (set_input (swap_domains input)
                         (with_opt (with_direction "AtoB" (opt s)) s))) /\
  image_paths (state_of (set_input input s))
  = image_paths (state_of (set_input (swap_domains input)
                             (with_opt (with_direction "AtoB" (opt s)) s))).
Proof.
  intros Hd. apply eqb_false_of_neq in Hd.
  pose proof (lookup_swap_domains "A" input) as LA.
  pose proof (lookup_swap_domains "B" input) as LB.
  pose proof (lookup_swap_domains "A_ref" input) as LAr.
  pose proof (lookup_swap_domains "B_ref" input) as LBr.
  pose proof (lookup_swap_domains "B_paths" input) as LBp.
  change (swap_key "A") with "B"%string in LA.
  change (swap_key "B") with "A"%string in LB.
  change (swap_key "A_ref") with "B_ref"%string in LAr.
  change (swap_key "B_ref") with "A_ref"%string in LBr.
  change (swap_key "B_paths") with "A_paths"%string in LBp.
  unfold set_input. rewrite !bind_get_opt.
  cbn [opt with_opt with_direction dataset_type direction phase].
  rewrite Hd. change (String.eqb "AtoB" "AtoB") with true. cbv zeta iota.
  unfold input_tensor, input_item. rewrite LA, LB, LAr, LBr, LBp.
  destruct (String.eqb (dataset_type (opt s)) "common_images");
    destruct (String.eqb (dataset_type (opt s)) "remote_sensing_images");
    destruct (String.eqb (phase (opt s)) "train");
    destruct (lookup "A" input) as [[?|?]|];
    destruct (lookup "B" input) as [[?|?]|];
    try (repeat split; reflexivity);
    destruct (lookup "A_ref" input) as [[?|?]|];
    destruct (lookup "B_ref" input) as [[?|?]|];
    try (repeat split; reflexivity);
    destruct (lookup "B_paths" input) as [?|];
    repeat split; reflexivity.
Qed.

Lemma set_input_direction_swaps_domains_witness :
  is_ok (set_input demo_input (built quiet_env reverse_opt))
  = is_ok (set_input (swap_domains demo_input)
             (with_opt (with_direction "AtoB"
                          (opt (built quiet_env reverse_opt)))
                (built quiet_env reverse_opt))) /\
  tensors (state_of (set_input demo_input (built quiet_env reverse_opt)))
  = tensors (state_of (set_input (swap_domains demo_input)
                         (with_opt (with_direction "AtoB"
                                      (opt (built quiet_env reverse_opt)))
                            (built quiet_env reverse_opt)))) /\
  image_paths (state_of (set_input demo_input (built quiet_env reverse_opt)))
  = image_paths
      (state_of (set_input (swap_domains demo_input)
                   (with_opt (with_direction "AtoB"
                                (opt (built quiet_env reverse_opt)))
                      (built quiet_env reverse_opt)))).
Proof.
  apply (@set_input_direction_swaps_domains demo_input
           (built quiet_env reverse_opt)).
  intros H. vm_compute in H. discriminate H.
Defined.

(** X7.  A training batch of remote-sensing images that lacks the reference
    difference map of domain A makes [set_input] raise KeyError after the two
    images were replaced: the model then holds the new images together with the
    reference maps of the batch before. *)
Theorem missing_reference_key_keeps_stale_maps
  (input : dict) (s : state) (a b : tensor) :
  dataset_type (opt s) = "remote_sensing_images"%string ->
  phase (opt s) = "train"%string ->
  lookup (key_A (opt s)) input = Some (VTensor a) ->
  lookup (key_B (opt s)) input = Some (VTensor b) ->
  lookup (key_A_ref (opt s)) input = None ->
  exists s',
    set_input input s = Raise (KeyError (key_A_ref (opt s))) s' /\
    tensors s' real_A = Some a /\ tensors s' real_B = Some b /\
    tensors s' real_diff_A = tensors s real_diff_A /\
    tensors s' real_diff_B = tensors s real_diff_B.
Proof.
  intros D P LA LB LR. unfold key_A, key_B, key_A_ref in *.
  unfold set_input. rewrite bind_get_opt. cbv zeta.
  rewrite D, P.
  change (String.eqb "remote_sensing_images" "common_images") with false.
  change (String.eqb "remote_sensing_images" "remote_sensing_images")
    with true.
  change (String.eqb "train" "train") with true. cbv iota.
  unfold input_tensor, bind. cbn [ret].
  rewrite LA. cbn [ret setT]. rewrite LB. cbn [ret setT]. rewrite LR.
  eexists. split; [reflexivity|]. repeat split; reflexivity.
Qed.

Lemma missing_reference_key_keeps_stale_maps_witness :
  exists s',
    set_input unpaired_input (loaded quiet_env default_opt)
    = Raise (KeyError (key_A_ref (opt (loaded quiet_env default_opt)))) s' /\
    tensors s' real_A = Some (pixel 1) /\ tensors s' real_B = Some (pixel 2) /\
    tensors s' real_diff_A
    = tensors (loaded quiet_env default_opt) real_diff_A /\
    tensors s' real_diff_B
    = tensors (loaded quiet_env default_opt) real_diff_B.
Proof.
  apply (@missing_reference_key_keeps_stale_maps unpaired_input
           (loaded quiet_env default_opt) (pixel 1) (pixel 2));
    vm_compute; reflexivity.
Defined.

(** X8.  [set_input] replaces inputs only: whether it returns or raises, the
    images, norms and losses computed from the batch before, the gradient
    flags, the update counts and the trace are as they were, and so are the
    options and the names. With a dataset type other than 'common_images' it
    also leaves the image paths as they were. *)
Theorem set_input_keeps_results (input : dict) (s : state) :
  computed (state_of (set_input input s)) = computed s /\
  (dataset_type (opt s) <> "common_images"%string ->
   image_paths (state_of (set_input input s)) = image_paths s).
Proof.
  split.
  - revert s. change (preserves computed (set_input input)).
    unfold set_input, input_tensor, input_item, set_image_paths. pres.
  - intros D. apply eqb_false_of_neq in D.
    unfold set_input. rewrite bind_get_opt. cbv zeta. rewrite D.
    unfold bind at 1. cbn [ret]. clear D. generalize (opt s). intros o.
    revert s.
    match goal with
    | |- forall s, image_paths (state_of (?m s)) = _ =>
        change (preserves image_paths m)
    end.
    unfold input_tensor. pres.
Qed.

Lemma set_input_keeps_results_witness :
  computed (state_of (set_input unpaired_input demo_end)) = computed demo_end
  /\ image_paths (state_of (set_input unpaired_input demo_end))
     = image_paths demo_end.
Proof.
  destruct (set_input_keeps_results unpaired_input demo_end) as [H1 H2].
  split; [exact H1|]. apply H2. intros H. vm_compute in H. discriminate H.
Defined.

(* ================================================================== *)
(** ** Attributes only accumulate *)

Lemma extends_refl (s : state) : extends s s.
Proof. repeat split; auto. Qed.

Lemma extends_trans (s1 s2 s3 : state) :
  extends s1 s2 -> extends s2 s3 -> extends s1 s3.
Proof.
  intros (T1 & L1 & O1 & V1 & N1) (T2 & L2 & O2 & V2 & N2).
  repeat split; auto; congruence.
Qed.

Lemma grows_bind {A B} (m : M A) (k : A -> M B) :
  grows m -> (forall a, grows (k a)) -> grows (bind m k).
Proof.
  intros Hm Hk s. unfold bind. specialize (Hm s).
  destruct (m s) as [a s1|e s1]; cbn [state_of] in *.
  - exact (extends_trans Hm (Hk a s1)).
  - exact Hm.
Qed.

Lemma grows_if {A} (c : bool) (m1 m2 : M A) :
  grows m1 -> grows m2 -> grows (if c then m1 else m2).
Proof. destruct c; auto. Qed.

Lemma grows_lift {A} (e : exn) (r : option A) : grows (lift e r).
Proof. intros s. destruct r; apply extends_refl. Qed.

Lemma grows_getT (a : tattr) : grows (getT a).
Proof. intros s. unfold getT. destruct (tensors s a); apply extends_refl. Qed.

Lemma grows_getV (a : vattr) : grows (getV a).
Proof. intros s. unfold getV. destruct (norms s a); apply extends_refl. Qed.

Lemma grows_getL (a : lattr) : grows (getL a).
Proof. intros s. unfold getL. destruct (losses s a); apply extends_refl. Qed.

Lemma grows_setT (a : tattr) (t : tensor) : grows (setT a t).
Proof.
  intros s. repeat split; auto. intros b Hb. cbn. unfold upd.
  destruct (tattr_eq_dec a b); [discriminate | exact Hb].
Qed.

Lemma grows_setL (a : lattr) (l : xreal) : grows (setL a l).
Proof.
  intros s. repeat split; auto. intros b Hb. cbn. unfold upd.
  destruct (lattr_eq_dec a b); [discriminate | exact Hb].
Qed.

Lemma grows_same {A} (m : M A) :
  (forall s, tensors (state_of (m s)) = tensors s /\
             losses (state_of (m s)) = losses s /\
             opt (state_of (m s)) = opt s /\
             visual_names (state_of (m s)) = visual_names s /\
             loss_names (state_of (m s)) = loss_names s) ->
  grows m.
Proof.
  intros H s. destruct (H s) as (T & L & O & V & N).
  repeat split; try assumption; intros a; [rewrite T | rewrite L]; auto.
Qed.

Ltac grow_prim :=
  first
    [ apply grows_lift | apply grows_getT | apply grows_getV
    | apply grows_getL | apply grows_setT | apply grows_setL
    | apply grows_same; intros ?; repeat split; reflexivity ].

Ltac grow :=
  cbv zeta;
  repeat first
    [ apply grows_bind; [ | intro ]
    | apply grows_if
    | match goal with
      | |- grows (match ?x with _ => _ end) => destruct x
      end
    | grow_prim ].

Section Accumulation.

Variable E : Env.

Lemma forward_grows : grows (forward E).
Proof. unfold forward. unfold_calls. grow. Qed.

Lemma backward_G_grows : grows (backward_G E).
Proof. unfold_backward_G. unfold_calls. grow. Qed.

Lemma backward_D_A_grows : grows (backward_D_A E).
Proof. unfold backward_D_A, backward_D_basic. unfold_calls. grow. Qed.

Lemma backward_D_B_grows : grows (backward_D_B E).
Proof. unfold backward_D_B, backward_D_basic. unfold_calls. grow. Qed.

Lemma optimize_parameters_grows : grows (optimize_parameters E).
Proof.
  unfold optimize_parameters.
  repeat first
    [ apply forward_grows | apply backward_G_grows
    | apply backward_D_A_grows | apply backward_D_B_grows
    | apply grows_bind; [ | intro ]
    | unfold zero_grad; grow_prim ].
Qed.

End Accumulation.

Lemma set_input_grows (input : dict) : grows (set_input input).
Proof.
  unfold set_input, input_tensor, input_item, set_image_paths. grow.
Qed.

(* ================================================================== *)
(** ** The forward pass *)

Section Forward.

Variable E : Env.

(** The state a forward pass ends in when its four generator calls
    return. *)
Lemma forward_runs (s : state) (a b fB dA cA x fA dB cB y : tensor) :
  tensors s real_A = Some a -> tensors s real_B = Some b ->
  netG_A E a = Some (fB, dA) -> netG_B E fB = Some (cA, x) ->
  netG_B E b = Some (fA, dB) -> netG_A E fA = Some (cB, y) ->
  returns (forward E) s (fun _ s' =>
    tensors s'
    = upd tattr_eq_dec
        (upd tattr_eq_dec
           (upd tattr_eq_dec
              (upd tattr_eq_dec
                 (upd tattr_eq_dec
                    (upd tattr_eq_dec (tensors s) fake_B (Some fB))
                    diff_A (Some dA))
                 rec_A (Some cA))
              fake_A (Some fA))
           diff_B (Some dB))
        rec_B (Some cB) /\
    trace s' = trace s ++ forward_events /\
    opt s' = opt s /\ updates s' = updates s /\
    requires_grad s' = requires_grad s).
Proof.
  intros HA HB G1 G2 G3 G4. unfold forward. unfold_calls.
  run ltac:(fun r => fail). store_goal.
  rewrite <- !app_assoc. repeat split; reflexivity.
Qed.

(** What a forward pass that returned has read, called and assigned. *)
Lemma forward_assigns (s s' : state) (u : unit) :
  forward E s = Ok u s' ->
  exists a b fB dA cA x fA dB cB y,
    tensors s real_A = Some a /\ tensors s real_B = Some b /\
    netG_A E a = Some (fB, dA) /\ netG_B E fB = Some (cA, x) /\
    netG_B E b = Some (fA, dB) /\ netG_A E fA = Some (cB, y) /\
    tensors s' real_A = Some a /\ tensors s' real_B = Some b /\
    tensors s' fake_B = Some fB /\ tensors s' diff_A = Some dA /\
    tensors s' rec_A = Some cA /\ tensors s' fake_A = Some fA /\
    tensors s' diff_B = Some dB /\ tensors s' rec_B = Some cB.
Proof.
  unfold forward. unfold_calls. intros H. inv_ok. store.
  repeat match goal with
         | p : (tensor * tensor)%type |- _ => destruct p
         end.
  cbn [fst snd] in *.
  do 10 eexists. repeat (split; [eassumption|]).
  repeat split; try reflexivity; assumption.
Qed.

End Forward.

(** X9.  The forward pass returns exactly when both images are assigned and
    the four generator calls return.  It sends the batch of each domain
    through its generator and the translation back through the other one:
    fake_B and diff_A are the two outputs of G_A on real_A, rec_A is the
    image G_B makes of fake_B, and likewise for domain B; the inputs stay
    as they are and the generators are called in the order G_A, G_B, G_B,
    G_A.  The difference maps returned with the reconstructions are
    dropped. *)
Theorem forward_cycle (E : Env) (s : state) :
  (forall a b fB dA cA x fA dB cB y,
      tensors s real_A = Some a -> tensors s real_B = Some b ->
      netG_A E a = Some (fB, dA) -> netG_B E fB = Some (cA, x) ->
      netG_B E b = Some (fA, dB) -> netG_A E fA = Some (cB, y) ->
      exists s',
        forward E s = Ok tt s' /\
        tensors s' fake_B = Some fB /\ tensors s' diff_A = Some dA /\
        tensors s' rec_A = Some cA /\
        tensors s' fake_A = Some fA /\ tensors s' diff_B = Some dB /\
        tensors s' rec_B = Some cB /\
        tensors s' real_A = Some a /\ tensors s' real_B = Some b /\
        trace s' = trace s ++ [EvNet G_A; EvNet G_B; EvNet G_B; EvNet G_A])
  /\
  (forall s',
      forward E s = Ok tt s' ->
      exists a b fB dA cA x fA dB cB y,
        tensors s real_A = Some a /\ tensors s real_B = Some b /\
        netG_A E a = Some (fB, dA) /\ netG_B E fB = Some (cA, x) /\
        netG_B E b = Some (fA, dB) /\ netG_A E fA = Some (cB, y)).
Proof.
  split.
  - intros a b fB dA cA x fA dB cB y HA HB G1 G2 G3 G4.
    destruct (@forward_runs E s a b fB dA cA x fA dB cB y HA HB G1 G2 G3 G4)
      as ([] & s' & Run & T & Tr & _).
    exists s'. split; [exact Run|]. rewrite T, Tr. cbn.
    repeat split; assumption || reflexivity.
  - intros s' Run. apply forward_assigns in Run.
    destruct Run as (a & b & fB & dA & cA & x & fA & dB & cB & y & Run).
    destruct Run as (HA & HB & G1 & G2 & G3 & G4 & _).
    exists a, b, fB, dA, cA, x, fA, dB, cB, y. auto 10.
Qed.

Lemma forward_cycle_witness :
  exists s',
    forward quiet_env demo_start = Ok tt s' /\
    tensors s' fake_B = Some (pixel 1) /\ tensors s' diff_A = Some (pixel 2) /\
    tensors s' rec_A = Some (pixel 1) /\
    tensors s' fake_A = Some (pixel 1) /\ tensors s' diff_B = Some (pixel 3) /\
    tensors s' rec_B = Some (pixel 1) /\
    tensors s' real_A = Some (pixel 1) /\ tensors s' real_B = Some (pixel 1) /\
    trace s'
    = trace demo_start ++ [EvNet G_A; EvNet G_B; EvNet G_B; EvNet G_A].
Proof.
  apply (proj1 (forward_cycle quiet_env demo_start)
           (pixel 1) (pixel 1) (pixel 1) (pixel 2) (pixel 1) (pixel 3)
           (pixel 1) (pixel 3) (pixel 1) (pixel 2));
    vm_compute; reflexivity.
Defined.

(* ================================================================== *)
(** ** The names a model reports *)

Lemma grows_Ok {A} (m : M A) (s s' : state) (a : A) :
  grows m -> m s = Ok a s' -> extends s s'.
Proof. intros G H. specialize (G s). rewrite H in G. exact G. Qed.

Lemma visual_assigned_of (s : state) (name : string) (a : tattr) :
  assoc name image_attrs = Some a -> tensors s a <> None ->
  visual_assigned s name = true.
Proof.
  intros H1 H2. unfold visual_assigned. rewrite H1.
  destruct (tensors s a); [reflexivity | contradiction].
Qed.

Lemma loss_assigned_of (s : state) (name : string) (a : lattr) :
  assoc ("loss_" ++ name)%string loss_attrs = Some a ->
  losses s a <> None -> loss_assigned s name = true.
Proof.
  intros H1 H2. unfold loss_assigned. rewrite H1.
  destruct (losses s a); [reflexivity | contradiction].
Qed.

(** X10.  A model built for testing reports six images, and after [set_input]
    and a forward pass that return, every one of them is assigned. *)
Theorem test_model_shows_its_visuals
  (E : Env) (o : Opt) (input : dict) (s0 s1 s2 : state) :
  isTrain o = false ->
  __init__ E o = Done s0 ->
  set_input input s0 = Ok tt s1 ->
  forward E s1 = Ok tt s2 ->
  visual_names s2
  = ["real_A"; "fake_B"; "rec_A"; "real_B"; "fake_A"; "rec_B"]%string /\
  forallb (visual_assigned s2) (visual_names s2) = true.
Proof.
  intros Ht H0 H1 H2.
  apply __init___Done in H0. destruct H0 as (_ & _ & _ & _ & _ & V0).
  rewrite Ht in V0. cbn in V0.
  destruct (@grows_Ok _ _ _ _ _ (set_input_grows input) H1)
    as (_ & _ & _ & V1 & _).
  destruct (@grows_Ok _ _ _ _ _ (forward_grows E) H2) as (_ & _ & _ & V2 & _).
  assert (V : visual_names s2
              = ["real_A"; "fake_B"; "rec_A";
                 "real_B"; "fake_A"; "rec_B"]%string) by congruence.
  split; [exact V|]. rewrite V.
  apply forward_assigns in H2.
  destruct H2 as (a & b & fB & dA & cA & x & fA & dB & cB & y & H2).
  destruct H2 as (_ & _ & _ & _ & _ & _ & XA & XB & XfB & _ & XcA & XfA
                  & _ & XcB).
  cbn [forallb].
  rewrite (@visual_assigned_of s2 "real_A" real_A),
    (@visual_assigned_of s2 "fake_B" fake_B),
    (@visual_assigned_of s2 "rec_A" rec_A),
    (@visual_assigned_of s2 "real_B" real_B),
    (@visual_assigned_of s2 "fake_A" fake_A),
    (@visual_assigned_of s2 "rec_B" rec_B);
    reflexivity || congruence.
Qed.

Lemma test_model_shows_its_visuals_witness :
  visual_names (forwarded quiet_env test_opt)
  = ["real_A"; "fake_B"; "rec_A"; "real_B"; "fake_A"; "rec_B"]%string /\
  forallb (visual_assigned (forwarded quiet_env test_opt))
    (visual_names (forwarded quiet_env test_opt)) = true.
Proof.
  apply (@test_model_shows_its_visuals quiet_env test_opt demo_input
           (built quiet_env test_opt) (loaded quiet_env test_opt)
           (forwarded quiet_env test_opt));
    [reflexivity | vm_compute; reflexivity
    | apply returned; vm_compute; reflexivity
    | apply returned; vm_compute; reflexivity].
Defined.

Section Reported.

Variable E : Env.

(** What a call of [backward_G] that returned has assigned. *)
Lemma backward_G_assigns (s s' : state) (u : unit) :
  backward_G E s = Ok u s' ->
  tensors s' real_diff_A <> None /\ tensors s' real_diff_B <> None /\
  (Qgt0 (lambda_identity_t (opt s)) = true ->
   tensors s' idt_A <> None /\ tensors s' idt_B <> None) /\
  losses s' loss_G_A <> None /\ losses s' loss_G_B <> None /\
  losses s' loss_cycle_A <> None /\ losses s' loss_cycle_B <> None /\
  losses s' loss_idt_A <> None /\ losses s' loss_idt_B <> None /\
  losses s' loss_diff_A <> None /\ losses s' loss_diff_B <> None.
Proof.
  unfold_backward_G. unfold_calls. intros H. cbv zeta in H.
  inv_ok; store.
  - repeat split; congruence.
  - apply orb_false_elim in C. destruct C as [C _].
    repeat split; congruence.
Qed.

End Reported.

(** X11.  After a training iteration that returns, every image listed in
    visual_names and every loss listed in loss_names is assigned, whatever the
    identity weights are: the model reports nothing it has not computed. *)
Theorem iteration_assigns_reported_names
  (E : Env) (o : Opt) (s0 s s' : state) :
  isTrain o = true ->
  __init__ E o = Done s0 ->
  opt s = opt s0 -> visual_names s = visual_names s0 ->
  loss_names s = loss_names s0 ->
  optimize_parameters E s = Ok tt s' ->
  forallb (visual_assigned s') (visual_names s') = true /\
  forallb (loss_assigned s') (loss_names s') = true.
Proof.
  intros Ht H0 HO HV HL H.
  apply __init___Done in H0. destruct H0 as (O0 & _ & _ & _ & L0 & V0).
  rewrite Ht in V0. cbn [andb] in V0.
  destruct (@grows_Ok _ _ _ _ _ (optimize_parameters_grows E) H)
    as (_ & _ & _ & V' & L').
  pose proof (optimize_parameters_Ok _ _ H) as K.
  destruct K as (lG & lDA & lDB & rA & rB & fA & fB & qA & qB & K).
  destruct K as (_ & KG & KDA & KDB & _).
  unfold optimize_parameters in H.
  apply bind_Ok in H. destruct H as (? & s1 & H1 & H).
  apply bind_Ok in H. destruct H as (? & s2 & H2 & H).
  apply bind_Ok in H. destruct H as (? & s3 & H3 & H).
  apply bind_Ok in H. destruct H as (? & s4 & H4 & H).
  assert (X1 : extends s s1)
    by exact (@grows_Ok _ _ _ _ _ (forward_grows E) H1).
  assert (X4 : extends s3 s4)
    by exact (@grows_Ok _ _ _ _ _ (backward_G_grows E) H4).
  assert (X' : extends s4 s').
  { revert H.
    match goal with
    | |- ?m s4 = _ -> _ => intros H; apply (@grows_Ok _ m s4 s' tt); [|exact H]
    end.
    repeat first
      [ apply backward_D_A_grows | apply backward_D_B_grows
      | apply grows_bind; [ | intro ]
      | unfold zero_grad; grow_prim ]. }
  apply forward_assigns in H1.
  destruct H1 as (ta & tb & gB & dA & cA & tx & gA & dB & cB & ty & H1).
  destruct H1 as (_ & _ & _ & _ & _ & _ & XA & XB & XfB & XdA & XcA & XfA
                  & XdB & XcB).
  apply set_requires_grad_Ok in H2. unfold zero_grad in H3.
  apply emit_Ok in H3.
  assert (T3 : tensors s3 = tensors s1) by (subst s3 s2; reflexivity).
  assert (O3 : opt s3 = opt s).
  { destruct X1 as (_ & _ & O1 & _). subst s3 s2. exact O1. }
  destruct (backward_G_assigns _ _ H4)
    as (ZrA & ZrB & Zidt & ZGA & ZGB & ZcA & ZcB & ZiA & ZiB & ZdA & ZdB).
  destruct X4 as (T4 & _). destruct X' as (T' & L'' & _).
  assert (A : forall n, tensors s1 n <> None -> tensors s' n <> None)
    by (intros n Hn; apply T', T4; rewrite T3; exact Hn).
  split.
  - rewrite V', HV, V0.
    destruct (Qgt0 (lambda_identity_t o)) eqn:Q.
    + rewrite O3, HO, O0 in Zidt. destruct (Zidt Q) as [ZA ZB].
      cbn [app forallb].
      rewrite (@visual_assigned_of s' "real_A" real_A),
        (@visual_assigned_of s' "fake_B" fake_B),
        (@visual_assigned_of s' "rec_A" rec_A),
        (@visual_assigned_of s' "idt_B" idt_B),
        (@visual_assigned_of s' "diff_A" diff_A),
        (@visual_assigned_of s' "real_diff_A" real_diff_A),
        (@visual_assigned_of s' "real_B" real_B),
        (@visual_assigned_of s' "fake_A" fake_A),
        (@visual_assigned_of s' "rec_B" rec_B),
        (@visual_assigned_of s' "idt_A" idt_A),
        (@visual_assigned_of s' "diff_B" diff_B),
        (@visual_assigned_of s' "real_diff_B" real_diff_B);
        first [ reflexivity | apply T'; assumption | apply A; congruence ].
    + cbn [app forallb].
      rewrite (@visual_assigned_of s' "real_A" real_A),
        (@visual_assigned_of s' "fake_B" fake_B),
        (@visual_assigned_of s' "rec_A" rec_A),
        (@visual_assigned_of s' "diff_A" diff_A),
        (@visual_assigned_of s' "real_diff_A" real_diff_A),
        (@visual_assigned_of s' "real_B" real_B),
        (@visual_assigned_of s' "fake_A" fake_A),
        (@visual_assigned_of s' "rec_B" rec_B),
        (@visual_assigned_of s' "diff_B" diff_B),
        (@visual_assigned_of s' "real_diff_B" real_diff_B);
        first [ reflexivity | apply T'; assumption | apply A; congruence ].
  - rewrite L', HL, L0. cbn [forallb].
    rewrite (@loss_assigned_of s' "D_A" loss_D_A),
      (@loss_assigned_of s' "G_A" loss_G_A),
      (@loss_assigned_of s' "cycle_A" loss_cycle_A),
      (@loss_assigned_of s' "idt_A" loss_idt_A),
      (@loss_assigned_of s' "diff_A" loss_diff_A),
      (@loss_assigned_of s' "D_B" loss_D_B),
      (@loss_assigned_of s' "G_B" loss_G_B),
      (@loss_assigned_of s' "cycle_B" loss_cycle_B),
      (@loss_assigned_of s' "idt_B" loss_idt_B),
      (@loss_assigned_of s' "diff_B" loss_diff_B);
      first [ reflexivity | congruence | apply L''; assumption ].
Qed.

Lemma iteration_assigns_reported_names_witness :
  forallb (visual_assigned demo_end) (visual_names demo_end) = true /\
  forallb (loss_assigned demo_end) (loss_names demo_end) = true.
Proof.
  apply (@iteration_assigns_reported_names quiet_env default_opt
           (built quiet_env default_opt) demo_start demo_end);
    [reflexivity | vm_compute; reflexivity | reflexivity | reflexivity
    | reflexivity | apply returned; vm_compute; reflexivity].
Defined.

(* ================================================================== *)
(** ** Gradient tracking of the discriminators *)

Ltac bind_as H sn :=
  match goal with
  | |- context [bind ?m ?k ?s] =>
      pattern (bind m k s); apply bind_elim;
      [ intros ?e sn H | intros ?a sn H ]; cbv beta
  end.

Ltac settle :=
  repeat split; intros;
  first [ assumption | reflexivity | discriminate | congruence
        | exfalso; lia ].

Ltac kept L s0 H :=
  let U := fresh "U" in
  pose proof (L s0) as U; rewrite H in U; cbn [state_of] in U;
  let Hr := fresh "Flags" in let Hu := fresh "Upd" in
  injection U as Hr Hu.

Section Tracking.

Variable E : Env.

Lemma forward_keeps_flags :
  preserves (fun s => (requires_grad s, updates s)) (forward E).
Proof. apply preserves_pair; unfold forward; unfold_calls; pres. Qed.

Lemma backward_G_keeps_flags :
  preserves (fun s => (requires_grad s, updates s)) (backward_G E).
Proof. apply preserves_pair; unfold_backward_G; unfold_calls; pres. Qed.

Lemma backward_D_A_keeps_flags :
  preserves (fun s => (requires_grad s, updates s)) (backward_D_A E).
Proof.
  apply preserves_pair; unfold backward_D_A, backward_D_basic; unfold_calls;
    pres.
Qed.

Lemma backward_D_B_keeps_flags :
  preserves (fun s => (requires_grad s, updates s)) (backward_D_B E).
Proof.
  apply preserves_pair; unfold backward_D_B, backward_D_basic; unfold_calls;
    pres.
Qed.


(** X12.  Where an iteration leaves the gradient tracking. The flags of the
    generators are never touched. An iteration that returns, or that raises
    after the generator step, leaves tracking switched on for both
    discriminators; one that raises in the forward pass leaves all flags as
    they were; one that raises between the forward pass and the generator step,
    that is in [backward_G], leaves both discriminators with tracking switched
    off. *)
Theorem iteration_gradient_tracking (s : state) :
  match optimize_parameters E s with
  | Ok _ s' =>
      requires_grad s' D_A = true /\ requires_grad s' D_B = true /\
      requires_grad s' G_A = requires_grad s G_A /\
      requires_grad s' G_B = requires_grad s G_B
  | Raise _ s' =>
      requires_grad s' G_A = requires_grad s G_A /\
      requires_grad s' G_B = requires_grad s G_B /\
      (is_ok (forward E s) = false -> requires_grad s' = requires_grad s) /\
      (is_ok (forward E s) = true -> updates s' G_A = updates s G_A ->
       requires_grad s' D_A = false /\ requires_grad s' D_B = false) /\
      (updates s' G_A <> updates s G_A ->
       requires_grad s' D_A = true /\ requires_grad s' D_B = true)
  end.
Proof.
  unfold optimize_parameters.
  bind_as Run1 t1; kept forward_keeps_flags s Run1.
  { rewrite Run1. cbn [is_ok]. rewrite Flags, Upd. settle. }
  rewrite Run1. cbn [is_ok].
  bind_as Run2 t2; [discriminate Run2|].
  apply set_requires_grad_Ok in Run2.
  bind_as Run3 t3; [discriminate Run3|].
  unfold zero_grad in Run3. apply emit_Ok in Run3.
  assert (F3 : requires_grad t3 D_A = false /\ requires_grad t3 D_B = false /\
               requires_grad t3 G_A = requires_grad s G_A /\
               requires_grad t3 G_B = requires_grad s G_B)
    by (rewrite Run3, Run2; cbn; rewrite Flags; auto).
  assert (U3 : updates t3 = updates s) by (rewrite Run3, Run2; exact Upd).
  clear Run1 Run2 Run3 Flags Upd t1 t2.
  destruct F3 as (FA & FB & FGA & FGB).
  bind_as Run4 t4; kept backward_G_keeps_flags t3 Run4.
  { rewrite Flags, Upd, U3. settle. }
  bind_as Run5 t5; rewrite step_eq in Run5; [discriminate Run5|].
  injection Run5 as _ <-.
  bind_as Run6 t6; [discriminate Run6|].
  apply set_requires_grad_Ok in Run6.
  bind_as Run7 t7; [discriminate Run7|].
  unfold zero_grad in Run7. apply emit_Ok in Run7.
  assert (F7 : requires_grad t7 D_A = true /\ requires_grad t7 D_B = true /\
               requires_grad t7 G_A = requires_grad s G_A /\
               requires_grad t7 G_B = requires_grad s G_B)
    by (rewrite Run7, Run6; cbn; rewrite Flags; auto).
  assert (U7 : updates t7 G_A = S (updates s G_A))
    by (rewrite Run7, Run6; cbn; rewrite Upd, U3; reflexivity).
  clear Run4 Run6 Run7 Flags Upd FA FB FGA FGB U3 t6.
  destruct F7 as (FA & FB & FGA & FGB).
  bind_as Run8 t8; kept backward_D_A_keeps_flags t7 Run8.
  { rewrite Flags, Upd, U7. settle. }
  bind_as Run9 t9; kept backward_D_B_keeps_flags t8 Run9.
  { rewrite Flags0, Flags, Upd0, Upd, U7. settle. }
  rewrite step_eq. cbn. rewrite Flags0, Flags. auto.
Qed.

End Tracking.

Lemma iteration_gradient_tracking_witness :
  requires_grad (state_of (optimize_parameters quiet_env demo_common)) D_A
  = false /\
  requires_grad (state_of (optimize_parameters quiet_env demo_common)) D_B
  = false.
Proof.
  assert (K : is_ok (optimize_parameters quiet_env demo_common) = false)
    by (vm_compute; reflexivity).
  assert (F : is_ok (forward quiet_env demo_common) = true)
    by (vm_compute; reflexivity).
  assert (U : updates (state_of (optimize_parameters quiet_env demo_common))
                G_A = updates demo_common G_A)
    by (vm_compute; reflexivity).
  pose proof (iteration_gradient_tracking quiet_env demo_common) as H.
  destruct (optimize_parameters quiet_env demo_common) as [u s'|e s'];
    [discriminate K|].
  cbn [state_of] in *. destruct H as (_ & _ & _ & H & _). exact (H F U).
Defined.

(* ================================================================== *)
(** ** An iteration that goes through *)

Lemma returns_then {A B} (m : M A) (k : A -> M B) (s : state)
  (Q : A -> state -> Prop) (Q' : B -> state -> Prop) :
  returns m s Q ->
  (forall a s', m s = Ok a s' -> Q a s' -> returns (k a) s' Q') ->
  returns (bind m k) s Q'.
Proof.
  intros (a & s' & Hm & HQ) Hk.
  destruct (Hk a s' Hm HQ) as (b & s2 & Hb & HQ').
  exists b, s2. split; [|exact HQ']. unfold bind. rewrite Hm. exact Hb.
Qed.

Lemma returns_set_requires_grad ns b s (Q : unit -> state -> Prop) :
  Q tt (with_requires_grad
          (fun n => if mem_net n ns then b else requires_grad s n)
          (with_trace (trace s ++ [EvSetRequiresGrad ns b]) s)) ->
  returns (set_requires_grad ns b) s Q.
Proof. intros H. eexists _, _. split; [reflexivity | exact H]. Qed.

Lemma returns_step o s (Q : unit -> state -> Prop) :
  Q tt (with_updates
          (fun n => if mem_net n (params_of o) then S (updates s n)
                    else updates s n)
          (with_trace (trace s ++ [EvStep o]) s)) ->
  returns (step o) s Q.
Proof. intros H. eexists _, _. split; [reflexivity | exact H]. Qed.

Section Liveness.

Variable E : Env.

Hypothesis collaborators_return : all_return E.

(** The tactic that settles a collaborator call. *)
Ltac answered NDA NDB NGAN NPA NPB r :=
  let N := fresh "Call" in
  destruct r eqn:N;
  [| exfalso;
     first [ exact (NDA _ N) | exact (NDB _ N) | exact (NGAN _ _ N)
           | exact (NPA _ N) | exact (NPB _ N) ] ].

Lemma backward_D_A_runs (s : state) (f r : tensor) :
  tensors s fake_B = Some f -> tensors s real_B = Some r ->
  returns (backward_D_A E) s (fun _ _ => True).
Proof.
  intros HF HR. unfold backward_D_A, backward_D_basic. unfold_calls.
  destruct collaborators_return
    as ((NGA & NGB & NDA & NDB & NGAN & NCYC & NIDT) & NPA & NPB).
  run ltac:(answered NDA NDB NGAN NPA NPB). exact I.
Qed.

Lemma backward_D_B_runs (s : state) (f r : tensor) :
  tensors s fake_A = Some f -> tensors s real_A = Some r ->
  returns (backward_D_B E) s (fun _ _ => True).
Proof.
  intros HF HR. unfold backward_D_B, backward_D_basic. unfold_calls.
  destruct collaborators_return
    as ((NGA & NGB & NDA & NDB & NGAN & NCYC & NIDT) & NPA & NPB).
  run ltac:(answered NDA NDB NGAN NPA NPB). exact I.
Qed.

End Liveness.

(** X13.  A training iteration goes through whenever no collaborator raises,
    the two images and the two reference difference maps are assigned, and the
    difference maps that the generators return for them can be normalized and
    compared with the reference maps without a shape error. All four networks
    then receive one update, and both discriminators end with gradient tracking
    switched on. *)
Theorem iteration_returns (E : Env) (s : state)
  (a b rA rB fB dA cA x fA dB cB y : tensor) :
  all_return E ->
  tensors s real_A = Some a -> tensors s real_B = Some b ->
  tensors s real_diff_A = Some rA -> tensors s real_diff_B = Some rB ->
  netG_A E a = Some (fB, dA) -> netG_B E fB = Some (cA, x) ->
  netG_B E b = Some (fA, dB) -> netG_A E fA = Some (cB, y) ->
  normalized_gap dA rA <> None -> normalized_gap dB rB <> None ->
  exists s',
    optimize_parameters E s = Ok tt s' /\
    (forall n, updates s' n = S (updates s n)) /\
    requires_grad s' D_A = true /\ requires_grad s' D_B = true.
Proof.
  intros AR HA HB HrA HrB G1 G2 G3 G4 NA NB.
  destruct (normalized_gap dA rA) as [gA|] eqn:GA; [clear NA|contradiction].
  destruct (normalized_gap dB rB) as [gB|] eqn:GB; [clear NB|contradiction].
  assert (R : returns (optimize_parameters E) s (fun _ s' =>
                (forall n, updates s' n = S (updates s n)) /\
                requires_grad s' D_A = true /\ requires_grad s' D_B = true)).
  { unfold optimize_parameters.
    eapply returns_then;
      [exact (@forward_runs E s a b fB dA cA x fA dB cB y HA HB G1 G2 G3 G4)|].
    intros u1 s1 _ (T1 & _ & O1 & U1 & _).
    apply returns_bind, returns_set_requires_grad.
    apply returns_bind. unfold zero_grad. apply returns_emit.
    match goal with
    | |- returns _ ?t _ => set (s3 := t)
    end.
    assert (T3 : tensors s3 = tensors s1) by reflexivity.
    assert (U3 : updates s3 = updates s1) by reflexivity.
    clearbody s3.
    rewrite T1 in T3.
    eapply returns_then.
    { apply (@backward_G_returns E s3 a b rA rB fB dA cA fA dB cB gA gB);
        try exact (proj1 AR); try assumption;
        rewrite T3; cbn; assumption || reflexivity. }
    intros u4 s4 Run4 _.
    pose proof (backward_G_keeps_inputs E s3) as K4. rewrite Run4 in K4.
    cbn [state_of] in K4. unfold phase_D_inputs in K4.
    rewrite !T3 in K4. cbn in K4. rewrite HA, HB in K4.
    injection K4 as KrA KrB KfA KfB.
    pose proof (backward_G_keeps_flags E s3) as F4. rewrite Run4 in F4.
    cbn [state_of] in F4. injection F4 as _ U4.
    apply returns_bind, returns_step.
    apply returns_bind, returns_set_requires_grad.
    apply returns_bind. unfold zero_grad. apply returns_emit.
    match goal with
    | |- returns _ ?t _ => set (s7 := t)
    end.
    assert (T7 : tensors s7 = tensors s4) by reflexivity.
    assert (U7 : updates s7
                 = fun n => if mem_net n [G_A; G_B] then S (updates s4 n)
                            else updates s4 n) by reflexivity.
    assert (F7 : requires_grad s7 D_A = true /\
                 requires_grad s7 D_B = true) by (split; reflexivity).
    clearbody s7.
    eapply returns_then.
    { apply (@backward_D_A_runs E AR s7 fB b); rewrite T7; assumption. }
    intros u8 s8 Run8 _.
    pose proof (backward_D_A_keeps_flags E s7) as F8. rewrite Run8 in F8.
    cbn [state_of] in F8. injection F8 as R8 U8.
    apply backward_D_A_Ok in Run8.
    destruct Run8 as (? & ? & ? & ? & _ & _ & _ & _ & _ & _ & T8 & _).
    eapply returns_then.
    { apply (@backward_D_B_runs E AR s8 fA a); rewrite T8, T7; assumption. }
    intros u9 s9 Run9 _.
    pose proof (backward_D_B_keeps_flags E s8) as F9. rewrite Run9 in F9.
    cbn [state_of] in F9. injection F9 as R9 U9.
    apply returns_step. cbn.
    rewrite R9, R8, U9, U8, U7, U4, U3, U1. destruct F7 as [F7a F7b].
    split; [|split; assumption].
    intros n. destruct n; reflexivity. }
  destruct R as ([] & s' & Run & Q). exists s'. split; [exact Run | exact Q].
Qed.

Lemma all_return_quiet_env : all_return quiet_env.
Proof. repeat split; intros; discriminate. Qed.

Lemma iteration_returns_witness :
  exists s',
    optimize_parameters quiet_env demo_start = Ok tt s' /\
    (forall n, updates s' n = S (updates demo_start n)) /\
    requires_grad s' D_A = true /\ requires_grad s' D_B = true.
Proof.
  refine (@iteration_returns quiet_env demo_start
            (pixel 1) (pixel 1) (pixel 1) (pixel 1)
            (pixel 1) (pixel 2) (pixel 1) (pixel 3)
            (pixel 1) (pixel 3) (pixel 1) (pixel 2)
            all_return_quiet_env _ _ _ _ _ _ _ _
            (proj1 (normalizable_pixels 2 1))
            (proj1 (normalizable_pixels 3 1)));
    vm_compute; reflexivity.
Defined.

(* ================================================================== *)
(** ** The size of the difference-consistency term *)

Lemma rsum_plus (n : nat) (f g : nat -> R) :
  rsum n (fun i => f i + g i)%R = (rsum n f + rsum n g)%R.
Proof. induction n as [|n IH]; cbn; [lra | rewrite IH; lra]. Qed.

Lemma rsum_le (n : nat) (f g : nat -> R) :
  (forall i, (i < n)%nat -> f i <= g i)%R -> (rsum n f <= rsum n g)%R.
Proof.
  induction n as [|n IH]; intros H; cbn; [lra|].
  assert (rsum n f <= rsum n g)%R by (apply IH; intros; apply H; lia).
  assert (f n <= g n)%R by (apply H; lia). lra.
Qed.

(** The triangle inequality in the plane. *)
Lemma sqrt_triangle2 (p q x y : R) :
  (sqrt ((p + q) * (p + q) + (x + y) * (x + y))
   <= sqrt (p * p + x * x) + sqrt (q * q + y * y))%R.
Proof.
  set (a := (p * p + x * x)%R). set (b := (q * q + y * y)%R).
  assert (Ha : (0 <= a)%R) by (unfold a; nra).
  assert (Hb : (0 <= b)%R) by (unfold b; nra).
  assert (Hsa := sqrt_pos a). assert (Hsb := sqrt_pos b).
  assert (Hab : (p * q + x * y <= sqrt a * sqrt b)%R).
  { rewrite <- sqrt_mult by assumption.
    destruct (Rle_dec (p * q + x * y) 0) as [Hn|Hp].
    - pose proof (sqrt_pos (a * b)). lra.
    - rewrite <- (sqrt_square (p * q + x * y)) by lra.
      apply sqrt_le_1.
      + apply Rle_0_sqr.
      + apply Rmult_le_pos; assumption.
      + unfold a, b.
        pose proof (Rle_0_sqr (p * y - q * x)) as Hsq. unfold Rsqr in Hsq.
        lra. }
  apply Rsqr_incr_0_var; [|lra].
  unfold Rsqr. rewrite sqrt_sqrt
    by (apply Rplus_le_le_0_compat; apply Rle_0_sqr).
  assert (Ea : (sqrt a * sqrt a = a)%R) by (apply sqrt_sqrt; assumption).
  assert (Eb : (sqrt b * sqrt b = b)%R) by (apply sqrt_sqrt; assumption).
  replace ((sqrt a + sqrt b) * (sqrt a + sqrt b))%R
    with (sqrt a * sqrt a + sqrt b * sqrt b + 2 * (sqrt a * sqrt b))%R by ring.
  rewrite Ea, Eb. unfold a, b in *. lra.
Qed.

(** The triangle inequality for the Euclidean norm over the channels. *)
Lemma sqrt_rsum_triangle (n : nat) (u v : nat -> R) :
  (sqrt (rsum n (fun i => (u i + v i) * (u i + v i)))
   <= sqrt (rsum n (fun i => u i * u i))
      + sqrt (rsum n (fun i => v i * v i)))%R.
Proof.
  induction n as [|n IH]; cbn [rsum].
  - rewrite sqrt_0. lra.
  - set (Su := rsum n (fun i => u i * u i)%R) in *.
    set (Sv := rsum n (fun i => v i * v i)%R) in *.
    set (Sw := rsum n (fun i => (u i + v i) * (u i + v i))%R) in *.
    assert (Hu : (0 <= Su)%R) by (apply rsum_nonneg; intros; apply Rle_0_sqr).
    assert (Hv : (0 <= Sv)%R) by (apply rsum_nonneg; intros; apply Rle_0_sqr).
    assert (Hw : (0 <= Sw)%R) by (apply rsum_nonneg; intros; apply Rle_0_sqr).
    assert (Hsu := sqrt_pos Su). assert (Hsv := sqrt_pos Sv).
    assert (Hsw := sqrt_pos Sw). clearbody Su Sv Sw.
    apply Rle_trans
      with (sqrt ((sqrt Su + sqrt Sv) * (sqrt Su + sqrt Sv)
                  + (u n + v n) * (u n + v n))).
    + apply sqrt_le_1.
      * apply Rplus_le_le_0_compat; [assumption | apply Rle_0_sqr].
      * apply Rplus_le_le_0_compat; apply Rle_0_sqr.
      * apply Rplus_le_compat_r.
        rewrite <- (sqrt_sqrt Sw) at 1 by assumption.
        apply Rmult_le_compat; assumption.
    + replace (Su + u n * u n)%R with (sqrt Su * sqrt Su + u n * u n)%R
        by (rewrite sqrt_sqrt by assumption; reflexivity).
      replace (Sv + v n * v n)%R with (sqrt Sv * sqrt Sv + v n * v n)%R
        by (rewrite sqrt_sqrt by assumption; reflexivity).
      apply sqrt_triangle2.
Qed.

(** The per-sample norm of a single sample with finite entries. *)
Lemma sample_norm_single (t : tensor) (a : nat -> nat -> nat -> R) (n : R) :
  (forall c h w, (c < dim1 t)%nat -> (h < dim2 t)%nat -> (w < dim3 t)%nat ->
                 item t 0 c h w = Fin (a c h w)) ->
  item1 (sample_norms t) 0 = Fin n ->
  n = rnorm (dim1 t) (dim2 t) (dim3 t) a /\
  INR (dim2 t * dim3 t) <> 0%R.
Proof.
  intros Ha Hn. rewrite (@sample_norms_fin t 0%nat a Ha) in Hn.
  apply xdiv_fin_inv in Hn. destruct Hn as [Hc ->]. split; [reflexivity|].
  exact Hc.
Qed.

(** The difference-consistency term of one sample with finite entries and
    norms other than zero. *)
Lemma normalized_gap_single
  (gen ref : tensor) (a r : nat -> nat -> nat -> R) (n m : R) :
  dim0 ref = 1%nat -> dim0 gen = 1%nat ->
  dim1 gen = dim1 ref -> dim2 gen = dim2 ref -> dim3 gen = dim3 ref ->
  (forall c h w, (c < dim1 ref)%nat -> (h < dim2 ref)%nat ->
                 (w < dim3 ref)%nat ->
                 item gen 0 c h w = Fin (a c h w) /\
                 item ref 0 c h w = Fin (r c h w)) ->
  item1 (sample_norms gen) 0 = Fin n -> item1 (sample_norms ref) 0 = Fin m ->
  n <> 0%R -> m <> 0%R ->
  normalized_gap gen ref
  = Some (Fin (rsum (dim2 ref) (fun h => rsum (dim3 ref) (fun w =>
                 sqrt (rsum (dim1 ref) (fun c =>
                         (a c h w / n - r c h w / m)
                         * (a c h w / n - r c h w / m)))))
               / INR (dim2 ref * dim3 ref))%R).
Proof.
  intros Hb Hbg H1 H2 H3 Hitems Hn Hm Hn0 Hm0.
  assert (Hcount : INR (dim2 ref * dim3 ref) <> 0%R).
  { apply (@sample_norm_single ref r m); [|exact Hm].
    intros; apply Hitems; assumption. }
  unfold normalized_gap, div_bcast.
  change (len (sample_norms gen)) with (dim0 gen).
  change (len (sample_norms ref)) with (dim0 ref).
  rewrite Hb, Hbg, !bdim_one_r.
  unfold direction_gap, sub_bcast. cbn [dim0 dim1 dim2 dim3 item grad_fn].
  rewrite H1, H2, H3, !bdim_same.
  f_equal. unfold mean_all, norm_dim1.
  cbn [d3_0 d3_1 d3_2 item3 dim0 dim1 dim2 dim3 item].
  replace (1 * dim2 ref * dim3 ref)%nat with (dim2 ref * dim3 ref)%nat
    by lia.
  erewrite (@xsum_n_fin 1 _ (fun _ => _)).
  - rewrite xdiv_fin by assumption. f_equal. cbn [rsum].
    rewrite Rplus_0_l. reflexivity.
  - intros i Hi. assert (i = 0)%nat by lia. subst i.
    apply xsum_n_fin. intros h Hh.
    apply xsum_n_fin. intros w0 Hw.
    erewrite xsum_n_fin.
    + apply xsqrt_fin. apply rsum_nonneg. intros c _. apply Rle_0_sqr.
    + intros c Hc. cbv beta.
      rewrite !(@bidx_lt (dim3 ref) w0), !(@bidx_lt (dim2 ref) h),
        !(@bidx_lt (dim1 ref) c) by assumption.
      change (bidx 1 w0) with 0%nat. change (bidx 1 0) with 0%nat.
      destruct (Hitems c h w0 Hc Hh Hw) as [Eg Er].
      rewrite Er, Eg, Hn, Hm.
      rewrite !xdiv_fin by assumption.
      reflexivity.
Qed.

(** The mean distance between two maps of mean norm 1 is at most 2. *)
Lemma normalized_distance_bound (C H W : nat)
  (a r : nat -> nat -> nat -> R) :
  (0 < rnorm C H W a)%R -> (0 < rnorm C H W r)%R ->
  INR (H * W) <> 0%R ->
  (0 <= rsum H (fun h => rsum W (fun w =>
          sqrt (rsum C (fun c =>
                  (a c h w / rnorm C H W a - r c h w / rnorm C H W r)
                  * (a c h w / rnorm C H W a - r c h w / rnorm C H W r)))))
        / INR (H * W) <= 2)%R.
Proof.
  intros Hn Hm Hc.
  set (n := rnorm C H W a) in *. set (m := rnorm C H W r) in *.
  set (P := fun h w => sqrt (rsum C (fun c => a c h w * a c h w))%R).
  set (Q := fun h w => sqrt (rsum C (fun c => r c h w * r c h w))%R).
  assert (HN : (0 < INR (H * W))%R).
  { pose proof (pos_INR (H * W)). lra. }
  assert (EP : (rsum H (fun h => rsum W (fun w => P h w)) = n * INR (H * W))%R).
  { unfold n, rnorm, P. field. exact Hc. }
  assert (EQ : (rsum H (fun h => rsum W (fun w => Q h w)) = m * INR (H * W))%R).
  { unfold m, rnorm, Q. field. exact Hc. }
  assert (In : (0 < / n)%R) by (apply Rinv_0_lt_compat; exact Hn).
  assert (Im : (0 < / m)%R) by (apply Rinv_0_lt_compat; exact Hm).
  assert (Pix : forall h w,
             (sqrt (rsum C (fun c => (a c h w / n - r c h w / m)
                                     * (a c h w / n - r c h w / m)))
              <= / n * P h w + / m * Q h w)%R).
  { intros h w.
    rewrite (@rsum_ext C _
               (fun c => (/ n * a c h w + / m * - r c h w)
                         * (/ n * a c h w + / m * - r c h w))%R)
      by (intros; unfold Rdiv; ring).
    eapply Rle_trans;
      [exact (sqrt_rsum_triangle C (fun c => / n * a c h w)%R
                (fun c => / m * - r c h w)%R)|].
    cbv beta.
    rewrite (@sqrt_rsum_scal C (/ n) (fun c => a c h w)) by lra.
    rewrite (@sqrt_rsum_scal C (/ m) (fun c => - r c h w)%R) by lra.
    rewrite (@rsum_ext C (fun c => - r c h w * - r c h w)%R
               (fun c => r c h w * r c h w)%R) by (intros; ring).
    unfold P, Q. lra. }
  clearbody P Q. split.
  - apply Rmult_le_pos; [|left; apply Rinv_0_lt_compat; exact HN].
    apply rsum_nonneg. intros h _. apply rsum_nonneg. intros w _.
    apply sqrt_pos.
  - apply Rle_trans
      with ((rsum H (fun h => rsum W (fun w => / n * P h w + / m * Q h w)))
            / INR (H * W))%R.
    + apply Rmult_le_compat_r; [left; apply Rinv_0_lt_compat; exact HN|].
      apply rsum_le. intros h _. apply rsum_le. intros w _. apply Pix.
    + rewrite (@rsum_ext H _
                 (fun h => / n * rsum W (fun w => P h w)
                           + / m * rsum W (fun w => Q h w))%R)
        by (intros; rewrite rsum_plus, !rsum_scal; reflexivity).
      rewrite rsum_plus, !rsum_scal, EP, EQ.
      right. field. repeat split; lra.
Qed.

Lemma entries_single (t : tensor) (a : nat -> nat -> nat -> nat -> R) :
  entries t a -> dim0 t = 1%nat ->
  forall c h w, (c < dim1 t)%nat -> (h < dim2 t)%nat -> (w < dim3 t)%nat ->
                item t 0 c h w = Fin (a 0%nat c h w).
Proof. intros He Hb c h w Hc Hh Hw. apply He; try assumption. lia. Qed.

(** The per-sample norm of a single sample that has one. *)
Lemma positive_norm_single (t : tensor) (a : nat -> nat -> nat -> nat -> R) :
  entries t a -> dim0 t = 1%nat -> positive_norm t ->
  item1 (sample_norms t) 0 = Fin (rnorm (dim1 t) (dim2 t) (dim3 t) (a 0%nat))
  /\ (0 < rnorm (dim1 t) (dim2 t) (dim3 t) (a 0%nat))%R
  /\ INR (dim2 t * dim3 t) <> 0%R.
Proof.
  intros He Hb Hp. destruct (Hp 0%nat) as (n & Hn & Hpos); [lia|].
  destruct (@sample_norm_single t (a 0%nat) n (entries_single He Hb) Hn)
    as [-> Hc].
  auto.
Qed.

(** For one sample, the term lies between 0 and 2. *)
Lemma normalized_gap_bounded (gen ref : tensor)
  (a r : nat -> nat -> nat -> nat -> R) :
  dim0 ref = 1%nat -> same_shape gen ref ->
  entries gen a -> entries ref r ->
  positive_norm gen -> positive_norm ref ->
  exists x, normalized_gap gen ref = Some (Fin x) /\ (0 <= x <= 2)%R.
Proof.
  intros Hb (S0 & S1 & S2 & S3) Ha Hr Pg Pr.
  assert (Hbg : dim0 gen = 1%nat) by congruence.
  destruct (positive_norm_single Ha Hbg Pg) as (Ng & Pn & _).
  destruct (positive_norm_single Hr Hb Pr) as (Nr & Pm & Hc).
  rewrite S1, S2, S3 in Ng, Pn.
  assert (Hitems : forall c h w,
             (c < dim1 ref)%nat -> (h < dim2 ref)%nat ->
             (w < dim3 ref)%nat ->
             item gen 0 c h w = Fin (a 0%nat c h w) /\
             item ref 0 c h w = Fin (r 0%nat c h w)).
  { intros c h w Hc' Hh Hw. split.
    - apply (entries_single Ha Hbg); congruence.
    - apply (entries_single Hr Hb); assumption. }
  rewrite (@normalized_gap_single gen ref (a 0%nat) (r 0%nat)
             (rnorm (dim1 ref) (dim2 ref) (dim3 ref) (a 0%nat))
             (rnorm (dim1 ref) (dim2 ref) (dim3 ref) (r 0%nat))
             Hb Hbg S1 S2 S3 Hitems Ng Nr) by lra.
  eexists. split; [reflexivity|].
  apply normalized_distance_bound; assumption.
Qed.

(** X14.  The normalization does what it is meant to do on one sample: the
    normalized map has per-sample norm exactly 1. *)
Theorem normalized_map_has_unit_norm (t : tensor)
  (a : nat -> nat -> nat -> nat -> R) :
  dim0 t = 1%nat -> entries t a -> positive_norm t ->
  exists t',
    div_bcast t (sample_norms t) = Some t' /\
    same_shape t' t /\
    item1 (sample_norms t') 0 = Fin 1.
Proof.
  intros Hb Ha Hp.
  destruct (positive_norm_single Ha Hb Hp) as (Hn & Hpos & Hc).
  set (n := rnorm (dim1 t) (dim2 t) (dim3 t) (a 0%nat)) in *.
  unfold div_bcast. change (len (sample_norms t)) with (dim0 t).
  rewrite Hb, bdim_one_r. eexists. split; [reflexivity|].
  split; [repeat split; cbn; congruence|].
  rewrite (@sample_norms_fin _ 0%nat (fun c h w => / n * a 0%nat c h w)%R).
  - cbn [dim1 dim2 dim3]. rewrite xdiv_fin by exact Hc. f_equal.
    change (rnorm (dim1 t) (dim2 t) (dim3 t)
              (fun c h w => / n * a 0%nat c h w)%R = 1%R).
    rewrite rnorm_scal by (left; apply Rinv_0_lt_compat; exact Hpos).
    fold n. field. lra.
  - cbn [dim1 dim2 dim3 item]. intros c h w Hc' Hh Hw.
    rewrite (@bidx_lt (dim3 t) w) by assumption.
    change (bidx 1 w) with 0%nat.
    rewrite (entries_single Ha Hb) by assumption.
    rewrite Hn, xdiv_fin by lra. f_equal. unfold Rdiv. ring.
Qed.

Lemma entries_pixel (x : R) : entries (pixel x) (fun _ _ _ _ => x).
Proof.
  intros b c h w Hb Hc Hh Hw. cbn in Hb, Hc, Hh, Hw.
  assert (b = 0 /\ c = 0 /\ h = 0 /\ w = 0)%nat as (-> & -> & -> & ->) by lia.
  reflexivity.
Qed.

Lemma positive_norm_pixel (x : R) : (0 < x)%R -> positive_norm (pixel x).
Proof.
  intros Hx b Hb. cbn in Hb. assert (b = 0)%nat by lia. subst b.
  exists x. split; [|exact Hx].
  unfold sample_norms, mean_dims12, norm_dim1, pixel. eval_items.
  rewrite !xsqrt_sq. cbn [xadd xlift2]. rewrite xdiv_fin by (cbn; lra).
  f_equal. rewrite Rabs_right by lra. cbn. field.
Qed.

Lemma normalized_map_has_unit_norm_witness :
  exists t',
    div_bcast (pixel 2) (sample_norms (pixel 2)) = Some t' /\
    same_shape t' (pixel 2) /\
    item1 (sample_norms t') 0 = Fin 1.
Proof.
  apply (@normalized_map_has_unit_norm (pixel 2) (fun _ _ _ _ => 2%R)).
  - reflexivity.
  - apply entries_pixel.
  - apply positive_norm_pixel. lra.
Defined.

(** *** Scaling and reversing a map *)

Lemma entries_scale (k : R) (t : tensor) (a : nat -> nat -> nat -> nat -> R) :
  entries t a -> entries (scale k t) (fun b c h w => k * a b c h w)%R.
Proof.
  intros Ha b c h w Hb Hc Hh Hw. cbn [scale item].
  rewrite (Ha b c h w) by assumption. reflexivity.
Qed.

Lemma rnorm_ext (C H W : nat) (f g : nat -> nat -> nat -> R) :
  (forall c h w, (f c h w * f c h w = g c h w * g c h w)%R) ->
  rnorm C H W f = rnorm C H W g.
Proof.
  intros E. unfold rnorm. f_equal.
  apply rsum_ext. intros h _. apply rsum_ext. intros w _. f_equal.
  apply rsum_ext. intros c _. apply E.
Qed.

(** The per-sample norm of a scaled single sample. *)
Lemma sample_norm_scale (k : R) (t : tensor)
  (a : nat -> nat -> nat -> nat -> R) :
  entries t a -> dim0 t = 1%nat -> positive_norm t ->
  item1 (sample_norms (scale k t)) 0
  = Fin (Rabs k * rnorm (dim1 t) (dim2 t) (dim3 t) (a 0%nat)).
Proof.
  intros Ha Hb Hp.
  destruct (positive_norm_single Ha Hb Hp) as (_ & _ & Hc).
  rewrite (@sample_norms_fin (scale k t) 0%nat
             (fun c h w => k * a 0%nat c h w)%R)
    by (intros; apply (entries_single (entries_scale k Ha) Hb); assumption).
  cbn [scale dim1 dim2 dim3]. rewrite xdiv_fin by exact Hc. f_equal.
  change (rnorm (dim1 t) (dim2 t) (dim3 t) (fun c h w => k * a 0%nat c h w)%R
          = (Rabs k * rnorm (dim1 t) (dim2 t) (dim3 t) (a 0%nat))%R).
  rewrite <- rnorm_scal by apply Rabs_pos.
  apply rnorm_ext. intros c h w.
  destruct (Rcase_abs k) as [Hk | Hk].
  - rewrite (Rabs_left k Hk). ring.
  - rewrite (Rabs_right k Hk). ring.
Qed.

(** X15.  In exact real arithmetic, for one sample the term depends on the
    directions of the two maps only: multiplying the generated map by a
    positive factor does not change it.  Rounding and overflow are not
    modelled: the float32 value computed by torch can change with the
    factor by rounding error, and by overflow for very large factors. *)
Theorem difference_term_ignores_scale (gen ref : tensor)
  (a r : nat -> nat -> nat -> nat -> R) (k : R) :
  (0 < k)%R ->
  dim0 ref = 1%nat -> same_shape gen ref ->
  entries gen a -> entries ref r ->
  positive_norm gen -> positive_norm ref ->
  normalized_gap (scale k gen) ref = normalized_gap gen ref.
Proof.
  intros Hk Hb (S0 & S1 & S2 & S3) Ha Hr Pg Pr.
  assert (Hbg : dim0 gen = 1%nat) by congruence.
  destruct (positive_norm_single Ha Hbg Pg) as (Ng & Pn & _).
  destruct (positive_norm_single Hr Hb Pr) as (Nr & Pm & Hc).
  pose proof (sample_norm_scale k Ha Hbg Pg) as Nk.
  rewrite Rabs_right in Nk by lra.
  rewrite S1, S2, S3 in Ng, Pn, Nk.
  set (n := rnorm (dim1 ref) (dim2 ref) (dim3 ref) (a 0%nat)) in *.
  set (m := rnorm (dim1 ref) (dim2 ref) (dim3 ref) (r 0%nat)) in *.
  rewrite (@normalized_gap_single gen ref (a 0%nat) (r 0%nat) n m
             Hb Hbg S1 S2 S3); try assumption; try lra.
  - rewrite (@normalized_gap_single (scale k gen) ref
               (fun c h w => k * a 0%nat c h w)%R (r 0%nat) (k * n)%R m
               Hb Hbg S1 S2 S3); try assumption; try lra.
    + do 3 f_equal. apply rsum_ext. intros h _. apply rsum_ext. intros w _.
      f_equal. apply rsum_ext. intros c _.
      replace (k * a 0%nat c h w / (k * n))%R with (a 0%nat c h w / n)%R
        by (field; split; lra).
      reflexivity.
    + intros c h w Hc' Hh Hw. split.
      * apply (entries_single (entries_scale k Ha) Hbg); cbn; congruence.
      * apply (entries_single Hr Hb); assumption.
    + apply Rgt_not_eq. apply Rmult_lt_0_compat; assumption.
  - intros c h w Hc' Hh Hw. split.
    + apply (entries_single Ha Hbg); congruence.
    + apply (entries_single Hr Hb); assumption.
Qed.

Lemma difference_term_ignores_scale_witness :
  normalized_gap (scale 3 (pixel 2)) (pixel 1)
  = normalized_gap (pixel 2) (pixel 1).
Proof.
  apply (@difference_term_ignores_scale (pixel 2) (pixel 1)
           (fun _ _ _ _ => 2%R) (fun _ _ _ _ => 1%R) 3%R).
  - lra.
  - reflexivity.
  - repeat split.
  - apply entries_pixel.
  - apply entries_pixel.
  - apply positive_norm_pixel. lra.
  - apply positive_norm_pixel. lra.
Defined.

(** X16.  In exact real arithmetic, for one sample a generated map that
    points opposite to its reference map gives the largest value the term
    can take, 2.  Rounding is not modelled: the float32 value computed by
    torch can differ from 2 by rounding error. *)
Theorem opposite_maps_reach_the_bound (ref : tensor)
  (r : nat -> nat -> nat -> nat -> R) (k : R) :
  (k < 0)%R ->
  dim0 ref = 1%nat -> entries ref r -> positive_norm ref ->
  normalized_gap (scale k ref) ref = Some (Fin 2).
Proof.
  intros Hk Hb Hr Pr.
  destruct (positive_norm_single Hr Hb Pr) as (Nr & Pm & Hc).
  pose proof (sample_norm_scale k Hr Hb Pr) as Nk.
  rewrite Rabs_left in Nk by exact Hk.
  set (m := rnorm (dim1 ref) (dim2 ref) (dim3 ref) (r 0%nat)) in *.
  rewrite (@normalized_gap_single (scale k ref) ref
             (fun c h w => k * r 0%nat c h w)%R (r 0%nat) (- k * m)%R m
             Hb Hb eq_refl eq_refl eq_refl); try assumption; try lra.
  - do 2 f_equal.
    rewrite (@rsum_ext (dim2 ref) _
               (fun h => 2 * / m
                         * rsum (dim3 ref) (fun w =>
                             sqrt (rsum (dim1 ref) (fun c =>
                                     r 0%nat c h w * r 0%nat c h w))))%R).
    + rewrite rsum_scal.
      fold (rnorm (dim1 ref) (dim2 ref) (dim3 ref) (r 0%nat)).
      replace (rsum (dim2 ref) (fun h => rsum (dim3 ref) (fun w =>
                 sqrt (rsum (dim1 ref) (fun c =>
                         r 0%nat c h w * r 0%nat c h w)))))%R
        with (m * INR (dim2 ref * dim3 ref))%R
        by (unfold m, rnorm; field; exact Hc).
      field. split; first [exact Hc | lra].
    + intros h _. rewrite <- rsum_scal. apply rsum_ext. intros w _.
      rewrite <- (@sqrt_rsum_scal (dim1 ref) (2 * / m)
                    (fun c => r 0%nat c h w));
        [|apply Rmult_le_pos; [lra | left; apply Rinv_0_lt_compat; exact Pm]].
      f_equal. apply rsum_ext. intros c _. field. split; lra.
  - intros c h w Hc' Hh Hw. split.
    + apply (entries_single (entries_scale k Hr) Hb); assumption.
    + apply (entries_single Hr Hb); assumption.
  - apply Rgt_not_eq. apply Rmult_lt_0_compat; lra.
Qed.

Lemma opposite_maps_reach_the_bound_witness :
  normalized_gap (scale (-1) (pixel 1)) (pixel 1) = Some (Fin 2).
Proof.
  apply (@opposite_maps_reach_the_bound (pixel 1) (fun _ _ _ _ => 1%R)).
  - lra.
  - reflexivity.
  - apply entries_pixel.
  - apply positive_norm_pixel. lra.
Defined.

(** *** Symmetry *)

Lemma bdim_comm (x y : nat) : bdim x y = bdim y x.
Proof.
  unfold bdim.
  destruct (x =? y)%nat eqn:E1; destruct (y =? x)%nat eqn:E2;
    destruct (x =? 1)%nat eqn:E3; destruct (y =? 1)%nat eqn:E4;
    repeat match goal with
           | H : (_ =? _)%nat = true |- _ => apply Nat.eqb_eq in H
           | H : (_ =? _)%nat = false |- _ => apply Nat.eqb_neq in H
           end;
    try reflexivity; try (f_equal; lia); try (exfalso; lia).
Qed.

Lemma xsum_n_ext (n : nat) (f g : nat -> xreal) :
  (forall i, f i = g i) -> xsum_n n f = xsum_n n g.
Proof. intros H. unfold xsum_n. f_equal. apply map_ext. exact H. Qed.

Lemma xsub_square_comm (x y : xreal) :
  ((x - y) * (x - y))%X = ((y - x) * (y - x))%X.
Proof. destruct x, y; cbn; try reflexivity. f_equal. ring. Qed.

Lemma direction_gap_comm (a b : tensor) :
  direction_gap a b = direction_gap b a.
Proof.
  unfold direction_gap, sub_bcast.
  rewrite (bdim_comm (dim0 b)), (bdim_comm (dim1 b)), (bdim_comm (dim2 b)),
    (bdim_comm (dim3 b)).
  destruct (bdim (dim0 a) (dim0 b)); [|reflexivity].
  destruct (bdim (dim1 a) (dim1 b)); [|reflexivity].
  destruct (bdim (dim2 a) (dim2 b)); [|reflexivity].
  destruct (bdim (dim3 a) (dim3 b)); [|reflexivity].
  f_equal. unfold mean_all, norm_dim1.
  cbn [d3_0 d3_1 d3_2 item3 dim0 dim1 dim2 dim3 item].
  f_equal. apply xsum_n_ext. intros i. apply xsum_n_ext. intros h.
  apply xsum_n_ext. intros w. f_equal. apply xsum_n_ext. intros c.
  apply xsub_square_comm.
Qed.

(** X17.  The term treats the generated and the reference map alike, for every
    batch size: exchanging them changes neither its value nor whether it can be
    computed. *)
Theorem difference_term_symmetric (gen ref : tensor) :
  normalized_gap gen ref = normalized_gap ref gen.
Proof.
  unfold normalized_gap.
  destruct (div_bcast gen (sample_norms gen)) as [g|];
    destruct (div_bcast ref (sample_norms ref)) as [r|]; try reflexivity.
  apply direction_gap_comm.
Qed.

(** *** The loss that [backward_G] stores *)

Lemma Q2R_nonneg (q : Q) : (0 <= q)%Q -> (0 <= Q2R q)%R.
Proof.
  intros H. apply Qle_Rle in H.
  replace (Q2R 0) with 0%R in H by (unfold Q2R; cbn; lra). exact H.
Qed.

Lemma xsum_nonneg (l : list xreal) (t : R) :
  (forall x v, In x l -> x = Fin v -> (0 <= v)%R) ->
  xsum l = Fin t -> (0 <= t)%R.
Proof.
  revert t. induction l as [|a l IH]; intros t H Hs.
  - injection Hs as <-. lra.
  - rewrite xsum_cons in Hs. destruct a as [v|]; [|discriminate Hs].
    destruct (xsum l) as [t'|] eqn:El; [|discriminate Hs].
    injection Hs as <-.
    assert (0 <= v)%R by (apply (H (Fin v)); [left|]; reflexivity).
    assert (0 <= t')%R
      by (apply IH; [intros x w Hx; apply H; right; exact Hx | reflexivity]).
    lra.
Qed.

Lemma xsum_n_nonneg (n : nat) (f : nat -> xreal) (t : R) :
  (forall i v, f i = Fin v -> (0 <= v)%R) ->
  xsum_n n f = Fin t -> (0 <= t)%R.
Proof.
  intros H. apply xsum_nonneg. intros x v Hx Hv.
  apply in_map_iff in Hx. destruct Hx as (i & <- & _). exact (H i v Hv).
Qed.

Lemma xsqrt_nonneg (z : xreal) (v : R) : xsqrt z = Fin v -> (0 <= v)%R.
Proof.
  destruct z as [y|]; [|discriminate]. cbn.
  destruct (Rlt_dec y 0); [discriminate|].
  intros H. injection H as <-. apply sqrt_pos.
Qed.

(** The term is never negative, for any batch size. *)
Lemma normalized_gap_nonneg (gen ref : tensor) (g : R) :
  normalized_gap gen ref = Some (Fin g) -> (0 <= g)%R.
Proof.
  unfold normalized_gap.
  destruct (div_bcast gen (sample_norms gen)) as [a|]; [|discriminate].
  destruct (div_bcast ref (sample_norms ref)) as [b|]; [|discriminate].
  unfold direction_gap. destruct (sub_bcast a b) as [d|]; [|discriminate].
  intros H. injection H as H. unfold mean_all in H.
  destruct (xsum_n (d3_0 (norm_dim1 d)) _) as [t|] eqn:Et; [|discriminate H].
  apply xdiv_fin_inv in H. destruct H as [Hc ->].
  apply Rmult_le_pos.
  - revert Et. apply xsum_n_nonneg. intros i v. apply xsum_n_nonneg.
    intros h v'. apply xsum_n_nonneg. intros w v''. apply xsqrt_nonneg.
  - left. apply Rinv_0_lt_compat.
    pose proof (pos_INR (d3_0 (norm_dim1 d) * d3_1 (norm_dim1 d)
                         * d3_2 (norm_dim1 d))).
    lra.
Qed.

Section StoredLoss.

Variable E : Env.

(** The two difference losses that a call of [backward_G] stores. *)
Lemma backward_G_diff_losses (s s' : state) (u : unit) :
  backward_G E s = Ok u s' ->
  exists dA rA dB rB gA gB,
    tensors s diff_A = Some dA /\ tensors s real_diff_A = Some rA /\
    tensors s diff_B = Some dB /\ tensors s real_diff_B = Some rB /\
    normalized_gap dA rA = Some gA /\ normalized_gap dB rB = Some gB /\
    losses s' loss_diff_A
    = Some (gA * weight (lambda_A (opt s)) * weight (lambda_diff_s (opt s)))%X
    /\
    losses s' loss_diff_B
    = Some (gB * weight (lambda_B (opt s)) * weight (lambda_diff_t (opt s)))%X.
Proof.
  unfold_backward_G. unfold_calls. intros H. cbv zeta in H.
  inv_ok; store;
    repeat match goal with
           | H1 : tensors s ?a = Some ?x, H2 : tensors s ?a = Some ?y |- _ =>
               rewrite H1 in H2; injection H2 as H2; try subst
           end;
    unfold normalized_gap;
    do 6 eexists;
    (split; [eassumption|]); (split; [eassumption|]);
    (split; [eassumption|]); (split; [eassumption|]);
    repeat match goal with
           | H1 : div_bcast _ _ = Some _ |- _ => rewrite H1; clear H1
           end;
    (split; [eassumption|]); (split; [eassumption|]);
    split; reflexivity.
Qed.

End StoredLoss.

(** X18.  With weights that are not negative, each of the two difference losses
    that [backward_G] stores is either non-finite or a real number that is not
    negative, for any batch size. *)
Theorem difference_losses_nonnegative (E : Env) (s s' : state) :
  backward_G E s = Ok tt s' ->
  ((0 <= lambda_A (opt s))%Q -> (0 <= lambda_diff_s (opt s))%Q ->
   losses s' loss_diff_A = Some NonFinite \/
   exists x, losses s' loss_diff_A = Some (Fin x) /\ (0 <= x)%R) /\
  ((0 <= lambda_B (opt s))%Q -> (0 <= lambda_diff_t (opt s))%Q ->
   losses s' loss_diff_B = Some NonFinite \/
   exists x, losses s' loss_diff_B = Some (Fin x) /\ (0 <= x)%R).
Proof.
  intros Run. apply backward_G_diff_losses in Run.
  destruct Run as (dA & rA & dB & rB & gA & gB & _ & _ & _ & _ & GA & GB
                   & LA & LB).
  split; intros H1 H2; apply Q2R_nonneg in H1; apply Q2R_nonneg in H2.
  - rewrite LA. destruct gA as [g|]; [right | left; reflexivity].
    apply normalized_gap_nonneg in GA.
    eexists. split; [reflexivity|].
    apply Rmult_le_pos; [apply Rmult_le_pos|]; assumption.
  - rewrite LB. destruct gB as [g|]; [right | left; reflexivity].
    apply normalized_gap_nonneg in GB.
    eexists. split; [reflexivity|].
    apply Rmult_le_pos; [apply Rmult_le_pos|]; assumption.
Qed.

Lemma difference_losses_nonnegative_witness :
  losses demo_after_G loss_diff_A = Some NonFinite \/
  exists x, losses demo_after_G loss_diff_A = Some (Fin x) /\ (0 <= x)%R.
Proof.
  assert (Run : backward_G quiet_env demo_forwarded = Ok tt demo_after_G)
    by (apply returned; vm_compute; reflexivity).
  refine (proj1 (@difference_losses_nonnegative quiet_env demo_forwarded
                   demo_after_G Run) _ _);
    clear Run; vm_compute; intros C; discriminate C.
Defined.

Lemma bounded_loss (g : R) (p q : Q) :
  (0 <= g <= 2)%R -> (0 <= p)%Q -> (0 <= q)%Q ->
  (0 <= g * Q2R p * Q2R q <= 2 * Q2R p * Q2R q)%R.
Proof.
  intros [G0 G2] Hp Hq. apply Q2R_nonneg in Hp. apply Q2R_nonneg in Hq.
  assert (0 <= Q2R p * Q2R q)%R by (apply Rmult_le_pos; assumption).
  rewrite !Rmult_assoc. split.
  - apply Rmult_le_pos; assumption.
  - apply Rmult_le_compat_r; assumption.
Qed.

(** X19.  In exact real arithmetic, when the batch holds one sample, the maps
    have finite entries and norms other than zero, and the weights are not
    negative, each difference loss that [backward_G] stores is finite and
    lies between 0 and twice the product of its two weights.  Rounding and
    overflow are not modelled: the upper bound is reached in exact
    arithmetic, so the float32 value computed by torch can exceed it by
    rounding error. *)
Theorem difference_loss_between_0_and_2 (E : Env) (s s' : state) :
  backward_G E s = Ok tt s' ->
  (forall dA rA a r,
      tensors s diff_A = Some dA -> tensors s real_diff_A = Some rA ->
      dim0 rA = 1%nat -> same_shape dA rA ->
      entries dA a -> entries rA r ->
      positive_norm dA -> positive_norm rA ->
      (0 <= lambda_A (opt s))%Q -> (0 <= lambda_diff_s (opt s))%Q ->
      exists x,
        losses s' loss_diff_A = Some (Fin x) /\
        (0 <= x <= 2 * Q2R (lambda_A (opt s))
                   * Q2R (lambda_diff_s (opt s)))%R) /\
  (forall dB rB a r,
      tensors s diff_B = Some dB -> tensors s real_diff_B = Some rB ->
      dim0 rB = 1%nat -> same_shape dB rB ->
      entries dB a -> entries rB r ->
      positive_norm dB -> positive_norm rB ->
      (0 <= lambda_B (opt s))%Q -> (0 <= lambda_diff_t (opt s))%Q ->
      exists x,
        losses s' loss_diff_B = Some (Fin x) /\
        (0 <= x <= 2 * Q2R (lambda_B (opt s))
                   * Q2R (lambda_diff_t (opt s)))%R).
Proof.
  intros Run. apply backward_G_diff_losses in Run.
  destruct Run as (dA & rA & dB & rB & gA & gB & HdA & HrA & HdB & HrB
                   & GA & GB & LA & LB).
  split.
  - intros dA' rA' a r HD HR Hb Sh Ea Er Pd Pr W1 W2.
    rewrite HdA in HD. injection HD as <-.
    rewrite HrA in HR. injection HR as <-.
    destruct (normalized_gap_bounded Hb Sh Ea Er Pd Pr) as (g & Hg & Bg).
    rewrite GA in Hg. injection Hg as ->.
    eexists. split; [rewrite LA; reflexivity|].
    apply bounded_loss; assumption.
  - intros dB' rB' a r HD HR Hb Sh Ea Er Pd Pr W1 W2.
    rewrite HdB in HD. injection HD as <-.
    rewrite HrB in HR. injection HR as <-.
    destruct (normalized_gap_bounded Hb Sh Ea Er Pd Pr) as (g & Hg & Bg).
    rewrite GB in Hg. injection Hg as ->.
    eexists. split; [rewrite LB; reflexivity|].
    apply bounded_loss; assumption.
Qed.

Lemma difference_loss_between_0_and_2_witness :
  exists x,
    losses demo_after_G loss_diff_A = Some (Fin x) /\
    (0 <= x <= 2 * Q2R (lambda_A (opt demo_forwarded))
               * Q2R (lambda_diff_s (opt demo_forwarded)))%R.
Proof.
  assert (Run : backward_G quiet_env demo_forwarded = Ok tt demo_after_G)
    by (apply returned; vm_compute; reflexivity).
  refine (proj1 (@difference_loss_between_0_and_2 quiet_env demo_forwarded
                   demo_after_G Run)
            (pixel 2) (pixel 1) (fun _ _ _ _ => 2%R) (fun _ _ _ _ => 1%R)
            _ _ _ _ (@entries_pixel 2%R) (@entries_pixel 1%R) _ _ _ _).
  - vm_compute. reflexivity.
  - vm_compute. reflexivity.
  - reflexivity.
  - repeat split.
  - apply positive_norm_pixel. lra.
  - apply positive_norm_pixel. lra.
  - clear Run. vm_compute. intros C. discriminate C.
  - clear Run. vm_compute. intros C. discriminate C.
Defined.

(* ================================================================== *)
(** ** Shapes the normalization accepts *)

Lemma fits_false (t : tensor) :
  fits t = false -> div_bcast t (sample_norms t) = None.
Proof.
  unfold fits, div_bcast, bdim.
  change (len (sample_norms t)) with (dim0 t).
  destruct (dim3 t =? dim0 t)%nat; [discriminate|].
  destruct (dim3 t =? 1)%nat; [discriminate|].
  destruct (dim0 t =? 1)%nat; [discriminate|]. reflexivity.
Qed.

Ltac shape_error H :=
  repeat match goal with
         | K : div_bcast _ _ = Some _ |- _ =>
             rewrite (fits_false _ H) in K; discriminate K
         end.

(** X20.  The per-sample norms are laid along the width of the maps, so the
    normalization needs a batch of one sample, a width of one, or a batch size
    equal to the width. With any other difference map, reference or generated,
    [backward_G] raises RuntimeError although no collaborator raises; nothing
    is back-propagated and loss_G is not assigned. *)
Theorem batch_size_must_fit_the_width (E : Env) (s : state)
  (xa xb rA rB fB dA cA fA dB cB : tensor) :
  never_raise E ->
  tensors s real_A = Some xa -> tensors s real_B = Some xb ->
  tensors s real_diff_A = Some rA -> tensors s real_diff_B = Some rB ->
  tensors s fake_B = Some fB -> tensors s diff_A = Some dA ->
  tensors s rec_A = Some cA -> tensors s fake_A = Some fA ->
  tensors s diff_B = Some dB -> tensors s rec_B = Some cB ->
  fits rA = false \/ fits rB = false \/ fits dA = false \/ fits dB = false ->
  exists s',
    backward_G E s = Raise RuntimeError s' /\
    backwards_of (trace s') = backwards_of (trace s) /\
    losses s' loss_G = losses s loss_G.
Proof.
  intros (NGA & NGB & NDA & NDB & NGAN & NCYC & NIDT).
  intros HxA HxB HrA HrB HfB HdA HcA HfA HdB HcB Hfit.
  assert (Goal : ends (backward_G E) s (fun o =>
            match o with
            | Ok _ _ => False
            | Raise e s' =>
                e = RuntimeError /\
                backwards_of (trace s') = backwards_of (trace s) /\
                losses s' loss_G = losses s loss_G
            end)).
  { unfold_backward_G. unfold_calls.
    repeat explore_step.
    all: store_goal.
    all: try solve [ exfalso;
                     first [ eapply NGA; eassumption | eapply NGB; eassumption
                           | eapply NDA; eassumption | eapply NDB; eassumption
                           | eapply NGAN; eassumption
                           | eapply NCYC; eassumption
                           | eapply NIDT; eassumption ] ].
    all: try solve [ destruct Hfit as [H | [H | [H | H]]];
                     first [ rewrite (fits_false _ H) in *; discriminate
                           | shape_error H ] ].
    all: split; [reflexivity|].
    all: split; [|reflexivity].
    all: unfold backwards_of; rewrite ?filter_app; cbn [filter is_backward];
      rewrite ?app_nil_r; reflexivity. }
  unfold ends in Goal.
  destruct (backward_G E s) as [u s'|e s']; [contradiction|].
  destruct Goal as (-> & HB & HL). exists s'. auto.
Qed.

Lemma never_raise_wide_env : never_raise wide_env.
Proof. repeat split; intros; discriminate. Qed.

Lemma batch_size_must_fit_the_width_witness :
  exists s',
    backward_G wide_env wide_forwarded = Raise RuntimeError s' /\
    backwards_of (trace s') = backwards_of (trace wide_forwarded) /\
    losses s' loss_G = losses wide_forwarded loss_G.
Proof.
  refine (@batch_size_must_fit_the_width wide_env wide_forwarded
            ref23 ref23 ref23 ref23 ref23 ref23 ref23 ref23 ref23 ref23
            never_raise_wide_env _ _ _ _ _ _ _ _ _ _
            (or_introl eq_refl));
    vm_compute; reflexivity.
Defined.

(* ================================================================== *)
(** ** Adversarial and cycle terms of the generator loss *)

(** X21.  A call of [backward_G] that returns has scored the translated images
    with the discriminators as they are, not detached, against the label True,
    and has compared each reconstruction with its input; the cycle terms are
    weighted by lambda_A and lambda_B. *)
Theorem adversarial_and_cycle_losses (E : Env) (s s' : state) :
  backward_G E s = Ok tt s' ->
  exists fB fA cA cB xa xb pA pB lA lB cyA cyB,
    tensors s fake_B = Some fB /\ tensors s fake_A = Some fA /\
    tensors s rec_A = Some cA /\ tensors s rec_B = Some cB /\
    tensors s real_A = Some xa /\ tensors s real_B = Some xb /\
    netD_A E fB = Some pA /\ criterionGAN E pA true = Some lA /\
    losses s' loss_G_A = Some lA /\
    netD_B E fA = Some pB /\ criterionGAN E pB true = Some lB /\
    losses s' loss_G_B = Some lB /\
    criterionCycle E cA xa = Some cyA /\
    losses s' loss_cycle_A = Some (cyA * weight (lambda_A (opt s)))%X /\
    criterionCycle E cB xb = Some cyB /\
    losses s' loss_cycle_B = Some (cyB * weight (lambda_B (opt s)))%X.
Proof.
  unfold_backward_G. unfold_calls. intros H. cbv zeta in H.
  inv_ok; store;
    repeat match goal with
           | H1 : tensors s ?a = Some ?x, H2 : tensors s ?a = Some ?y |- _ =>
               rewrite H1 in H2; injection H2 as H2; try subst
           end;
    do 12 eexists;
    repeat (split; [eassumption|]);
    repeat (split; [first [eassumption | reflexivity]|]);
    first [eassumption | reflexivity].
Qed.

Lemma adversarial_and_cycle_losses_witness :
  exists fB fA cA cB xa xb pA pB lA lB cyA cyB,
    tensors demo_forwarded fake_B = Some fB /\
    tensors demo_forwarded fake_A = Some fA /\
    tensors demo_forwarded rec_A = Some cA /\
    tensors demo_forwarded rec_B = Some cB /\
    tensors demo_forwarded real_A = Some xa /\
    tensors demo_forwarded real_B = Some xb /\
    netD_A quiet_env fB = Some pA /\
    criterionGAN quiet_env pA true = Some lA /\
    losses demo_after_G loss_G_A = Some lA /\
    netD_B quiet_env fA = Some pB /\
    criterionGAN quiet_env pB true = Some lB /\
    losses demo_after_G loss_G_B = Some lB /\
    criterionCycle quiet_env cA xa = Some cyA /\
    losses demo_after_G loss_cycle_A
    = Some (cyA * weight (lambda_A (opt demo_forwarded)))%X /\
    criterionCycle quiet_env cB xb = Some cyB /\
    losses demo_after_G loss_cycle_B
    = Some (cyB * weight (lambda_B (opt demo_forwarded)))%X.
Proof.
  apply (@adversarial_and_cycle_losses quiet_env demo_forwarded
           demo_after_G).
  apply returned. vm_compute. reflexivity.
Defined.

(* ================================================================== *)
(** ** What the discriminator losses leave alone *)

(** Exploration that also splits on attributes nothing is known about. *)
Ltac explore_all :=
  repeat first
    [ explore_step
    | match goal with
      | |- match tensors ?s ?a with _ => _ end => destruct (tensors s a)
      | |- match losses ?s ?a with _ => _ end => destruct (losses s a)
      | |- match norms ?s ?a with _ => _ end => destruct (norms s a)
      end ].

Section DiscriminatorFrame.

Variable E : Env.

Lemma backward_D_A_frame :
  preserves (fun s => (tensors s, norms s, (requires_grad s, updates s),
                       (opt s, visual_names s, loss_names s)))
    (backward_D_A E).
Proof.
  repeat apply preserves_pair;
    unfold backward_D_A, backward_D_basic; unfold_calls; pres.
Qed.

Lemma backward_D_B_frame :
  preserves (fun s => (tensors s, norms s, (requires_grad s, updates s),
                       (opt s, visual_names s, loss_names s)))
    (backward_D_B E).
Proof.
  repeat apply preserves_pair;
    unfold backward_D_B, backward_D_basic; unfold_calls; pres.
Qed.

Lemma backward_D_A_other_losses (a : lattr) :
  a <> loss_D_A -> preserves (fun s => losses s a) (backward_D_A E).
Proof.
  intros Ha. destruct a; try (contradiction Ha; reflexivity);
    unfold backward_D_A, backward_D_basic; unfold_calls; pres.
Qed.

Lemma backward_D_B_other_losses (a : lattr) :
  a <> loss_D_B -> preserves (fun s => losses s a) (backward_D_B E).
Proof.
  intros Ha. destruct a; try (contradiction Ha; reflexivity);
    unfold backward_D_B, backward_D_basic; unfold_calls; pres.
Qed.

Lemma backward_D_A_raised (s : state) :
  is_ok (backward_D_A E s) = false ->
  losses (state_of (backward_D_A E s)) = losses s.
Proof.
  assert (K : ends (backward_D_A E) s (fun o =>
                match o with
                | Ok _ _ => True
                | Raise _ s' => losses s' = losses s
                end))
    by (unfold backward_D_A, backward_D_basic; unfold_calls;
        explore_all; store_goal; first [exact I | reflexivity]).
  unfold ends in K. destruct (backward_D_A E s); [discriminate|].
  intros _. exact K.
Qed.

Lemma backward_D_B_raised (s : state) :
  is_ok (backward_D_B E s) = false ->
  losses (state_of (backward_D_B E s)) = losses s.
Proof.
  assert (K : ends (backward_D_B E) s (fun o =>
                match o with
                | Ok _ _ => True
                | Raise _ s' => losses s' = losses s
                end))
    by (unfold backward_D_B, backward_D_basic; unfold_calls;
        explore_all; store_goal; first [exact I | reflexivity]).
  unfold ends in K. destruct (backward_D_B E s); [discriminate|].
  intros _. exact K.
Qed.

End DiscriminatorFrame.

(** X22.  [backward_D_A] assigns loss_D_A and nothing else, and [backward_D_B]
    assigns loss_D_B and nothing else: images, norms, gradient flags, update
    counts and all other losses are as before, whether the call returns or
    raises; when it raises, its own loss is as before too. *)
Theorem discriminator_losses_assign_one_attribute (E : Env) (s : state) :
  (tensors (state_of (backward_D_A E s)) = tensors s /\
   norms (state_of (backward_D_A E s)) = norms s /\
   requires_grad (state_of (backward_D_A E s)) = requires_grad s /\
   updates (state_of (backward_D_A E s)) = updates s /\
   (forall a, a <> loss_D_A ->
              losses (state_of (backward_D_A E s)) a = losses s a) /\
   (is_ok (backward_D_A E s) = false ->
    losses (state_of (backward_D_A E s)) = losses s)) /\
  (tensors (state_of (backward_D_B E s)) = tensors s /\
   norms (state_of (backward_D_B E s)) = norms s /\
   requires_grad (state_of (backward_D_B E s)) = requires_grad s /\
   updates (state_of (backward_D_B E s)) = updates s /\
   (forall a, a <> loss_D_B ->
              losses (state_of (backward_D_B E s)) a = losses s a) /\
   (is_ok (backward_D_B E s) = false ->
    losses (state_of (backward_D_B E s)) = losses s)).
Proof.
  pose proof (backward_D_A_frame E s) as FA.
  pose proof (backward_D_B_frame E s) as FB.
  injection FA as TA NA RA UA _ _ _. injection FB as TB NB RB UB _ _ _.
  split.
  - repeat (split; [assumption|]). split.
    + intros a Ha. exact (@backward_D_A_other_losses E a Ha s).
    + apply backward_D_A_raised.
  - repeat (split; [assumption|]). split.
    + intros a Ha. exact (@backward_D_B_other_losses E a Ha s).
    + apply backward_D_B_raised.
Qed.

Lemma discriminator_losses_assign_one_attribute_witness :
  losses (state_of (backward_D_A pool_fails_env
                      (forwarded pool_fails_env default_opt)))
  = losses (forwarded pool_fails_env default_opt).
Proof.
  destruct (discriminator_losses_assign_one_attribute pool_fails_env
              (forwarded pool_fails_env default_opt))
    as [(_ & _ & _ & _ & _ & H) _].
  apply H. vm_compute. reflexivity.
Defined.
